(** * LinguaDub audio core: a shallow embedding and its checked properties

    The development follows the three source files of the repository:
    - [types.ts]: the status enumeration, the segment record and the voice
      table ([Module Types]);
    - [services/geminiService.ts]: the RIFF/WAVE wrapper put around the raw
      PCM returned by the synthesis service ([Module GeminiService]);
    - the [DubbingStudio] component: buffer trimming, the overlap-avoiding
      scheduler, live preview, export and speaker/voice assignment
      ([Module DubbingStudio]).

    Numbers.  JavaScript numbers that carry times, durations and sample
    amplitudes are modelled as exact rationals ([Q]); integers written into
    the WAV header are [Z] with the wrap-around of [DataView] spelled out.
    Equalities between times are therefore stated with [Qeq] ([==]). *)

From Stdlib Require Import ZArith QArith Qminmax Qabs Lia Lqa.
From Stdlib Require Import String Ascii.
From Stdlib Require Init.Byte Strings.Byte.
From stdpp Require Import base option list sorting gmap strings pretty.

Local Open Scope Z_scope.

(** Closed statements about the worked sessions are settled by
    evaluation, conjunct by conjunct. *)
Ltac evaluate :=
  cbv zeta;
  lazymatch goal with
  | |- _ /\ _ => split; evaluate
  | |- _ => vm_compute; first [reflexivity | discriminate]
  end.

(* ===================================================================== *)
(** * types.ts                                                            *)
(* ===================================================================== *)

Module Types.

Inductive AppStatus :=
| IDLE | PROCESSING_VIDEO | ANALYZING | READY_TO_DUB
| SYNTHESIZING | EXPORTING | COMPLETED | ERROR.

(** [audioUrl] is the optional Blob URL of the generated speech;
    [isSynthesizing] is the optional flag ([None] is an absent field). *)
Record DubSegment := {
  id : string;
  startTime : Q;
  endTime : Q;
  originalText : string;
  translatedText : string;
  isSynthesizing : option bool;
  audioUrl : option string;
  speakerLabel : string
}.

Inductive Gender := Male | Female.

Record TTSVoice := {
  voice_name : string;
  voice_gender : Gender;
  voice_id : string
}.

Definition VOICES : list TTSVoice :=
  [ {| voice_name := "Kore";   voice_gender := Female; voice_id := "Kore" |};
    {| voice_name := "Puck";   voice_gender := Male;   voice_id := "Puck" |};
    {| voice_name := "Fenrir"; voice_gender := Male;   voice_id := "Fenrir" |};
    {| voice_name := "Charon"; voice_gender := Male;   voice_id := "Charon" |};
    {| voice_name := "Zephyr"; voice_gender := Female; voice_id := "Zephyr" |} ].

(** [SpeakerMap]: a plain object used as a map from speaker label to
    voice id.  The finite map holds the object's own properties.  Every
    speaker map of the component is built by an object literal, so its
    prototype is [Object.prototype], whose members a read by key finds
    when the object has no own property of that name. *)
Abbreviation SpeakerMap := (gmap string string).

(** The property names of [Object.prototype]: the standard ones and the
    legacy ones that web browsers add.  [__proto__] is an accessor, the
    others are methods; read through a plain object each of them is an
    object or a function, never a string. *)
Definition objectPrototypeKeys : list string :=
  [ "constructor"; "hasOwnProperty"; "isPrototypeOf";
    "propertyIsEnumerable"; "toLocaleString"; "toString"; "valueOf";
    "__proto__"; "__defineGetter__"; "__defineSetter__";
    "__lookupGetter__"; "__lookupSetter__" ].

(** What a read of a speaker map hands on as the voice of a synthesis
    request: a voice name, or the member of [Object.prototype] found
    under the key. *)
Inductive VoiceId :=
| VoiceName (name : string)
| PrototypeMember (key : string).

(** [obj[key]]: the own property, else the inherited member, else
    [undefined] ([None]). *)
Definition getProperty (obj : SpeakerMap) (key : string) : option VoiceId :=
  match obj !! key with
  | Some v => Some (VoiceName v)
  | None =>
      if bool_decide (key ∈ objectPrototypeKeys)
      then Some (PrototypeMember key) else None
  end.

(** [obj[key] = value] for a string [value].  An own property is updated;
    otherwise an own property is created, except under the key
    [__proto__], where the inherited setter runs and ignores a value that
    is neither an object nor [null]. *)
Definition setProperty (key value : string) (obj : SpeakerMap) : SpeakerMap :=
  match obj !! key with
  | Some _ => <[key := value]> obj
  | None =>
      if bool_decide (key = "__proto__") then obj else <[key := value]> obj
  end.

End Types.

(* ===================================================================== *)
(** * services/geminiService.ts                                           *)
(* ===================================================================== *)

Module GeminiService.

Abbreviation byte := Init.Byte.byte.

#[global] Instance byte_eq_decision : EqDecision byte := Byte.byte_eq_dec.

(** The unsigned value of a byte. *)
Definition byteVal (b : byte) : Z := Z.of_N (Byte.to_N b).

(** The conversion a typed array or [DataView.setUint8] applies to a
    number: reduction modulo 256. *)
Definition toUint8 (v : Z) : byte :=
  default Byte.x00 (Byte.of_N (Z.to_N (v mod 256))).

(** [String.prototype.charCodeAt] on the ASCII strings of this file. *)
Fixpoint charCodes (s : string) : list Z :=
  match s with
  | EmptyString => []
  | String c s' => Z.of_N (N_of_ascii c) :: charCodes s'
  end.

(** An [ArrayBuffer] seen through a [DataView]: a byte list updated in
    place.  A write that does not fit raises [RangeError], here [None]. *)
Definition setUint8 (offset : nat) (value : Z) (view : list byte)
  : option (list byte) :=
  if decide (offset < length view)%nat
  then Some (<[offset := toUint8 value]> view)
  else None.

(** [view.setUint16(offset, value, true)]: two bytes, little-endian,
    of [value] modulo 2^16. *)
Definition setUint16 (offset : nat) (value : Z) (view : list byte)
  : option (list byte) :=
  if decide (offset + 2 <= length view)%nat
  then
    let v := value mod 2 ^ 16 in
    Some (<[(offset + 1)%nat := toUint8 (v / 2 ^ 8)]>
          (<[offset := toUint8 v]> view))
  else None.

(** [view.setUint32(offset, value, true)]: four bytes, little-endian,
    of [value] modulo 2^32. *)
Definition setUint32 (offset : nat) (value : Z) (view : list byte)
  : option (list byte) :=
  if decide (offset + 4 <= length view)%nat
  then
    let v := value mod 2 ^ 32 in
    Some (<[(offset + 3)%nat := toUint8 (v / 2 ^ 24)]>
          (<[(offset + 2)%nat := toUint8 (v / 2 ^ 16)]>
           (<[(offset + 1)%nat := toUint8 (v / 2 ^ 8)]>
            (<[offset := toUint8 v]> view))))
  else None.

(** The loop of [writeString], over the character codes. *)
Fixpoint writeCodes (offset : nat) (codes : list Z) (view : list byte)
  : option (list byte) :=
  match codes with
  | [] => Some view
  | c :: codes' =>
      view' ← setUint8 offset c view;
      writeCodes (S offset) codes' view'
  end.

Definition writeString (offset : nat) (s : string) (view : list byte)
  : option (list byte) :=
  writeCodes offset (charCodes s) view.

(** [new Uint8Array(buffer, off).set(data)]: copy [data] at [off];
    [RangeError] when it does not fit. *)
Fixpoint overwrite (off : nat) (data : list byte) (view : list byte)
  : list byte :=
  match data with
  | [] => view
  | b :: data' => overwrite (S off) data' (<[off := b]> view)
  end.

Definition typedArraySet (off : nat) (data : list byte) (view : list byte)
  : option (list byte) :=
  if decide (off + length data <= length view)%nat
  then Some (overwrite off data view)
  else None.

Record Blob := { blob_bytes : list byte; blob_type : string }.

(** [pcmToWav]: a 44-byte header in front of the raw PCM. *)
Definition pcmToWav (pcmData : list byte) (sampleRate : Z) : option Blob :=
  let numChannels := 1 in
  let bitsPerSample := 16 in
  let byteRate := (sampleRate * numChannels * bitsPerSample) / 8 in
  let blockAlign := (numChannels * bitsPerSample) / 8 in
  let dataSize := length pcmData in
  let buffer := replicate (44 + dataSize) Byte.x00 in
  view ← writeString 0 "RIFF" buffer;
  view ← setUint32 4 (36 + Z.of_nat dataSize) view;
  view ← writeString 8 "WAVE" view;
  view ← writeString 12 "fmt " view;
  view ← setUint32 16 16 view;
  view ← setUint16 20 1 view;
  view ← setUint16 22 numChannels view;
  view ← setUint32 24 sampleRate view;
  view ← setUint32 28 byteRate view;
  view ← setUint16 32 blockAlign view;
  view ← setUint16 34 bitsPerSample view;
  view ← writeString 36 "data" view;
  view ← setUint32 40 (Z.of_nat dataSize) view;
  view ← typedArraySet 44 pcmData view;
  Some {| blob_bytes := view; blob_type := "audio/wav" |}.

(** The tail of [generateSpeech]: the decoded base64 payload is wrapped
    with the fixed rate of the synthesis service. *)
Definition generateSpeechWav (bytes : list byte) : option Blob :=
  pcmToWav bytes 24000.

(** ** Reference reader of the container

    Decoding is done by the browser ([decodeAudioData]), not by code of
    the repository.  The reader below follows the container layout of
    the interface description: it checks the four tags and the constant
    fields, reads the little-endian numbers and returns the declared
    format together with the [dataSize] bytes that follow the header. *)

Definition le16 (bs : list byte) : Z :=
  match bs with
  | b0 :: b1 :: _ => byteVal b0 + 2 ^ 8 * byteVal b1
  | _ => 0
  end.

Definition le32 (bs : list byte) : Z :=
  match bs with
  | b0 :: b1 :: b2 :: b3 :: _ =>
      byteVal b0 + 2 ^ 8 * byteVal b1 + 2 ^ 16 * byteVal b2
      + 2 ^ 24 * byteVal b3
  | _ => 0
  end.

Definition field (off len : nat) (bs : list byte) : list byte :=
  take len (drop off bs).

Definition tag (s : string) : list byte := toUint8 <$> charCodes s.

Record WavFormat := {
  wav_channels : Z;
  wav_sampleRate : Z;
  wav_byteRate : Z;
  wav_blockAlign : Z;
  wav_bitsPerSample : Z
}.

Definition decodeWav (bs : list byte) : option (WavFormat * list byte) :=
  if decide (field 0 4 bs = tag "RIFF" ∧ field 8 4 bs = tag "WAVE"
             ∧ field 12 4 bs = tag "fmt " ∧ field 36 4 bs = tag "data"
             ∧ le32 (field 16 4 bs) = 16 ∧ le16 (field 20 2 bs) = 1
             ∧ le32 (field 4 4 bs) = 36 + le32 (field 40 4 bs)
             ∧ (44 + Z.to_nat (le32 (field 40 4 bs)) <= length bs)%nat)
  then Some ({| wav_channels := le16 (field 22 2 bs);
                wav_sampleRate := le32 (field 24 4 bs);
                wav_byteRate := le32 (field 28 4 bs);
                wav_blockAlign := le16 (field 32 2 bs);
                wav_bitsPerSample := le16 (field 34 2 bs) |},
             field 44 (Z.to_nat (le32 (field 40 4 bs))) bs)
  else None.

(** The header as the interface description words it: little-endian
    numbers are the successive base-256 digits of the value. *)
Fixpoint leBytes (n : nat) (v : Z) : list byte :=
  match n with
  | O => []
  | S n' => toUint8 v :: leBytes n' (v / 256)
  end.

Definition wavHeader (dataSize : nat) (sampleRate : Z) : list byte :=
  let channels := 1 in
  let bitsPerSample := 16 in
  tag "RIFF" ++ leBytes 4 (36 + Z.of_nat dataSize) ++ tag "WAVE"
  ++ tag "fmt " ++ leBytes 4 16 ++ leBytes 2 1 ++ leBytes 2 channels
  ++ leBytes 4 sampleRate
  ++ leBytes 4 (sampleRate * channels * bitsPerSample / 8)
  ++ leBytes 2 (channels * bitsPerSample / 8)
  ++ leBytes 2 bitsPerSample
  ++ tag "data" ++ leBytes 4 (Z.of_nat dataSize).

(** ** The rest of the service module *)

(** A segment as the analysis model returns it, before it has an id. *)
Record ParsedSegment := {
  parsed_startTime : Q;
  parsed_endTime : Q;
  parsed_originalText : string;
  parsed_translatedText : string;
  parsed_speakerLabel : string
}.

(** The template [`seg-${index}-${Date.now()}`]: both numbers are
    non-negative integers and print as their decimal digits. *)
Definition segmentId (index : nat) (now : N) : string :=
  "seg-" +:+ pretty index +:+ "-" +:+ pretty now.

(** The last step of [analyzeVideo]:
    [parsed.segments.map((seg, index) => ({...seg, id: ...}))].  The clock
    is read once per element; [now index] is the reading for [index]. *)
Definition withIds (now : nat -> N) (parsed : list ParsedSegment)
  : list Types.DubSegment :=
  imap (fun index seg =>
          {| Types.id := segmentId index (now index);
             Types.startTime := parsed_startTime seg;
             Types.endTime := parsed_endTime seg;
             Types.originalText := parsed_originalText seg;
             Types.translatedText := parsed_translatedText seg;
             Types.isSynthesizing := None;
             Types.audioUrl := None;
             Types.speakerLabel := parsed_speakerLabel seg |}) parsed.

(** [String.prototype.split] with a one-character separator. *)
Fixpoint split (sep : ascii) (s : string) : list string :=
  match s with
  | EmptyString => [EmptyString]
  | String c rest =>
      if decide (c = sep) then EmptyString :: split sep rest
      else match split sep rest with
           | piece :: pieces => String c piece :: pieces
           | [] => [String c EmptyString]
           end
  end.

(** A string that does not contain the given character. *)
Fixpoint without (sep : ascii) (s : string) : Prop :=
  match s with
  | EmptyString => True
  | String c rest => c <> sep /\ without sep rest
  end.

(** [dataUrl.split(',')[1]], as [fileToGenerativePart] and the thumbnail
    handler take the payload of a data URL; [None] is [undefined]. *)
Definition dataUrlPayload (dataUrl : string) : option string :=
  split "," dataUrl !! 1%nat.

End GeminiService.

(* ===================================================================== *)
(** * components/DubbingStudio                                            *)
(* ===================================================================== *)

Module DubbingStudio.
Import Types.
Local Open Scope Q_scope.

(** JavaScript's [a > b] on numbers. *)
Definition Qgtb (a b : Q) : bool := negb (Qle_bool a b).

(** ** Audio buffers

    An [AudioBuffer] always has at least one channel, so channel 0 is a
    field of its own.  Samples are amplitudes in [-1, 1]. *)
Record AudioBuffer := {
  sampleRate : positive;
  channel0 : list Q;
  otherChannels : list (list Q)
}.

Definition numberOfChannels (b : AudioBuffer) : nat :=
  S (length (otherChannels b)).

(** [buffer.length]: the number of sample frames. *)
Definition bufferLength (b : AudioBuffer) : nat := length (channel0 b).

(** [buffer.duration], in seconds. *)
Definition duration (b : AudioBuffer) : Q :=
  Z.of_nat (bufferLength b) # sampleRate b.

(** ** trimAudioBuffer *)

Definition threshold : Q := 0.02.

(** [Math.abs(x) > threshold]. *)
Definition exceeds (x : Q) : bool := Qgtb (Qabs x) threshold.

(** A sample at or under the threshold. *)
Definition quiet (x : Q) : Prop := exceeds x = false.

(** First loop: the index of the first sample over the threshold, from
    index [i] on. *)
Fixpoint scanForward (i : nat) (channelData : list Q) : option nat :=
  match channelData with
  | [] => None
  | x :: rest => if exceeds x then Some i else scanForward (S i) rest
  end.

(** Second loop: from index [i - 1] down to 0; the value is the index
    found plus one. *)
Fixpoint scanBackward (channelData : list Q) (i : nat) : option nat :=
  match i with
  | O => None
  | S i' =>
      if exceeds (nth i' channelData 0) then Some (S i')
      else scanBackward channelData i'
  end.

Definition trimStart (channelData : list Q) : nat :=
  default 0%nat (scanForward 0 channelData).

Definition trimEnd (channelData : list Q) : nat :=
  default (length channelData)
          (scanBackward channelData (length channelData)).

(** The inner copy loop: [newData[i] = oldData[start + i]] for
    [i < newLength].  All channels of a buffer have the same length, so
    the read is in range; the default stands for a read that is not. *)
Definition copyRange (start newLength : nat) (oldData : list Q) : list Q :=
  (fun i => nth (start + i) oldData 0) <$> seq 0 newLength.

Definition trimAudioBuffer (buffer : AudioBuffer) : AudioBuffer :=
  let channelData := channel0 buffer in
  let start := trimStart channelData in
  let end_ := trimEnd channelData in
  if decide (end_ <= start)%nat then buffer
  else
    let newLength := (end_ - start)%nat in
    {| sampleRate := sampleRate buffer;
       channel0 := copyRange start newLength (channel0 buffer);
       otherChannels := copyRange start newLength <$> otherChannels buffer |}.

(** The channels of a buffer have one common length. *)
Definition wellFormed (b : AudioBuffer) : Prop :=
  Forall (fun ch => length ch = bufferLength b) (otherChannels b).

(** ** The engine and the component state *)

Inductive ContextState := Running | Suspended.

Record AudioContext := { ctx_state : ContextState; currentTime : Q }.

(** A buffer source that has been started: [source_when] is the engine
    time given to [start], [source_stopped] records a call of [stop]. *)
Record AudioBufferSourceNode := {
  source_buffer : AudioBuffer;
  source_when : Q;
  source_stopped : bool
}.

(** [video_duration] is [None] while the duration is not a number;
    [onended] holds the [finalAudioEnd] captured by the export handler. *)
Record Video := {
  video_currentTime : Q;
  muted : bool;
  paused : bool;
  video_duration : option Q;
  captureStream : bool;
  mozCaptureStream : bool;
  onended : option Q
}.

Definition setVideoCurrentTime (v : Q) (st : Video) : Video :=
  {| video_currentTime := v; muted := muted st; paused := paused st;
     video_duration := video_duration st;
     captureStream := captureStream st;
     mozCaptureStream := mozCaptureStream st; onended := onended st |}.

Definition setMuted (v : bool) (st : Video) : Video :=
  {| video_currentTime := video_currentTime st; muted := v;
     paused := paused st; video_duration := video_duration st;
     captureStream := captureStream st;
     mozCaptureStream := mozCaptureStream st; onended := onended st |}.

Definition setPaused (v : bool) (st : Video) : Video :=
  {| video_currentTime := video_currentTime st; muted := muted st;
     paused := v; video_duration := video_duration st;
     captureStream := captureStream st;
     mozCaptureStream := mozCaptureStream st; onended := onended st |}.

Definition setOnended (v : option Q) (st : Video) : Video :=
  {| video_currentTime := video_currentTime st; muted := muted st;
     paused := paused st; video_duration := video_duration st;
     captureStream := captureStream st;
     mozCaptureStream := mozCaptureStream st; onended := v |}.

Inductive RecorderState := Recording | Inactive.

(** Callbacks handed to [setTimeout]. *)
Inductive TimerAction := PreviewTimeout | StopRecorderTimeout.

(** React state, refs and the observable effects of the component.
    [sourceNodes] lists every source node created so far, in creation
    order; [activeSourceNodesRef] maps a handle to a position in that
    list.  [timers] holds the pending timeouts with their delay in
    milliseconds, [downloads] counts the files handed to the user and
    [alerts] the messages shown. *)
Record Studio := {
  status : AppStatus;
  segments : list DubSegment;
  isPlaying : bool;
  file : bool;
  defaultVoice : string;
  speakerMap : gmap string string;
  detectedSpeakers : list string;
  videoRef : option Video;
  audioContextRef : option AudioContext;
  monitorGainNodeRef : option Q;
  masterDestNodeRef : bool;
  sourceNodes : list AudioBufferSourceNode;
  activeSourceNodesRef : gmap string nat;
  audioBuffersRef : gmap string AudioBuffer;
  lastSegmentEndTimeRef : Q;
  recorder : option RecorderState;
  timers : list (Q * TimerAction);
  downloads : nat;
  alerts : list string
}.

(** Field updates, one per mutable piece of state. *)
Definition setStatus (v : AppStatus) (st : Studio) : Studio :=
  {| status := v; segments := segments st; isPlaying := isPlaying st;
     file := file st; defaultVoice := defaultVoice st;
     speakerMap := speakerMap st; detectedSpeakers := detectedSpeakers st;
     videoRef := videoRef st; audioContextRef := audioContextRef st;
     monitorGainNodeRef := monitorGainNodeRef st;
     masterDestNodeRef := masterDestNodeRef st;
     sourceNodes := sourceNodes st;
     activeSourceNodesRef := activeSourceNodesRef st;
     audioBuffersRef := audioBuffersRef st;
     lastSegmentEndTimeRef := lastSegmentEndTimeRef st;
     recorder := recorder st; timers := timers st;
     downloads := downloads st; alerts := alerts st |}.

Definition setSegments (v : list DubSegment) (st : Studio) : Studio :=
  {| status := status st; segments := v; isPlaying := isPlaying st;
     file := file st; defaultVoice := defaultVoice st;
     speakerMap := speakerMap st; detectedSpeakers := detectedSpeakers st;
     videoRef := videoRef st; audioContextRef := audioContextRef st;
     monitorGainNodeRef := monitorGainNodeRef st;
     masterDestNodeRef := masterDestNodeRef st;
     sourceNodes := sourceNodes st;
     activeSourceNodesRef := activeSourceNodesRef st;
     audioBuffersRef := audioBuffersRef st;
     lastSegmentEndTimeRef := lastSegmentEndTimeRef st;
     recorder := recorder st; timers := timers st;
     downloads := downloads st; alerts := alerts st |}.

Definition setIsPlaying (v : bool) (st : Studio) : Studio :=
  {| status := status st; segments := segments st; isPlaying := v;
     file := file st; defaultVoice := defaultVoice st;
     speakerMap := speakerMap st; detectedSpeakers := detectedSpeakers st;
     videoRef := videoRef st; audioContextRef := audioContextRef st;
     monitorGainNodeRef := monitorGainNodeRef st;
     masterDestNodeRef := masterDestNodeRef st;
     sourceNodes := sourceNodes st;
     activeSourceNodesRef := activeSourceNodesRef st;
     audioBuffersRef := audioBuffersRef st;
     lastSegmentEndTimeRef := lastSegmentEndTimeRef st;
     recorder := recorder st; timers := timers st;
     downloads := downloads st; alerts := alerts st |}.

Definition setSpeakerMap (v : gmap string string) (st : Studio) : Studio :=
  {| status := status st; segments := segments st;
     isPlaying := isPlaying st; file := file st;
     defaultVoice := defaultVoice st; speakerMap := v;
     detectedSpeakers := detectedSpeakers st; videoRef := videoRef st;
     audioContextRef := audioContextRef st;
     monitorGainNodeRef := monitorGainNodeRef st;
     masterDestNodeRef := masterDestNodeRef st;
     sourceNodes := sourceNodes st;
     activeSourceNodesRef := activeSourceNodesRef st;
     audioBuffersRef := audioBuffersRef st;
     lastSegmentEndTimeRef := lastSegmentEndTimeRef st;
     recorder := recorder st; timers := timers st;
     downloads := downloads st; alerts := alerts st |}.

Definition setDetectedSpeakers (v : list string) (st : Studio) : Studio :=
  {| status := status st; segments := segments st;
     isPlaying := isPlaying st; file := file st;
     defaultVoice := defaultVoice st; speakerMap := speakerMap st;
     detectedSpeakers := v; videoRef := videoRef st;
     audioContextRef := audioContextRef st;
     monitorGainNodeRef := monitorGainNodeRef st;
     masterDestNodeRef := masterDestNodeRef st;
     sourceNodes := sourceNodes st;
     activeSourceNodesRef := activeSourceNodesRef st;
     audioBuffersRef := audioBuffersRef st;
     lastSegmentEndTimeRef := lastSegmentEndTimeRef st;
     recorder := recorder st; timers := timers st;
     downloads := downloads st; alerts := alerts st |}.

Definition setVideoRef (v : option Video) (st : Studio) : Studio :=
  {| status := status st; segments := segments st;
     isPlaying := isPlaying st; file := file st;
     defaultVoice := defaultVoice st; speakerMap := speakerMap st;
     detectedSpeakers := detectedSpeakers st; videoRef := v;
     audioContextRef := audioContextRef st;
     monitorGainNodeRef := monitorGainNodeRef st;
     masterDestNodeRef := masterDestNodeRef st;
     sourceNodes := sourceNodes st;
     activeSourceNodesRef := activeSourceNodesRef st;
     audioBuffersRef := audioBuffersRef st;
     lastSegmentEndTimeRef := lastSegmentEndTimeRef st;
     recorder := recorder st; timers := timers st;
     downloads := downloads st; alerts := alerts st |}.

Definition setAudioContextRef (v : option AudioContext) (st : Studio) : Studio :=
  {| status := status st; segments := segments st;
     isPlaying := isPlaying st; file := file st;
     defaultVoice := defaultVoice st; speakerMap := speakerMap st;
     detectedSpeakers := detectedSpeakers st; videoRef := videoRef st;
     audioContextRef := v; monitorGainNodeRef := monitorGainNodeRef st;
     masterDestNodeRef := masterDestNodeRef st;
     sourceNodes := sourceNodes st;
     activeSourceNodesRef := activeSourceNodesRef st;
     audioBuffersRef := audioBuffersRef st;
     lastSegmentEndTimeRef := lastSegmentEndTimeRef st;
     recorder := recorder st; timers := timers st;
     downloads := downloads st; alerts := alerts st |}.

Definition setMonitorGainNodeRef (v : option Q) (st : Studio) : Studio :=
  {| status := status st; segments := segments st;
     isPlaying := isPlaying st; file := file st;
     defaultVoice := defaultVoice st; speakerMap := speakerMap st;
     detectedSpeakers := detectedSpeakers st; videoRef := videoRef st;
     audioContextRef := audioContextRef st; monitorGainNodeRef := v;
     masterDestNodeRef := masterDestNodeRef st;
     sourceNodes := sourceNodes st;
     activeSourceNodesRef := activeSourceNodesRef st;
     audioBuffersRef := audioBuffersRef st;
     lastSegmentEndTimeRef := lastSegmentEndTimeRef st;
     recorder := recorder st; timers := timers st;
     downloads := downloads st; alerts := alerts st |}.

Definition setMasterDestNodeRef (v : bool) (st : Studio) : Studio :=
  {| status := status st; segments := segments st;
     isPlaying := isPlaying st; file := file st;
     defaultVoice := defaultVoice st; speakerMap := speakerMap st;
     detectedSpeakers := detectedSpeakers st; videoRef := videoRef st;
     audioContextRef := audioContextRef st;
     monitorGainNodeRef := monitorGainNodeRef st; masterDestNodeRef := v;
     sourceNodes := sourceNodes st;
     activeSourceNodesRef := activeSourceNodesRef st;
     audioBuffersRef := audioBuffersRef st;
     lastSegmentEndTimeRef := lastSegmentEndTimeRef st;
     recorder := recorder st; timers := timers st;
     downloads := downloads st; alerts := alerts st |}.

Definition setSourceNodes (v : list AudioBufferSourceNode) (st : Studio) : Studio :=
  {| status := status st; segments := segments st;
     isPlaying := isPlaying st; file := file st;
     defaultVoice := defaultVoice st; speakerMap := speakerMap st;
     detectedSpeakers := detectedSpeakers st; videoRef := videoRef st;
     audioContextRef := audioContextRef st;
     monitorGainNodeRef := monitorGainNodeRef st;
     masterDestNodeRef := masterDestNodeRef st; sourceNodes := v;
     activeSourceNodesRef := activeSourceNodesRef st;
     audioBuffersRef := audioBuffersRef st;
     lastSegmentEndTimeRef := lastSegmentEndTimeRef st;
     recorder := recorder st; timers := timers st;
     downloads := downloads st; alerts := alerts st |}.

Definition setActiveSourceNodesRef (v : gmap string nat) (st : Studio) : Studio :=
  {| status := status st; segments := segments st;
     isPlaying := isPlaying st; file := file st;
     defaultVoice := defaultVoice st; speakerMap := speakerMap st;
     detectedSpeakers := detectedSpeakers st; videoRef := videoRef st;
     audioContextRef := audioContextRef st;
     monitorGainNodeRef := monitorGainNodeRef st;
     masterDestNodeRef := masterDestNodeRef st;
     sourceNodes := sourceNodes st; activeSourceNodesRef := v;
     audioBuffersRef := audioBuffersRef st;
     lastSegmentEndTimeRef := lastSegmentEndTimeRef st;
     recorder := recorder st; timers := timers st;
     downloads := downloads st; alerts := alerts st |}.

Definition setAudioBuffersRef (v : gmap string AudioBuffer) (st : Studio) : Studio :=
  {| status := status st; segments := segments st;
     isPlaying := isPlaying st; file := file st;
     defaultVoice := defaultVoice st; speakerMap := speakerMap st;
     detectedSpeakers := detectedSpeakers st; videoRef := videoRef st;
     audioContextRef := audioContextRef st;
     monitorGainNodeRef := monitorGainNodeRef st;
     masterDestNodeRef := masterDestNodeRef st;
     sourceNodes := sourceNodes st;
     activeSourceNodesRef := activeSourceNodesRef st;
     audioBuffersRef := v;
     lastSegmentEndTimeRef := lastSegmentEndTimeRef st;
     recorder := recorder st; timers := timers st;
     downloads := downloads st; alerts := alerts st |}.

Definition setLastSegmentEndTimeRef (v : Q) (st : Studio) : Studio :=
  {| status := status st; segments := segments st;
     isPlaying := isPlaying st; file := file st;
     defaultVoice := defaultVoice st; speakerMap := speakerMap st;
     detectedSpeakers := detectedSpeakers st; videoRef := videoRef st;
     audioContextRef := audioContextRef st;
     monitorGainNodeRef := monitorGainNodeRef st;
     masterDestNodeRef := masterDestNodeRef st;
     sourceNodes := sourceNodes st;
     activeSourceNodesRef := activeSourceNodesRef st;
     audioBuffersRef := audioBuffersRef st; lastSegmentEndTimeRef := v;
     recorder := recorder st; timers := timers st;
     downloads := downloads st; alerts := alerts st |}.

Definition setRecorder (v : option RecorderState) (st : Studio) : Studio :=
  {| status := status st; segments := segments st;
     isPlaying := isPlaying st; file := file st;
     defaultVoice := defaultVoice st; speakerMap := speakerMap st;
     detectedSpeakers := detectedSpeakers st; videoRef := videoRef st;
     audioContextRef := audioContextRef st;
     monitorGainNodeRef := monitorGainNodeRef st;
     masterDestNodeRef := masterDestNodeRef st;
     sourceNodes := sourceNodes st;
     activeSourceNodesRef := activeSourceNodesRef st;
     audioBuffersRef := audioBuffersRef st;
     lastSegmentEndTimeRef := lastSegmentEndTimeRef st; recorder := v;
     timers := timers st; downloads := downloads st; alerts := alerts st |}.

Definition setTimers (v : list (Q * TimerAction)) (st : Studio) : Studio :=
  {| status := status st; segments := segments st;
     isPlaying := isPlaying st; file := file st;
     defaultVoice := defaultVoice st; speakerMap := speakerMap st;
     detectedSpeakers := detectedSpeakers st; videoRef := videoRef st;
     audioContextRef := audioContextRef st;
     monitorGainNodeRef := monitorGainNodeRef st;
     masterDestNodeRef := masterDestNodeRef st;
     sourceNodes := sourceNodes st;
     activeSourceNodesRef := activeSourceNodesRef st;
     audioBuffersRef := audioBuffersRef st;
     lastSegmentEndTimeRef := lastSegmentEndTimeRef st;
     recorder := recorder st; timers := v; downloads := downloads st;
     alerts := alerts st |}.

Definition setDownloads (v : nat) (st : Studio) : Studio :=
  {| status := status st; segments := segments st;
     isPlaying := isPlaying st; file := file st;
     defaultVoice := defaultVoice st; speakerMap := speakerMap st;
     detectedSpeakers := detectedSpeakers st; videoRef := videoRef st;
     audioContextRef := audioContextRef st;
     monitorGainNodeRef := monitorGainNodeRef st;
     masterDestNodeRef := masterDestNodeRef st;
     sourceNodes := sourceNodes st;
     activeSourceNodesRef := activeSourceNodesRef st;
     audioBuffersRef := audioBuffersRef st;
     lastSegmentEndTimeRef := lastSegmentEndTimeRef st;
     recorder := recorder st; timers := timers st; downloads := v;
     alerts := alerts st |}.

Definition setAlerts (v : list string) (st : Studio) : Studio :=
  {| status := status st; segments := segments st;
     isPlaying := isPlaying st; file := file st;
     defaultVoice := defaultVoice st; speakerMap := speakerMap st;
     detectedSpeakers := detectedSpeakers st; videoRef := videoRef st;
     audioContextRef := audioContextRef st;
     monitorGainNodeRef := monitorGainNodeRef st;
     masterDestNodeRef := masterDestNodeRef st;
     sourceNodes := sourceNodes st;
     activeSourceNodesRef := activeSourceNodesRef st;
     audioBuffersRef := audioBuffersRef st;
     lastSegmentEndTimeRef := lastSegmentEndTimeRef st;
     recorder := recorder st; timers := timers st;
     downloads := downloads st; alerts := v |}.

(** Segment updates ([{...s, f: v}]). *)
Definition withTranslatedText (v : string) (st : DubSegment) : DubSegment :=
  {| id := id st; startTime := startTime st; endTime := endTime st;
     originalText := originalText st; translatedText := v;
     isSynthesizing := isSynthesizing st; audioUrl := audioUrl st;
     speakerLabel := speakerLabel st |}.

Definition withIsSynthesizing (v : option bool) (st : DubSegment) : DubSegment :=
  {| id := id st; startTime := startTime st; endTime := endTime st;
     originalText := originalText st; translatedText := translatedText st;
     isSynthesizing := v; audioUrl := audioUrl st;
     speakerLabel := speakerLabel st |}.

Definition withAudioUrl (v : option string) (st : DubSegment) : DubSegment :=
  {| id := id st; startTime := startTime st; endTime := endTime st;
     originalText := originalText st; translatedText := translatedText st;
     isSynthesizing := isSynthesizing st; audioUrl := v;
     speakerLabel := speakerLabel st |}.

(** ** Media element and engine primitives *)

Definition updateVideo (f : Video -> Video) (st : Studio) : Studio :=
  setVideoRef (f <$> videoRef st) st.

(** [video.play()]; the element's [onPlay] handler sets [isPlaying]. *)
Definition videoPlay (st : Studio) : Studio :=
  match videoRef st with
  | Some v =>
      if paused v
      then setIsPlaying true (setVideoRef (Some (setPaused false v)) st)
      else st
  | None => st
  end.

(** [video.pause()]; the element's [onPause] handler clears [isPlaying]. *)
Definition videoPause (st : Studio) : Studio :=
  match videoRef st with
  | Some v =>
      if paused v then st
      else setIsPlaying false (setVideoRef (Some (setPaused true v)) st)
  | None => st
  end.

Definition resume (st : Studio) : Studio :=
  match audioContextRef st with
  | Some ctx =>
      setAudioContextRef
        (Some {| ctx_state := Running; currentTime := currentTime ctx |}) st
  | None => st
  end.

(** [initAudioContext]: build the context and the output nodes once,
    otherwise resume a suspended context.  The filter network that
    processes the original sound track carries no state of interest
    here. *)
Definition initAudioContext (st : Studio) : Studio :=
  match audioContextRef st with
  | None =>
      setMasterDestNodeRef true
        (setMonitorGainNodeRef (Some 1)
           (setAudioContextRef
              (Some {| ctx_state := Running; currentTime := 0 |}) st))
  | Some ctx =>
      match ctx_state ctx with
      | Suspended => resume st
      | Running => st
      end
  end.

Definition stopSource (s : AudioBufferSourceNode) : AudioBufferSourceNode :=
  {| source_buffer := source_buffer s; source_when := source_when s;
     source_stopped := true |}.

(** [stopAllAudio]: stop every node of the active set, then clear it. *)
Definition stopAllAudio (st : Studio) : Studio :=
  let handles := (map_to_list (activeSourceNodesRef st)).*2 in
  setActiveSourceNodesRef ∅
    (setSourceNodes
       (foldr (fun h nodes => alter stopSource h nodes)
              (sourceNodes st) handles) st).

Definition setMonitorGain (g : Q) (st : Studio) : Studio :=
  match monitorGainNodeRef st with
  | Some _ => setMonitorGainNodeRef (Some g) st
  | None => st
  end.

(** [createBufferSource], [start(when)] and the registration under a
    handle of the active set. *)
Definition startSource (handle : string) (buffer : AudioBuffer) (when : Q)
    (st : Studio) : Studio :=
  setActiveSourceNodesRef
    (<[handle := length (sourceNodes st)]> (activeSourceNodesRef st))
    (setSourceNodes
       (sourceNodes st
        ++ [ {| source_buffer := buffer; source_when := when;
                source_stopped := false |} ]) st).

(** ** The scheduler *)

Definition scheduleSegment (segment : DubSegment) (anchorTime : Q)
    (st : Studio) : Studio :=
  match audioBuffersRef st !! id segment, audioContextRef st,
        masterDestNodeRef st, monitorGainNodeRef st with
  | Some buffer, Some ctx, true, Some _ =>
      let idealStart := startTime segment in
      let previousEnd := lastSegmentEndTimeRef st in
      let safePlayAt := Qmax idealStart (previousEnd + 0.1) in
      let duration := duration buffer in
      let playAt := currentTime ctx + Qmax 0 (safePlayAt - anchorTime) in
      startSource (id segment) buffer playAt
        (setLastSegmentEndTimeRef (safePlayAt + duration) st)
  | _, _, _, _ => st
  end.

(** [[...segments].sort((a,b) => a.startTime - b.startTime)]: the sort
    is stable, so the result is the stable insertion of every segment. *)
Fixpoint insertByStartTime (a : DubSegment) (l : list DubSegment)
  : list DubSegment :=
  match l with
  | [] => [a]
  | b :: l' =>
      if Qle_bool (startTime a) (startTime b) then a :: l
      else b :: insertByStartTime a l'
  end.

Definition sortByStartTime (l : list DubSegment) : list DubSegment :=
  foldr insertByStartTime [] l.

(** The scheduling pass shared by preview and export: sort, reset the
    cursor, schedule every segment from anchor 0. *)
Definition scheduleAll (st : Studio) : Studio :=
  let sorted := sortByStartTime (segments st) in
  foldl (fun st seg => scheduleSegment seg 0 st)
        (setLastSegmentEndTimeRef 0 st) sorted.

Definition addTimer (delay : Q) (a : TimerAction) (st : Studio) : Studio :=
  setTimers (timers st ++ [(delay, a)]) st.

Definition findSegment (ident : string) (l : list DubSegment)
  : option DubSegment :=
  find (fun s => bool_decide (id s = ident)) l.

(** ** Live preview *)

Definition playPreviewSegment (ident : string) (st : Studio) : Studio :=
  match findSegment ident (segments st) with
  | None => st
  | Some seg =>
      let st := match audioContextRef st with
                | None => initAudioContext st
                | Some _ => st
                end in
      match audioContextRef st with
      | None => st
      | Some ctx =>
          let st := match ctx_state ctx with
                    | Suspended => resume st
                    | Running => st
                    end in
          let st := stopAllAudio st in
          let st :=
            match videoRef st with
            | Some _ =>
                addTimer ((endTime seg - startTime seg + 1.5) * 1000)
                  PreviewTimeout
                  (videoPlay
                     (updateVideo
                        (fun v => setMuted false
                                    (setVideoCurrentTime (startTime seg) v))
                        st))
            | None => st
            end in
          match audioBuffersRef st !! ident, monitorGainNodeRef st with
          | Some buffer, Some _ =>
              startSource "preview-tts" buffer (currentTime ctx) st
          | _, _ => st
          end
      end
  end.

(** The timeout set by [playPreviewSegment]. *)
Definition previewTimeout (st : Studio) : Studio :=
  stopAllAudio (videoPause st).

Definition playFullPreview (st : Studio) : Studio :=
  match videoRef st, audioContextRef st with
  | Some _, Some _ =>
      let st := initAudioContext st in
      if isPlaying st then
        setIsPlaying false (stopAllAudio (videoPause st))
      else
        let st := resume st in
        let st := setMonitorGain 1 st in
        let st :=
          updateVideo
            (fun v => setMuted false (setVideoCurrentTime 0 v)) st in
        let st := scheduleAll st in
        setIsPlaying true (videoPlay st)
  | _, _ => st
  end.

(** [handleCaptureFrame], as far as playback is concerned: with a 2D
    canvas context at hand it clears [isPlaying] and pauses the video. *)
Definition handleCaptureFrame (canvas2d : bool) (st : Studio) : Studio :=
  match videoRef st with
  | None => st
  | Some _ =>
      if canvas2d then videoPause (setIsPlaying false st) else st
  end.

(** ** Editing and synthesis *)

(** The [onChange] handler of a segment's translated-text area. *)
Definition editTranslatedText (ident : string) (value : string)
    (st : Studio) : Studio :=
  setSegments
    ((fun s => if bool_decide (id s = ident)
               then withAudioUrl None (withTranslatedText value s)
               else s) <$> segments st) st.

(** [speakerMap[label] || defaultVoice]: the empty string and
    [undefined] are falsy, an inherited member of [Object.prototype] is
    truthy. *)
Definition voiceFor (m : SpeakerMap) (fallback label : string) : VoiceId :=
  match getProperty m label with
  | Some (VoiceName v) =>
      if bool_decide (v = "") then VoiceName fallback else VoiceName v
  | Some (PrototypeMember key) => PrototypeMember key
  | None => VoiceName fallback
  end.

Definition markSynthesizing (ident : string) (l : list DubSegment)
  : list DubSegment :=
  (fun s => if bool_decide (id s = ident)
            then withIsSynthesizing (Some true) s else s) <$> l.

Definition markSynthesized (ident audioUrl : string) (l : list DubSegment)
  : list DubSegment :=
  (fun s => if bool_decide (id s = ident)
            then withIsSynthesizing (Some false)
                   (withAudioUrl (Some audioUrl) s)
            else s) <$> l.

Section Synthesis.
(** The synthesis collaborator followed by fetch and decode: for a text
    and a voice, the Blob URL and the decoded buffer, or [None] when
    any of the three steps throws.  The voice is whatever the lookup in
    the speaker map has produced. *)
Variable synthesize : string -> VoiceId -> option (string * AudioBuffer).

(** The [try]/[catch] shared by the two synthesis paths; [spkMap] and
    [voice] are the values captured by the handler, [onError] is the
    body of its [catch]. *)
Definition synthesizeOne (spkMap : gmap string string) (voice : string)
    (onError : Studio -> Studio) (seg : DubSegment) (st : Studio)
  : Studio :=
  let ident := id seg in
  let st := setSegments (markSynthesizing ident (segments st)) st in
  let voiceId := voiceFor spkMap voice (speakerLabel seg) in
  match synthesize (translatedText seg) voiceId with
  | Some (audioUrl, audioBuffer) =>
      let st :=
        match audioContextRef st with
        | Some _ =>
            setAudioBuffersRef
              (<[ident := trimAudioBuffer audioBuffer]>
                 (audioBuffersRef st)) st
        | None => st
        end in
      setSegments (markSynthesized ident audioUrl (segments st)) st
  | None => onError st
  end.

Definition handleSynthesizeSegment (ident : string) (st : Studio)
  : Studio :=
  match findSegment ident (segments st) with
  | None => st
  | Some segment =>
      synthesizeOne (speakerMap st) (defaultVoice st)
        (fun st =>
           setSegments
             ((fun s => if bool_decide (id s = ident)
                        then withIsSynthesizing (Some false) s else s)
                <$> segments st) st)
        segment st
  end.

(** ** Export *)

(** [segments.filter(s => !audioBuffersRef.current.has(s.id))
     .map(s => s.id)]. *)
Definition missingAudioIds (st : Studio) : list string :=
  id <$> filter (fun s => audioBuffersRef st !! id s = None)
                (segments st).

(** [recorder.stop()] and the [onstop] handler it triggers: the file
    is assembled and downloaded. *)
Definition recorderStop (st : Studio) : Studio :=
  let st := setRecorder (Some Inactive) st in
  let st := setDownloads (S (downloads st)) st in
  let st := setStatus COMPLETED st in
  let st :=
    updateVideo (fun v => setMuted false (setVideoCurrentTime 0 v)) st in
  let st := stopAllAudio st in
  setMonitorGain 1 st.

(** [if (recorder.state !== 'inactive') recorder.stop();
     if (videoRef.current) videoRef.current.onended = null]. *)
Definition stopRecorderNow (st : Studio) : Studio :=
  let st := match recorder st with
            | Some Recording => recorderStop st
            | _ => st
            end in
  updateVideo (setOnended None) st.

(** The [onended] handler installed by the export. *)
Definition onendedHandler (finalAudioEnd : Q) (st : Studio) : Studio :=
  let videoDuration :=
    match videoRef st with
    | Some v => default 0 (video_duration v)
    | None => 0
    end in
  let extraTime := finalAudioEnd - videoDuration in
  if Qgtb extraTime 0
  then addTimer (extraTime * 1000 + 200) StopRecorderTimeout st
  else stopRecorderNow st.

(** The video reaches its end: the element pauses itself, then the
    installed handler (if any) runs. *)
Definition videoEnded (st : Studio) : Studio :=
  let st := videoPause st in
  match videoRef st with
  | Some v =>
      match onended v with
      | Some finalAudioEnd => onendedHandler finalAudioEnd st
      | None => st
      end
  | None => st
  end.

(** The auto-synthesis loop of the export: every segment without a
    buffer is synthesized in turn; a failure is logged and skipped. *)
Definition ensureSynthesized (st : Studio) : Studio :=
  let segs := segments st in
  let spkMap := speakerMap st in
  let voice := defaultVoice st in
  match missingAudioIds st with
  | [] => st
  | missing =>
      foldl (fun st ident =>
               match findSegment ident segs with
               | Some seg => synthesizeOne spkMap voice (fun st => st) seg st
               | None => st
               end)
            (initAudioContext (setStatus SYNTHESIZING st)) missing
  end.

Definition handleExport (st : Studio) : Studio :=
  match videoRef st, audioContextRef st with
  | Some _, Some _ =>
      match segments st with
      | [] => st
      | _ :: _ =>
          let st := ensureSynthesized st in
          let st := setStatus EXPORTING st in
          let st := setIsPlaying false st in
          let st := stopAllAudio st in
          let st := initAudioContext st in
          match audioContextRef st, masterDestNodeRef st with
          | Some _, true =>
              let st := resume st in
              match videoRef st with
              | Some vidEl =>
                  if captureStream vidEl || mozCaptureStream vidEl then
                    let st := setMonitorGain 0 st in
                    let st :=
                      updateVideo
                        (fun v => setMuted false (setVideoCurrentTime 0 v))
                        st in
                    let st := scheduleAll st in
                    let finalAudioEnd := lastSegmentEndTimeRef st in
                    let st := setRecorder (Some Recording) st in
                    let st := videoPlay st in
                    updateVideo (setOnended (Some finalAudioEnd)) st
                  else
                    setStatus COMPLETED
                      (setAlerts
                         (alerts st ++ ["Browser capture not supported."])
                         st)
              | None => st
              end
          | _, _ => st
          end
      end
  | _, _ => st
  end.
End Synthesis.

(** The state in which [handleExport] asks the video element for a
    stream: after the synthesis loop, the status change, the cancellation
    of running clips and the resumption of the context. *)
Definition exportPrepared
    (synthesize : string -> VoiceId -> option (string * AudioBuffer))
    (st : Studio) : Studio :=
  resume
    (initAudioContext
       (stopAllAudio
          (setIsPlaying false
             (setStatus EXPORTING (ensureSynthesized synthesize st))))).

(** The timeout set by the [onended] handler. *)
Definition stopRecorderTimeout (st : Studio) : Studio := stopRecorderNow st.

(** ** Analysis and voice assignment *)

(** [Array.from(new Set(labels))]: the distinct labels, in order of
    first appearance. *)
Fixpoint distinctFrom (seen : list string) (labels : list string)
  : list string :=
  match labels with
  | [] => []
  | x :: rest =>
      if bool_decide (x ∈ seen) then distinctFrom seen rest
      else x :: distinctFrom (x :: seen) rest
  end.

Definition distinctLabels (labels : list string) : list string :=
  distinctFrom [] labels.

(** [VOICES.findIndex(v => v.id === voice)], [-1] when absent. *)
Fixpoint findIndexFrom (i : Z) (voices : list TTSVoice) (voice : string)
  : Z :=
  match voices with
  | [] => (-1)%Z
  | v :: rest =>
      if bool_decide (voice_id v = voice) then i
      else findIndexFrom (i + 1)%Z rest voice
  end.

Definition findIndex (voices : list TTSVoice) (voice : string) : Z :=
  findIndexFrom 0%Z voices voice.

(** [VOICES[i]], [undefined] outside the table. *)
Definition voiceAt (i : Z) : option TTSVoice :=
  if decide (0 <= i)%Z then VOICES !! Z.to_nat i else None.

(** The [forEach] that fills the new map ([newMap[spk] = ...] on an
    object that starts as [{}]), from index [idx] on; reading [.id] of
    [undefined] throws, which is [None]. *)
Fixpoint assignVoices (voice : string) (idx : nat) (speakers : list string)
    (newMap : gmap string string) : option (gmap string string) :=
  match speakers with
  | [] => Some newMap
  | spk :: rest =>
      match idx with
      | O => assignVoices voice (S idx) rest (setProperty spk voice newMap)
      | S _ =>
          let defaultIdx := findIndex VOICES voice in
          let rotateIdx :=
            Z.rem (defaultIdx + Z.of_nat idx) (Z.of_nat (length VOICES)) in
          v ← voiceAt rotateIdx;
          assignVoices voice (S idx) rest
            (setProperty spk (voice_id v) newMap)
      end
  end.

(** [startAnalysis]; [analysis] is the outcome of the external analysis
    call, [None] when it throws. *)
Definition startAnalysis (analysis : option (list DubSegment))
    (st : Studio) : Studio :=
  if file st then
    let st := setStatus ANALYZING (initAudioContext st) in
    match analysis with
    | Some results =>
        let st := setSegments results st in
        let speakers := distinctLabels (speakerLabel <$> results) in
        let st := setDetectedSpeakers speakers st in
        match assignVoices (defaultVoice st) 0 speakers ∅ with
        | Some newMap => setStatus READY_TO_DUB (setSpeakerMap newMap st)
        | None => setStatus ERROR st
        end
    | None => setStatus ERROR st
    end
  else st.

(** The voice the rotation gives to the speaker at position [k]: the
    selected voice for the first speaker, then the table entry at
    (index of the selected voice + k) modulo the table size. *)
Definition rotatedVoice (voice : string) (k : nat) : option string :=
  match k with
  | O => Some voice
  | S _ =>
      voice_id
        <$> voiceAt (Z.rem (findIndex VOICES voice + Z.of_nat k)
                           (Z.of_nat (length VOICES)))
  end.

(** ** The timeline a pass lays out

    The clips of a pass are the (start time, duration) pairs of the
    segments that have a buffer, in pass order; [safeTimes] is the
    recurrence on the cursor. *)
Definition clipsOf (bufs : gmap string AudioBuffer) (l : list DubSegment)
  : list (Q * Q) :=
  omap (fun s => b ← bufs !! id s; Some (startTime s, duration b)) l.

Fixpoint safeTimes (cursor : Q) (clips : list (Q * Q)) : list Q :=
  match clips with
  | [] => []
  | (start, dur) :: rest =>
      let safe := Qmax start (cursor + 0.1) in
      safe :: safeTimes (safe + dur) rest
  end.

(** The buffers of the segments that have one, in pass order. *)
Definition clipBuffers (bufs : gmap string AudioBuffer) (l : list DubSegment)
  : list AudioBuffer :=
  omap (fun s => bufs !! id s) l.

(** The cursor after the clips have been laid out. *)
Fixpoint finalCursor (cursor : Q) (clips : list (Q * Q)) : Q :=
  match clips with
  | [] => cursor
  | (start, dur) :: rest =>
      finalCursor (Qmax start (cursor + 0.1) + dur) rest
  end.

(** Consecutive nodes leave the gap: each starts at least 0.1 s after the
    previous one has played its buffer to the end. *)
Definition gapped (nodes : list AudioBufferSourceNode) : Prop :=
  forall i n m,
    nodes !! i = Some n -> nodes !! S i = Some m ->
    source_when n + duration (source_buffer n) + 0.1 <= source_when m.

(** What a pass leaves alone. *)
Definition passFrame (st st' : Studio) : Prop :=
  status st' = status st /\ segments st' = segments st
  /\ isPlaying st' = isPlaying st /\ videoRef st' = videoRef st
  /\ audioContextRef st' = audioContextRef st
  /\ monitorGainNodeRef st' = monitorGainNodeRef st
  /\ masterDestNodeRef st' = masterDestNodeRef st
  /\ audioBuffersRef st' = audioBuffersRef st
  /\ recorder st' = recorder st /\ timers st' = timers st
  /\ downloads st' = downloads st /\ alerts st' = alerts st.

(** What the auto-synthesis loop of the export leaves alone: it only
    touches the segment flags, the buffers and the run state of the
    context. *)
Definition synthesisFrame (st st' : Studio) : Prop :=
  videoRef st' = videoRef st
  /\ (is_Some (audioContextRef st) -> is_Some (audioContextRef st'))
  /\ masterDestNodeRef st' = masterDestNodeRef st
  /\ monitorGainNodeRef st' = monitorGainNodeRef st
  /\ sourceNodes st' = sourceNodes st
  /\ activeSourceNodesRef st' = activeSourceNodesRef st
  /\ lastSegmentEndTimeRef st' = lastSegmentEndTimeRef st
  /\ recorder st' = recorder st /\ timers st' = timers st
  /\ downloads st' = downloads st /\ alerts st' = alerts st.

(** What everything in the export after the synthesis loop leaves alone:
    the segments, the buffer store and the download count. *)
Definition storeFrame (st st' : Studio) : Prop :=
  segments st' = segments st
  /\ audioBuffersRef st' = audioBuffersRef st
  /\ downloads st' = downloads st.

(** The part of a segment that synthesis never rewrites: everything but
    [isSynthesizing] and [audioUrl]. *)
Definition scriptOf (s : DubSegment)
  : string * Q * Q * string * string * string :=
  (id s, startTime s, endTime s, originalText s, translatedText s,
   speakerLabel s).

(** ** Further handlers *)

Definition setFile (v : bool) (st : Studio) : Studio :=
  {| status := status st; segments := segments st; isPlaying := isPlaying st;
     file := v; defaultVoice := defaultVoice st;
     speakerMap := speakerMap st; detectedSpeakers := detectedSpeakers st;
     videoRef := videoRef st; audioContextRef := audioContextRef st;
     monitorGainNodeRef := monitorGainNodeRef st;
     masterDestNodeRef := masterDestNodeRef st;
     sourceNodes := sourceNodes st;
     activeSourceNodesRef := activeSourceNodesRef st;
     audioBuffersRef := audioBuffersRef st;
     lastSegmentEndTimeRef := lastSegmentEndTimeRef st;
     recorder := recorder st; timers := timers st;
     downloads := downloads st; alerts := alerts st |}.

(** [handleReset] ("New Project").  With the video source gone the video
    element is unmounted, so its ref is empty afterwards; the audio
    context and its output nodes stay. *)
Definition handleReset (st : Studio) : Studio :=
  let st := stopAllAudio st in
  let st := setFile false st in
  let st := setVideoRef None st in
  let st := setSegments [] st in
  let st := setStatus IDLE st in
  let st := setDetectedSpeakers [] st in
  let st := setSpeakerMap ∅ st in
  let st := setIsPlaying false st in
  let st := setAudioBuffersRef ∅ st in
  let st := setActiveSourceNodesRef ∅ st in
  setLastSegmentEndTimeRef 0 st.

(** The [onChange] handler of a detected speaker's voice selector:
    [{...prev, [speaker]: value}] copies the own properties and defines
    an own property under the computed key, whatever the key is. *)
Definition changeSpeakerVoice (speaker value : string) (st : Studio)
  : Studio :=
  let st := setSpeakerMap (<[speaker := value]> (speakerMap st)) st in
  setSegments
    ((fun s => if bool_decide (speakerLabel s = speaker)
               then withAudioUrl None s else s) <$> segments st) st.

(** ** A worked session

    A video is loaded, the analysis returns three segments of one
    speaker, and each segment is synthesized in turn: clips of 1.2 s,
    0.3 s and 0.5 s (at a rate of 1000 frames per second, to keep the
    buffers short) for start times 0.0, 1.0 and 1.05. *)

Definition toneBuffer (frames : nat) : AudioBuffer :=
  {| sampleRate := 1000; channel0 := replicate frames 0.5;
     otherChannels := [] |}.

Definition analysedSegment (ident : string) (start finish : Q)
    (text : string) : DubSegment :=
  {| id := ident; startTime := start; endTime := finish;
     originalText := "original"; translatedText := text;
     isSynthesizing := None; audioUrl := None;
     speakerLabel := "Speaker 1" |}.

Definition scenarioSegments : list DubSegment :=
  [ analysedSegment "seg-0" 0.0 1.0 "one";
    analysedSegment "seg-1" 1.0 1.04 "two";
    analysedSegment "seg-2" 1.05 2.0 "three" ].

Definition scenarioSynthesize (text : string) (voice : VoiceId)
  : option (string * AudioBuffer) :=
  if bool_decide (text = "one") then Some ("blob:one", toneBuffer 1200)
  else if bool_decide (text = "two") then Some ("blob:two", toneBuffer 300)
  else if bool_decide (text = "three")
       then Some ("blob:three", toneBuffer 500)
  else None.

Definition loadedVideo : Video :=
  {| video_currentTime := 0; muted := false; paused := true;
     video_duration := Some 10; captureStream := true;
     mozCaptureStream := false; onended := None |}.

Definition loadedStudio : Studio :=
  {| status := IDLE; segments := []; isPlaying := false; file := true;
     defaultVoice := "Kore"; speakerMap := ∅; detectedSpeakers := [];
     videoRef := Some loadedVideo; audioContextRef := None;
     monitorGainNodeRef := None; masterDestNodeRef := false;
     sourceNodes := []; activeSourceNodesRef := ∅; audioBuffersRef := ∅;
     lastSegmentEndTimeRef := 0; recorder := None; timers := [];
     downloads := 0; alerts := [] |}.

Definition scenarioStudio : Studio :=
  Eval vm_compute in
  foldl (fun st ident => handleSynthesizeSegment scenarioSynthesize ident st)
        (startAnalysis (Some scenarioSegments) loadedStudio)
        ["seg-0"; "seg-1"; "seg-2"].


(** A session whose dub outlasts the video: one segment at 9.6 s with a
    1.2 s clip, on a video of 10 s; the export synthesizes it itself. *)
Definition tailStudio : Studio :=
  Eval vm_compute in
  startAnalysis (Some [analysedSegment "seg-0" 9.6 10.0 "one"]) loadedStudio.

Definition exportedTailStudio : Studio :=
  Eval vm_compute in handleExport scenarioSynthesize tailStudio.

(** The worked session in a browser whose video element offers neither
    [captureStream] nor [mozCaptureStream]. *)
Definition noCaptureStudio : Studio :=
  Eval vm_compute in
  setVideoRef
    (Some {| video_currentTime := 0; muted := false; paused := true;
             video_duration := Some 10; captureStream := false;
             mozCaptureStream := false; onended := None |})
    scenarioStudio.


(** A synthesis service whose every answer is told apart from the clips
    of the worked session. *)
Definition freshSynthesize (text : string) (voice : VoiceId)
  : option (string * AudioBuffer) :=
  Some ("blob:fresh", toneBuffer 400).

(** The worked session after the user has rewritten the second line. *)
Definition editedStudio : Studio :=
  Eval vm_compute in editTranslatedText "seg-1" "changed" scenarioStudio.

(** The worked session with a full preview started and then a frame
    captured for the thumbnail: the video is paused, [isPlaying] is
    cleared, the scheduled clips are still in the active set. *)
Definition pausedByCaptureStudio : Studio :=
  Eval vm_compute in handleCaptureFrame true (playFullPreview scenarioStudio).

(** An analysis result with two speakers, the second of which the
    analysis service has labelled [__proto__]. *)
Definition inheritedLabelSegments : list DubSegment :=
  [ analysedSegment "seg-0" 0.0 1.0 "one";
    {| id := "seg-1"; startTime := 1.0; endTime := 2.0;
       originalText := "original"; translatedText := "two";
       isSynthesizing := None; audioUrl := None;
       speakerLabel := "__proto__" |} ].

End DubbingStudio.

(* ===================================================================== *)
(** * Properties of the WAV wrapper                                       *)
(* ===================================================================== *)

Section WavLayout.
Import GeminiService.

Lemma byteVal_toUint8 v : byteVal (toUint8 v) = v mod 256.
Proof.
  unfold byteVal, toUint8.
  assert (Hr : 0 <= v mod 256 < 256) by (apply Z.mod_pos_bound; lia).
  destruct (Byte.of_N (Z.to_N (v mod 256))) as [b|] eqn:E; simpl.
  - apply Byte.to_of_N in E. rewrite E. lia.
  - apply Byte.of_N_None_iff in E. lia.
Qed.

Lemma toUint8_congr a b : a mod 256 = b mod 256 -> toUint8 a = toUint8 b.
Proof. unfold toUint8. intros ->. reflexivity. Qed.

(** Writes that fit: the guard of each [DataView] setter holds. *)
Lemma setUint8_app off v (h t : list byte) :
  (off < length h)%nat ->
  setUint8 off v (h ++ t) = Some (<[off := toUint8 v]> h ++ t).
Proof.
  intros Hlt. unfold setUint8.
  rewrite decide_True by (rewrite length_app; lia).
  by rewrite insert_app_l.
Qed.

Lemma setUint16_app off v (h t : list byte) :
  (off + 2 <= length h)%nat ->
  setUint16 off v (h ++ t)
  = Some (<[(off + 1)%nat := toUint8 (v mod 2 ^ 16 / 2 ^ 8)]>
          (<[off := toUint8 (v mod 2 ^ 16)]> h) ++ t).
Proof.
  intros Hle. unfold setUint16.
  rewrite decide_True by (rewrite length_app; lia).
  cbv zeta. rewrite !insert_app_l by (rewrite ?length_insert; lia).
  reflexivity.
Qed.

Lemma setUint32_app off v (h t : list byte) :
  (off + 4 <= length h)%nat ->
  setUint32 off v (h ++ t)
  = Some (<[(off + 3)%nat := toUint8 (v mod 2 ^ 32 / 2 ^ 24)]>
          (<[(off + 2)%nat := toUint8 (v mod 2 ^ 32 / 2 ^ 16)]>
           (<[(off + 1)%nat := toUint8 (v mod 2 ^ 32 / 2 ^ 8)]>
            (<[off := toUint8 (v mod 2 ^ 32)]> h))) ++ t).
Proof.
  intros Hle. unfold setUint32.
  rewrite decide_True by (rewrite length_app; lia).
  cbv zeta. rewrite !insert_app_l by (rewrite ?length_insert; lia).
  reflexivity.
Qed.

Lemma writeCodes_app codes : forall off (h t : list byte),
  (off + length codes <= length h)%nat ->
  exists h', writeCodes off codes (h ++ t) = Some (h' ++ t)
             /\ writeCodes off codes h = Some h'
             /\ length h' = length h.
Proof.
  induction codes as [|c codes IH]; intros off h t Hle; simpl in *.
  - eauto.
  - rewrite setUint8_app by lia. simpl.
    unfold setUint8 at 1. rewrite decide_True by lia. simpl.
    destruct (IH (S off) (<[off := toUint8 c]> h) t) as (h' & E1 & E2 & E3).
    { rewrite length_insert. lia. }
    exists h'. rewrite length_insert in E3. auto.
Qed.

Lemma overwrite_app data : forall (h t : list byte),
  (length data <= length t)%nat ->
  overwrite (length h) data (h ++ t) = h ++ data ++ drop (length data) t.
Proof.
  induction data as [|b data IH]; intros h t Hle; simpl in *.
  - by rewrite drop_0.
  - destruct t as [|x t]; simpl in *; [lia|].
    rewrite insert_app_r_alt, Nat.sub_diag by lia. simpl.
    replace (S (length h)) with (length (h ++ [b]))
      by (rewrite length_app; simpl; lia).
    rewrite (cons_middle b h t), app_assoc.
    rewrite IH by lia. by rewrite <- app_assoc.
Qed.

Lemma digit_of_wrapped v k :
  0 <= k <= 24 ->
  toUint8 (v mod 2 ^ 32 / 2 ^ k) = toUint8 (v / 2 ^ k).
Proof.
  intros Hk. apply toUint8_congr.
  rewrite (Z.div_mod v (2 ^ 32)) at 2 by lia.
  replace (2 ^ 32 * (v / 2 ^ 32))
    with (2 ^ (32 - k - 8) * (v / 2 ^ 32) * 256 * 2 ^ k).
  2:{ replace (2 ^ 32) with (2 ^ (32 - k - 8) * 2 ^ 8 * 2 ^ k).
      - change (2 ^ 8) with 256. ring.
      - rewrite <- !Z.pow_add_r by lia. f_equal. lia. }
  rewrite Z.div_add_l by (apply Z.pow_nonzero; lia).
  rewrite Z.add_comm, Z.mod_add by lia. reflexivity.
Qed.

Lemma wrapped_digits v :
  toUint8 (v mod 2 ^ 32) = toUint8 v
  /\ toUint8 (v mod 2 ^ 32 / 2 ^ 8) = toUint8 (v / 256)
  /\ toUint8 (v mod 2 ^ 32 / 2 ^ 16) = toUint8 (v / 256 / 256)
  /\ toUint8 (v mod 2 ^ 32 / 2 ^ 24) = toUint8 (v / 256 / 256 / 256).
Proof.
  repeat split.
  - pose proof (digit_of_wrapped v 0 ltac:(lia)) as H.
    change (2 ^ 0) with 1 in H. by rewrite !Z.div_1_r in H.
  - apply (digit_of_wrapped v 8). lia.
  - rewrite Z.div_div by lia. apply (digit_of_wrapped v 16). lia.
  - rewrite !Z.div_div by lia. apply (digit_of_wrapped v 24). lia.
Qed.

Lemma typedArraySet_tail (h t data : list byte) off :
  off = length h -> length t = length data ->
  typedArraySet off data (h ++ t) = Some (h ++ data).
Proof.
  intros -> Hlen. unfold typedArraySet.
  rewrite decide_True by (rewrite length_app; lia).
  rewrite overwrite_app by lia.
  rewrite drop_ge by lia. by rewrite app_nil_r.
Qed.

Lemma pcmToWav_bytes pcm rate :
  pcmToWav pcm rate
  = Some {| blob_bytes := wavHeader (length pcm) rate ++ pcm;
            blob_type := "audio/wav" |}.
Proof.
  unfold pcmToWav. cbv zeta.
  rewrite replicate_add.
  generalize (eq_refl (length (replicate (length pcm) Byte.x00))).
  rewrite length_replicate at 2. intros Hlen.
  set (t := replicate (length pcm) Byte.x00) in *. clearbody t.
  unfold writeString. simpl charCodes. simpl replicate.
  cbn [writeCodes].
  repeat (first [ rewrite setUint8_app by (simpl; lia)
                | rewrite setUint16_app by (simpl; lia)
                | rewrite setUint32_app by (simpl; lia) ];
          cbn [mbind option_bind insert list_insert Nat.add]).
  rewrite typedArraySet_tail by (simpl; lia).
  cbn [mbind option_bind]. do 3 f_equal.
  unfold wavHeader, tag. cbv zeta. cbn [charCodes fmap list_fmap leBytes app].
  destruct (wrapped_digits (36 + Z.of_nat (length pcm))) as (-> & -> & -> & ->).
  destruct (wrapped_digits (Z.of_nat (length pcm))) as (-> & -> & -> & ->).
  destruct (wrapped_digits rate) as (-> & -> & -> & ->).
  destruct (wrapped_digits (rate * 1 * 16 / 8)) as (-> & -> & -> & ->).
  reflexivity.
Qed.

Lemma wavHeader_length n rate : length (wavHeader n rate) = 44%nat.
Proof. reflexivity. Qed.

Lemma le32_leBytes v :
  0 <= v < 2 ^ 32 -> le32 (leBytes 4 v) = v.
Proof.
  intros Hv. cbn [leBytes le32]. rewrite !byteVal_toUint8.
  pose proof (Z.div_mod v 256 ltac:(lia)) as E0.
  pose proof (Z.div_mod (v / 256) 256 ltac:(lia)) as E1.
  pose proof (Z.div_mod (v / 256 / 256) 256 ltac:(lia)) as E2.
  pose proof (Z.mod_pos_bound v 256 ltac:(lia)).
  pose proof (Z.mod_pos_bound (v / 256) 256 ltac:(lia)).
  pose proof (Z.mod_pos_bound (v / 256 / 256) 256 ltac:(lia)).
  assert (H3 : 0 <= v / 256 / 256 / 256 < 256).
  { rewrite !Z.div_div by lia. split.
    - apply Z.div_pos; lia.
    - apply Z.div_lt_upper_bound; lia. }
  rewrite (Z.mod_small (v / 256 / 256 / 256)) by lia.
  change (2 ^ 8) with 256. change (2 ^ 16) with 65536.
  change (2 ^ 24) with 16777216. lia.
Qed.

Lemma le16_leBytes v :
  0 <= v < 2 ^ 16 -> le16 (leBytes 2 v) = v.
Proof.
  intros Hv. cbn [leBytes le16]. rewrite !byteVal_toUint8.
  pose proof (Z.div_mod v 256 ltac:(lia)) as E0.
  pose proof (Z.mod_pos_bound v 256 ltac:(lia)).
  assert (H1 : 0 <= v / 256 < 256).
  { split; [apply Z.div_pos; lia | apply Z.div_lt_upper_bound; lia]. }
  rewrite (Z.mod_small (v / 256)) by lia.
  change (2 ^ 8) with 256. lia.
Qed.

(** The reference reader recovers format and payload from a header
    whose numbers fit their fields. *)
Lemma decodeWav_header pcm rate :
  0 <= rate -> 2 * rate < 2 ^ 32 ->
  36 + Z.of_nat (length pcm) < 2 ^ 32 ->
  decodeWav (wavHeader (length pcm) rate ++ pcm)
  = Some ({| wav_channels := 1; wav_sampleRate := rate;
             wav_byteRate := 2 * rate; wav_blockAlign := 2;
             wav_bitsPerSample := 16 |}, pcm).
Proof.
  intros Hr0 Hr1 Hn.
  assert (Hbr : rate * 1 * 16 / 8 = 2 * rate).
  { replace (rate * 1 * 16) with (2 * rate * 8) by ring.
    apply Z.div_mul. lia. }
  unfold decodeWav.
  set (bs := wavHeader (length pcm) rate ++ pcm).
  assert (F4 : le32 (field 4 4 bs) = 36 + Z.of_nat (length pcm)).
  { change (field 4 4 bs) with (leBytes 4 (36 + Z.of_nat (length pcm))).
    apply le32_leBytes. lia. }
  assert (F40 : le32 (field 40 4 bs) = Z.of_nat (length pcm)).
  { change (field 40 4 bs)
      with (take 4 (leBytes 4 (Z.of_nat (length pcm)) ++ pcm)).
    cbn [leBytes app take firstn]. apply (le32_leBytes (Z.of_nat (length pcm))).
    lia. }
  assert (F24 : le32 (field 24 4 bs) = rate).
  { change (field 24 4 bs) with (leBytes 4 rate).
    apply le32_leBytes. lia. }
  assert (F28 : le32 (field 28 4 bs) = 2 * rate).
  { change (field 28 4 bs) with (leBytes 4 (rate * 1 * 16 / 8)).
    rewrite Hbr. apply le32_leBytes. lia. }
  assert (F44 : field 44 (length pcm) bs = pcm).
  { change (field 44 (length pcm) bs) with (take (length pcm) pcm).
    by rewrite take_ge. }
  rewrite F4, F40, F24, F28, Nat2Z.id, F44.
  rewrite decide_True; [reflexivity|].
  repeat split; reflexivity.
Qed.
End WavLayout.

Section WavClaims.
Import GeminiService.

(** C9.  For every PCM byte array and sample rate, [pcmToWav] returns a
    Blob whose bytes are the 44-byte header of the interface
    description ("RIFF", little-endian 36 + dataSize, "WAVE", "fmt ",
    16, format 1, one channel, the sample rate, the byte rate, the
    block align, 16 bits per sample, "data", little-endian dataSize; all
    spelled out in [wavHeader]) followed by the PCM bytes unchanged.
    When the sizes fit their 32-bit fields, reading back what
    [generateSpeech] wraps yields the same PCM bytes with the declared
    format: mono, 24000 Hz, 16 bits. *)
Theorem pcmToWav_layout_roundtrip (pcm : list byte) (sampleRate : Z) :
  pcmToWav pcm sampleRate
  = Some {| blob_bytes := wavHeader (length pcm) sampleRate ++ pcm;
            blob_type := "audio/wav" |}
  /\ length (wavHeader (length pcm) sampleRate) = 44%nat
  /\ (36 + Z.of_nat (length pcm) < 2 ^ 32 ->
      exists blob,
        generateSpeechWav pcm = Some blob
        /\ decodeWav (blob_bytes blob)
           = Some ({| wav_channels := 1; wav_sampleRate := 24000;
                      wav_byteRate := 48000; wav_blockAlign := 2;
                      wav_bitsPerSample := 16 |}, pcm)).
Proof.
  split; [apply pcmToWav_bytes|]. split; [apply wavHeader_length|].
  intros Hfit. eexists. split.
  - unfold generateSpeechWav. apply pcmToWav_bytes.
  - cbn [blob_bytes]. apply (decodeWav_header pcm 24000); lia.
Qed.

Lemma pcmToWav_layout_roundtrip_witness :
  exists blob,
    generateSpeechWav [Byte.x01; Byte.xff; Byte.x00; Byte.x80] = Some blob
    /\ decodeWav (blob_bytes blob)
       = Some ({| wav_channels := 1; wav_sampleRate := 24000;
                  wav_byteRate := 48000; wav_blockAlign := 2;
                  wav_bitsPerSample := 16 |},
               [Byte.x01; Byte.xff; Byte.x00; Byte.x80]).
Proof.
  apply (proj2 (proj2 (pcmToWav_layout_roundtrip
                         [Byte.x01; Byte.xff; Byte.x00; Byte.x80] 24000))).
  vm_compute. reflexivity.
Defined.
End WavClaims.


(* ===================================================================== *)
(** * Properties of the buffer trimmer                                    *)
(* ===================================================================== *)

Section Trimmer.
Import DubbingStudio.
Local Open Scope nat_scope.

Lemma exceeds_default : exceeds 0%Q = false.
Proof. reflexivity. Qed.

Lemma scanForward_None i d :
  scanForward i d = None <-> Forall quiet d.
Proof.
  revert i. induction d as [|x d IH]; intros i; simpl.
  - split; [constructor | reflexivity].
  - destruct (exceeds x) eqn:Ex.
    + split; [discriminate|]. intros H. inversion H; congruence.
    + rewrite IH. split; [by constructor | by inversion 1].
Qed.

Lemma scanForward_Some i d j :
  scanForward i d = Some j ->
  i <= j /\ j - i < length d /\ exceeds (nth (j - i) d 0%Q) = true.
Proof.
  revert i. induction d as [|x d IH]; intros i; simpl; [discriminate|].
  destruct (exceeds x) eqn:Ex.
  - intros [= <-]. rewrite Nat.sub_diag. repeat split; [lia | lia | done].
  - intros H. apply IH in H as (H1 & H2 & H3).
    replace (j - i) with (S (j - S i)) by lia.
    repeat split; [lia | lia | done].
Qed.

Lemma quiet_nth d k :
  Forall quiet d -> exceeds (nth k d 0%Q) = false.
Proof.
  intros H. revert k. induction H as [|x d Hx _ IH]; intros [|k]; simpl;
    auto using exceeds_default.
Qed.

Lemma scanBackward_Some d i e :
  scanBackward d i = Some e ->
  1 <= e <= i /\ exceeds (nth (e - 1) d 0%Q) = true.
Proof.
  induction i as [|i IH]; simpl; [discriminate|].
  destruct (exceeds (nth i d 0%Q)) eqn:Ex.
  - intros [= <-]. simpl. rewrite Nat.sub_0_r. split; [lia | done].
  - intros H. apply IH in H as [H1 H2]. split; [lia | done].
Qed.

Lemma scanBackward_finds d i k :
  k < i -> exceeds (nth k d 0%Q) = true ->
  exists e, scanBackward d i = Some e /\ k < e.
Proof.
  induction i as [|i IH]; intros Hk Hx; [lia|]. simpl.
  destruct (exceeds (nth i d 0%Q)) eqn:Ex.
  - exists (S i). split; [done | lia].
  - assert (k <> i) by congruence.
    destruct IH as (e & He & Hlt); [lia | done |]. eauto.
Qed.

Lemma scanBackward_quiet d i :
  Forall quiet d -> scanBackward d i = None.
Proof.
  intros H. induction i as [|i IH]; simpl; [done|].
  by rewrite (quiet_nth d i H).
Qed.

Lemma length_copyRange s n d : length (copyRange s n d) = n.
Proof. unfold copyRange. by rewrite length_fmap, length_seq. Qed.

Lemma nth_copyRange s n d k :
  k < n -> nth k (copyRange s n d) 0%Q = nth (s + k) d 0%Q.
Proof.
  intros Hk. unfold copyRange.
  rewrite (nth_indep _ 0%Q ((fun i => nth (s + i) d 0%Q) 0)).
  - rewrite (map_nth (fun i => nth (s + i) d 0%Q)). by rewrite seq_nth.
  - by rewrite length_fmap, length_seq.
Qed.

Lemma copyRange_all d : copyRange 0 (length d) d = d.
Proof.
  apply (nth_ext _ _ 0%Q 0%Q).
  - apply length_copyRange.
  - intros k Hk. rewrite length_copyRange in Hk. by rewrite nth_copyRange.
Qed.

Lemma trimStart_quiet d : Forall quiet d -> trimStart d = 0.
Proof.
  intros H. unfold trimStart.
  by rewrite (proj2 (scanForward_None 0 d) H).
Qed.

Lemma trimEnd_quiet d : Forall quiet d -> trimEnd d = length d.
Proof. intros H. unfold trimEnd. by rewrite scanBackward_quiet. Qed.

(** A buffer whose bounds are already the whole of channel 0 is left as
    it is. *)
Lemma trim_whole b :
  wellFormed b ->
  trimStart (channel0 b) = 0 -> trimEnd (channel0 b) = bufferLength b ->
  trimAudioBuffer b = b.
Proof.
  intros Hwf Hs He. unfold trimAudioBuffer. cbv zeta.
  rewrite Hs, He. case_decide as Hd; [done|].
  rewrite Nat.sub_0_r. clear Hs He Hd.
  destruct b as [r c0 cs]. unfold wellFormed, bufferLength in *.
  simpl in *. f_equal.
  - apply copyRange_all.
  - induction Hwf as [|c cs Hc _ IH]; simpl; [done|].
    f_equal; [| exact IH]. rewrite <- Hc. apply copyRange_all.
Qed.

(** The bounds found on channel 0: either no sample is over the
    threshold and the bounds are the whole channel, or the first and the
    last sample over it delimit a non-empty range. *)
Lemma trim_bounds d :
  (Forall quiet d /\ trimStart d = 0 /\ trimEnd d = length d)
  \/ (trimStart d < trimEnd d <= length d
      /\ exceeds (nth (trimStart d) d 0%Q) = true
      /\ exceeds (nth (trimEnd d - 1) d 0%Q) = true).
Proof.
  unfold trimStart, trimEnd.
  destruct (scanForward 0 d) as [s|] eqn:Es.
  - right. apply scanForward_Some in Es as (_ & Hs & Hx).
    rewrite Nat.sub_0_r in Hs, Hx.
    destruct (scanBackward_finds d (length d) s Hs Hx) as (e & He & Hlt).
    rewrite He. simpl. apply scanBackward_Some in He as [He1 He2].
    repeat split; [lia | lia | done | done].
  - left. apply scanForward_None in Es.
    rewrite scanBackward_quiet by done. done.
Qed.

(** What the copy branch builds: a well-formed buffer whose channel 0
    begins and ends with a sample over the threshold, or is wholly
    quiet. *)
Lemma trim_copy_whole b s e :
  s < e -> e <= bufferLength b ->
  (Forall quiet (channel0 b) /\ s = 0 /\ e = bufferLength b)
  \/ (exceeds (nth s (channel0 b) 0%Q) = true
      /\ exceeds (nth (e - 1) (channel0 b) 0%Q) = true) ->
  let b' := {| sampleRate := sampleRate b;
               channel0 := copyRange s (e - s) (channel0 b);
               otherChannels := copyRange s (e - s) <$> otherChannels b |} in
  wellFormed b' /\ trimStart (channel0 b') = 0
  /\ trimEnd (channel0 b') = bufferLength b'.
Proof.
  intros Hse He Hcase b'. split; [|split].
  - unfold wellFormed, bufferLength, b'; simpl.
    rewrite length_copyRange. apply Forall_fmap, Forall_true.
    intros c. simpl. apply length_copyRange.
  - destruct Hcase as [(Hq & -> & ->) | [Hs _]].
    + simpl. rewrite Nat.sub_0_r. unfold bufferLength.
      rewrite copyRange_all. by apply trimStart_quiet.
    + unfold trimStart, b'; simpl.
      destruct (e - s) as [|n] eqn:En; [lia|].
      unfold copyRange; simpl. rewrite Nat.add_0_r, Hs. done.
  - unfold bufferLength, b'; simpl. rewrite length_copyRange.
    destruct Hcase as [(Hq & -> & ->) | [_ Hl]].
    + rewrite Nat.sub_0_r. unfold bufferLength.
      rewrite copyRange_all. by apply trimEnd_quiet.
    + unfold trimEnd. rewrite length_copyRange.
      destruct (e - s) as [|n] eqn:En; [lia|].
      cbn [scanBackward]. rewrite nth_copyRange by lia.
      replace (s + n) with (e - 1) by lia. by rewrite Hl.
Qed.

Lemma trimAudioBuffer_idempotent b :
  trimAudioBuffer (trimAudioBuffer b) = trimAudioBuffer b.
Proof.
  unfold trimAudioBuffer at 2 3. cbv zeta.
  case_decide as Hd.
  - unfold trimAudioBuffer. cbv zeta. by rewrite decide_True.
  - pose proof (trim_bounds (channel0 b)) as Hb.
    destruct (trim_copy_whole b (trimStart (channel0 b))
                (trimEnd (channel0 b))) as (Hwf & Hs & He).
    + lia.
    + destruct Hb as [(_ & _ & ->) | ((_ & H) & _)]; [done | exact H].
    + destruct Hb as [(Hq & H1 & H2) | (_ & H1 & H2)]; [left | right]; done.
    + apply trim_whole; assumption.
Qed.

(** Trimming keeps the sample rate and the number of channels. *)
Lemma trimAudioBuffer_format b :
  sampleRate (trimAudioBuffer b) = sampleRate b
  /\ numberOfChannels (trimAudioBuffer b) = numberOfChannels b.
Proof.
  unfold trimAudioBuffer, numberOfChannels. cbv zeta.
  case_decide; simpl; [done|]. by rewrite length_fmap.
Qed.
End Trimmer.


Section TrimmerClaims.
Import DubbingStudio.
Local Open Scope nat_scope.

(** C7.  Trimming is idempotent: for every audio buffer [b],
    [trim (trim b) = trim b].  When some channel-0 sample of [b] is over
    the 0.02 threshold, the first and the last channel-0 sample of the
    trimmed buffer are over it, which is why a second trim finds nothing
    to remove. *)
Theorem trim_idempotent (b : AudioBuffer) :
  trimAudioBuffer (trimAudioBuffer b) = trimAudioBuffer b
  /\ (Exists (fun x => exceeds x = true) (channel0 b) ->
      let t := trimAudioBuffer b in
      exceeds (nth 0 (channel0 t) 0%Q) = true
      /\ exceeds (nth (bufferLength t - 1) (channel0 t) 0%Q) = true).
Proof.
  split; [apply trimAudioBuffer_idempotent|].
  intros Hex t. subst t. unfold trimAudioBuffer. cbv zeta.
  destruct (trim_bounds (channel0 b)) as [(Hq & _) | (Hse & Hs & He)].
  - exfalso. apply Exists_exists in Hex as (x & Hx & Hloud).
    rewrite Forall_forall in Hq. specialize (Hq x Hx). simpl in Hq.
    congruence.
  - rewrite decide_False by lia. unfold bufferLength. simpl.
    rewrite length_copyRange, !nth_copyRange by lia.
    rewrite Nat.add_0_r, Hs.
    replace (trimStart (channel0 b)
             + (trimEnd (channel0 b) - trimStart (channel0 b) - 1))
      with (trimEnd (channel0 b) - 1) by lia.
    by rewrite He.
Qed.

Lemma trim_idempotent_witness :
  let b := {| sampleRate := 24000;
              channel0 := [0.01; 0.5; -0.3; 0.02; 0]%Q;
              otherChannels := [[0; 0.1; 0.2; 0.3; 0.4]%Q] |} in
  let t := trimAudioBuffer b in
  exceeds (nth 0 (channel0 t) 0%Q) = true
  /\ exceeds (nth (bufferLength t - 1) (channel0 t) 0%Q) = true.
Proof.
  intros b.
  apply (proj2 (trim_idempotent b)).
  apply Exists_cons_tl, Exists_cons_hd. reflexivity.
Defined.

(** C8.  A buffer none of whose channel-0 samples is over the 0.02
    threshold comes back unmodified, and so does any buffer for which the
    computed end is not after the computed start; a buffer that holds
    samples is never trimmed to an empty one. *)
Theorem trim_quiet_unchanged (b : AudioBuffer) :
  (wellFormed b -> Forall (fun x => exceeds x = false) (channel0 b) ->
   trimAudioBuffer b = b)
  /\ (trimEnd (channel0 b) <= trimStart (channel0 b) ->
      trimAudioBuffer b = b)
  /\ (0 < bufferLength b -> 0 < bufferLength (trimAudioBuffer b)).
Proof.
  split; [|split].
  - intros Hwf Hq. apply trim_whole; [done | |].
    + by apply trimStart_quiet.
    + by apply trimEnd_quiet.
  - intros Hle. unfold trimAudioBuffer. cbv zeta. by rewrite decide_True.
  - intros Hpos. unfold trimAudioBuffer. cbv zeta.
    case_decide as Hd; [done|].
    unfold bufferLength. simpl. rewrite length_copyRange. lia.
Qed.

Lemma trim_quiet_unchanged_witness :
  let quietBuffer := {| sampleRate := 24000;
                        channel0 := [0.01; -0.02; 0]%Q;
                        otherChannels := [[0.5; 0.5; 0.5]%Q] |} in
  let emptyBuffer := {| sampleRate := 24000; channel0 := [];
                        otherChannels := [] |} in
  trimAudioBuffer quietBuffer = quietBuffer
  /\ trimAudioBuffer emptyBuffer = emptyBuffer
  /\ 0 < bufferLength (trimAudioBuffer quietBuffer).
Proof.
  intros quietBuffer emptyBuffer. split; [|split].
  - apply (proj1 (trim_quiet_unchanged quietBuffer)).
    + repeat constructor.
    + repeat constructor.
  - apply (proj1 (proj2 (trim_quiet_unchanged emptyBuffer))).
    vm_compute. constructor.
  - apply (proj2 (proj2 (trim_quiet_unchanged quietBuffer))).
    vm_compute. lia.
Defined.
End TrimmerClaims.


(* ===================================================================== *)
(** * Properties of the scheduler                                         *)
(* ===================================================================== *)

Section Scheduler.
Import Types DubbingStudio.
Local Open Scope Q_scope.

Lemma duration_nonneg b : 0 <= duration b.
Proof.
  unfold duration, Qle. simpl. lia.
Qed.

(** One call of [scheduleSegment] on a ready engine. *)
Lemma scheduleSegment_ready seg anchor st ctx g b :
  audioContextRef st = Some ctx -> masterDestNodeRef st = true ->
  monitorGainNodeRef st = Some g ->
  audioBuffersRef st !! id seg = Some b ->
  let safe := Qmax (startTime seg) (lastSegmentEndTimeRef st + 0.1) in
  scheduleSegment seg anchor st
  = startSource (id seg) b (currentTime ctx + Qmax 0 (safe - anchor))
      (setLastSegmentEndTimeRef (safe + duration b) st).
Proof.
  intros Hc Hm Hg Hb. unfold scheduleSegment.
  by rewrite Hb, Hc, Hm, Hg.
Qed.

Lemma scheduleSegment_skip seg anchor st :
  audioBuffersRef st !! id seg = None ->
  scheduleSegment seg anchor st = st.
Proof. intros Hb. unfold scheduleSegment. by rewrite Hb. Qed.

Lemma passFrame_refl st : passFrame st st.
Proof. repeat split. Qed.

Lemma passFrame_trans st1 st2 st3 :
  passFrame st1 st2 -> passFrame st2 st3 -> passFrame st1 st3.
Proof.
  unfold passFrame. intros H1 H2.
  destruct H1 as (?&?&?&?&?&?&?&?&?&?&?&?).
  destruct H2 as (?&?&?&?&?&?&?&?&?&?&?&?).
  repeat split; congruence.
Qed.

Lemma scheduleSegment_frame seg anchor st :
  passFrame st (scheduleSegment seg anchor st).
Proof.
  unfold scheduleSegment.
  destruct (audioBuffersRef st !! id seg); [|apply passFrame_refl].
  destruct (audioContextRef st); [|apply passFrame_refl].
  destruct (masterDestNodeRef st); [|apply passFrame_refl].
  destruct (monitorGainNodeRef st); [|apply passFrame_refl].
  repeat split.
Qed.

Lemma pass_frame l : forall st,
  passFrame st (foldl (fun st seg => scheduleSegment seg 0 st) st l).
Proof.
  induction l as [|seg l IH]; intros st; simpl.
  - apply passFrame_refl.
  - eapply passFrame_trans; [apply scheduleSegment_frame | apply IH].
Qed.

(** The nodes a run of the scheduling loop appends, and the cursor it
    leaves, in terms of the recurrence on the clips. *)
Lemma pass_spec l : forall st ctx g,
  audioContextRef st = Some ctx -> masterDestNodeRef st = true ->
  monitorGainNodeRef st = Some g ->
  let st' := foldl (fun st seg => scheduleSegment seg 0 st) st l in
  let clips := clipsOf (audioBuffersRef st) l in
  exists news,
    sourceNodes st' = sourceNodes st ++ news
    /\ source_buffer <$> news = clipBuffers (audioBuffersRef st) l
    /\ source_when <$> news
       = (fun safe => currentTime ctx + Qmax 0 (safe - 0))
           <$> safeTimes (lastSegmentEndTimeRef st) clips
    /\ Forall (fun n => source_stopped n = false) news
    /\ lastSegmentEndTimeRef st'
       = finalCursor (lastSegmentEndTimeRef st) clips
    /\ (fun n => (source_when n, duration (source_buffer n))) <$> news
       = (fun '(safe, (_, dur)) => (currentTime ctx + Qmax 0 (safe - 0), dur))
           <$> zip (safeTimes (lastSegmentEndTimeRef st) clips) clips.
Proof.
  induction l as [|seg l IH]; intros st ctx g Hc Hm Hg; simpl.
  - exists []. by rewrite app_nil_r.
  - destruct (audioBuffersRef st !! id seg) as [b|] eqn:Hb.
    + rewrite (scheduleSegment_ready seg 0 st ctx g b) by done.
      cbv zeta.
      set (safe := Qmax (startTime seg) (lastSegmentEndTimeRef st + 0.1)).
      set (st1 := startSource _ _ _ _).
      destruct (IH st1 ctx g) as (news & E1 & E2 & E3 & E4 & E5 & E6);
        [done | done | done |].
      change (audioBuffersRef st1) with (audioBuffersRef st) in *.
      change (lastSegmentEndTimeRef st1) with (safe + duration b) in *.
      change (sourceNodes st1)
        with (sourceNodes st
              ++ [ {| source_buffer := b;
                      source_when := currentTime ctx + Qmax 0 (safe - 0);
                      source_stopped := false |} ]) in E1.
      eexists (_ :: news). rewrite E1, <- app_assoc. simpl.
      split; [reflexivity|]. simpl.
      split; [f_equal; exact E2|].
      split; [f_equal; exact E3|].
      split; [by constructor|].
      split; [exact E5 | f_equal; exact E6].
    + rewrite scheduleSegment_skip by done.
      destruct (IH st ctx g) as (news & E1 & E2 & E3 & E4 & E5 & E6);
        [done | done | done |].
      exists news. done.
Qed.

(** On a clip list laid out from a non-negative cursor every safe time is
    positive, so the delay given to [start] is the safe time itself. *)
Lemma safeTimes_gapped now : forall clips cursor (nodes : list AudioBufferSourceNode),
  0 <= cursor ->
  (fun n => (source_when n, duration (source_buffer n))) <$> nodes
  = (fun '(safe, (_, dur)) => (now + Qmax 0 (safe - 0), dur))
      <$> zip (safeTimes cursor clips) clips ->
  gapped nodes
  /\ (forall n, head nodes = Some n -> now + cursor + 0.1 <= source_when n).
Proof.
  induction clips as [|[start dur] clips IH]; intros cursor nodes Hc Hn.
  - destruct nodes; [|discriminate]. split; [|done].
    intros i n m Hi. by rewrite lookup_nil in Hi.
  - destruct nodes as [|n nodes]; [discriminate|].
    simpl in Hn. injection Hn as Hw Hd Hrest.
    set (safe := Qmax start (cursor + 0.1)) in *.
    assert (Hsafe : cursor + 0.1 <= safe) by apply Q.le_max_r.
    assert (Hmax : Qmax 0 (safe - 0) == safe).
    { rewrite Q.max_r; lra. }
    destruct (IH (safe + dur) nodes) as [Hg Hh].
    + pose proof (duration_nonneg (source_buffer n)). rewrite Hd in H. lra.
    + exact Hrest.
    + split.
      * intros [|i] x y Hx Hy; simpl in *.
        -- injection Hx as <-. rewrite Hw, Hd, Hmax.
           specialize (Hh y). destruct nodes; [discriminate|].
           simpl in Hy. injection Hy as ->. specialize (Hh eq_refl). lra.
        -- by apply (Hg i).
      * intros x [= <-]. rewrite Hw, Hmax. lra.
Qed.

Lemma scheduleAll_frame st : passFrame st (scheduleAll st).
Proof.
  unfold scheduleAll. cbv zeta.
  apply (passFrame_trans _ (setLastSegmentEndTimeRef 0 st));
    [repeat split | apply pass_frame].
Qed.

(** The sort: a permutation of its input, in ascending start time, with
    segments of equal start time kept in their order. *)
Lemma insertByStartTime_perm a l : insertByStartTime a l ≡ₚ a :: l.
Proof.
  induction l as [|b l IH]; simpl; [done|].
  destruct (Qle_bool (startTime a) (startTime b)); [done|].
  rewrite IH. apply Permutation_swap.
Qed.

Lemma sortByStartTime_perm l : sortByStartTime l ≡ₚ l.
Proof.
  induction l as [|a l IH]; simpl; [done|].
  rewrite insertByStartTime_perm. by rewrite IH.
Qed.

Lemma insertByStartTime_sorted a l :
  StronglySorted (fun x y => startTime x <= startTime y) l ->
  StronglySorted (fun x y => startTime x <= startTime y)
                 (insertByStartTime a l).
Proof.
  induction 1 as [|b l Hs IH Hb]; simpl.
  - repeat constructor.
  - destruct (Qle_bool (startTime a) (startTime b)) eqn:Hab.
    + apply Qle_bool_iff in Hab. constructor.
      * by constructor.
      * constructor; [done|].
        eapply Forall_impl; [exact Hb|]. simpl. intros c Hc. lra.
    + assert (Hba : startTime b <= startTime a).
      { destruct (Qlt_le_dec (startTime b) (startTime a)) as [H|H].
        - lra.
        - apply Qle_bool_iff in H. congruence. }
      constructor; [exact IH|].
      rewrite insertByStartTime_perm. by constructor.
Qed.

Lemma sortByStartTime_sorted l :
  StronglySorted (fun x y => startTime x <= startTime y) (sortByStartTime l).
Proof.
  induction l as [|a l IH]; simpl; [constructor|].
  by apply insertByStartTime_sorted.
Qed.

Lemma clipBuffers_length bufs l :
  (forall s, s ∈ l -> is_Some (bufs !! id s)) ->
  length (clipBuffers bufs l) = length l.
Proof.
  induction l as [|s l IH]; intros H; simpl; [done|].
  destruct (H s) as [b Hb]; [by left|].
  unfold clipBuffers in *. simpl. rewrite Hb. simpl. f_equal.
  apply IH. intros s' Hs'. apply H. by right.
Qed.

(** The pass of [playFullPreview] and [handleExport] on a ready engine. *)
Lemma scheduleAll_spec st ctx g :
  audioContextRef st = Some ctx -> masterDestNodeRef st = true ->
  monitorGainNodeRef st = Some g ->
  let sorted := sortByStartTime (segments st) in
  let clips := clipsOf (audioBuffersRef st) sorted in
  exists news,
    sourceNodes (scheduleAll st) = sourceNodes st ++ news
    /\ source_buffer <$> news = clipBuffers (audioBuffersRef st) sorted
    /\ source_when <$> news
       = (fun safe => currentTime ctx + Qmax 0 (safe - 0))
           <$> safeTimes 0 clips
    /\ Forall (fun n => source_stopped n = false) news
    /\ lastSegmentEndTimeRef (scheduleAll st) = finalCursor 0 clips
    /\ gapped news.
Proof.
  intros Hc Hm Hg sorted clips. unfold scheduleAll.
  destruct (pass_spec sorted (setLastSegmentEndTimeRef 0 st) ctx g)
    as (news & E1 & E2 & E3 & E4 & E5 & E6); [done | done | done |].
  exists news. repeat split; try done.
  eapply (safeTimes_gapped (currentTime ctx)); [|exact E6].
  simpl. lra.
Qed.
End Scheduler.


Section SchedulerClaims.
Import Types DubbingStudio.
Local Open Scope Q_scope.

(** C1 (as amended).  In a scheduling pass from anchor 0 with the cursor
    reset to 0, the segments are taken in ascending start time and each
    segment that has a buffer gets the safe play time
    [max (its start time) (cursor + 0.1)], where the cursor is 0 for the
    first such segment and afterwards the previous safe play time plus
    the previous buffer's duration; the clip is started at the engine time
    of the pass plus that safe time.  For start times 0.0, 1.0, 1.05 and
    durations 1.2, 0.3, 0.5 the safe play times are 0.1, 1.4, 1.8. *)
Theorem pass_safe_play_times (st : Studio) (ctx : AudioContext) (g : Q) :
  audioContextRef st = Some ctx -> masterDestNodeRef st = true ->
  monitorGainNodeRef st = Some g ->
  let sorted := sortByStartTime (segments st) in
  let clips := clipsOf (audioBuffersRef st) sorted in
  StronglySorted (fun a b => startTime a <= startTime b) sorted
  /\ sorted ≡ₚ segments st
  /\ (exists news,
        sourceNodes (scheduleAll st) = sourceNodes st ++ news
        /\ source_buffer <$> news = clipBuffers (audioBuffersRef st) sorted
        /\ source_when <$> news
           = (fun safe => currentTime ctx + Qmax 0 (safe - 0))
               <$> safeTimes 0 clips)
  /\ lastSegmentEndTimeRef (scheduleAll st) = finalCursor 0 clips
  /\ (forall cursor start dur rest,
        safeTimes cursor ((start, dur) :: rest)
        = Qmax start (cursor + 0.1)
            :: safeTimes (Qmax start (cursor + 0.1) + dur) rest)
  /\ Forall2 Qeq (safeTimes 0 [(0.0, 1.2); (1.0, 0.3); (1.05, 0.5)])
                 [0.1; 1.4; 1.8].
Proof.
  intros Hc Hm Hg sorted clips.
  split; [apply sortByStartTime_sorted|].
  split; [apply sortByStartTime_perm|].
  destruct (scheduleAll_spec st ctx g Hc Hm Hg)
    as (news & E1 & E2 & E3 & _ & E5 & _).
  split; [by exists news|]. split; [exact E5|]. split; [reflexivity|].
  repeat (constructor; [vm_compute; reflexivity|]). constructor.
Qed.

Lemma pass_safe_play_times_witness :
  Forall2 Qeq (source_when <$> sourceNodes (scheduleAll scenarioStudio))
              [0.1; 1.4; 1.8]
  /\ lastSegmentEndTimeRef (scheduleAll scenarioStudio) == 2.3.
Proof.
  destruct (pass_safe_play_times scenarioStudio
              {| ctx_state := Running; currentTime := 0 |} 1
              eq_refl eq_refl eq_refl)
    as (_ & _ & (news & E1 & _ & E3) & E5 & _).
  rewrite E1, E5. change (sourceNodes scenarioStudio) with
    (@nil AudioBufferSourceNode). rewrite app_nil_l, E3. split.
  - vm_compute. repeat (constructor; [reflexivity|]). constructor.
  - vm_compute. reflexivity.
Defined.

(** C1 as first worded, on its own scenario run through the preview
    entry point: the clips do not start at 0.0, 1.3 and 1.6 (the first
    one starts at 0.1). *)
Lemma preview_scenario_not_as_claimed :
  ~ Forall2 Qeq
      (source_when <$> sourceNodes (playFullPreview scenarioStudio))
      [0.0; 1.3; 1.6].
Proof.
  vm_compute. intros H. inversion H as [|x y l l' Hxy _]; subst.
  discriminate Hxy.
Qed.

(** C3.  In a scheduling pass (cursor reset to 0, segments taken in
    ascending start time, anchor 0) every segment with a buffer gets a
    clip, and each clip starts at least 0.1 s after the previous clip has
    played to its end: no two clips overlap. *)
Theorem pass_clips_never_overlap (st : Studio) (ctx : AudioContext) (g : Q) :
  audioContextRef st = Some ctx -> masterDestNodeRef st = true ->
  monitorGainNodeRef st = Some g ->
  exists news,
    sourceNodes (scheduleAll st) = sourceNodes st ++ news
    /\ source_buffer <$> news
       = clipBuffers (audioBuffersRef st) (sortByStartTime (segments st))
    /\ ((forall s, s ∈ segments st -> is_Some (audioBuffersRef st !! id s)) ->
        length news = length (segments st))
    /\ forall i n m,
         news !! i = Some n -> news !! S i = Some m ->
         source_when n + duration (source_buffer n) + 0.1 <= source_when m.
Proof.
  intros Hc Hm Hg.
  destruct (scheduleAll_spec st ctx g Hc Hm Hg)
    as (news & E1 & E2 & _ & _ & _ & Hgap).
  exists news. repeat split; try done.
  intros Hall. rewrite <- (length_fmap source_buffer), E2.
  rewrite clipBuffers_length.
  - by rewrite sortByStartTime_perm.
  - intros s Hs. apply Hall. by rewrite <- (sortByStartTime_perm (segments st)).
Qed.

Lemma pass_clips_never_overlap_witness :
  exists news,
    sourceNodes (scheduleAll scenarioStudio)
    = sourceNodes scenarioStudio ++ news
    /\ length news = 3%nat
    /\ forall i n m,
         news !! i = Some n -> news !! S i = Some m ->
         source_when n + duration (source_buffer n) + 0.1 <= source_when m.
Proof.
  destruct (pass_clips_never_overlap scenarioStudio
              {| ctx_state := Running; currentTime := 0 |} 1
              eq_refl eq_refl eq_refl)
    as (news & E1 & _ & Hlen & Hgap).
  exists news. split; [exact E1|]. split; [|exact Hgap].
  apply Hlen. intros s Hs.
  unfold scenarioStudio in Hs. cbn [segments] in Hs.
  repeat (apply elem_of_cons in Hs as [-> | Hs]; [vm_compute; eauto|]).
  by apply elem_of_nil in Hs.
Defined.
End SchedulerClaims.


(* ===================================================================== *)
(** * Properties of the export                                            *)
(* ===================================================================== *)

Section ExportLemmas.
Import Types DubbingStudio.
Local Open Scope Q_scope.

Lemma Qgtb_true a b : b < a -> Qgtb a b = true.
Proof.
  intros H. unfold Qgtb. destruct (Qle_bool a b) eqn:E; [|done].
  apply Qle_bool_iff in E. lra.
Qed.

Lemma Qgtb_false a b : a <= b -> Qgtb a b = false.
Proof.
  intros H. unfold Qgtb. apply Qle_bool_iff in H. by rewrite H.
Qed.

(** Stopping a recording recorder hands one file to the user. *)
Lemma recorderStop_effect st :
  recorder (recorderStop st) = Some Inactive
  /\ downloads (recorderStop st) = S (downloads st)
  /\ timers (recorderStop st) = timers st
  /\ status (recorderStop st) = COMPLETED.
Proof.
  destruct st as [? ? ? ? ? ? ? ? ? g ? ? ? ? ? ? ? ? ?].
  unfold recorderStop, setMonitorGain. simpl.
  destruct g; repeat split.
Qed.

Lemma stopRecorderNow_recording st :
  recorder st = Some Recording ->
  recorder (stopRecorderNow st) = Some Inactive
  /\ downloads (stopRecorderNow st) = S (downloads st)
  /\ timers (stopRecorderNow st) = timers st.
Proof.
  destruct st as [? ? ? ? ? ? ? ? ? g ? ? ? ? ? r ? ? ?].
  simpl. intros ->.
  unfold stopRecorderNow, recorderStop, setMonitorGain. simpl.
  destruct g; repeat split.
Qed.

(** The state in which the [onended] handler runs: the element has paused
    itself, nothing else has changed. *)
Lemma videoPause_frame st :
  recorder (videoPause st) = recorder st
  /\ downloads (videoPause st) = downloads st
  /\ timers (videoPause st) = timers st
  /\ forall v, videoRef st = Some v ->
       exists v', videoRef (videoPause st) = Some v'
                  /\ onended v' = onended v
                  /\ video_duration v' = video_duration v.
Proof.
  unfold videoPause. destruct (videoRef st) as [v|] eqn:Hv.
  - destruct (paused v) eqn:Hp; simpl.
    + repeat split. intros v0 [= <-]. rewrite Hv. eauto.
    + repeat split. intros v0 [= <-]. eauto.
  - repeat split. intros v0 Hv0. discriminate.
Qed.

Lemma synthesisFrame_refl st : synthesisFrame st st.
Proof. repeat split; auto. Qed.

Lemma synthesisFrame_trans st1 st2 st3 :
  synthesisFrame st1 st2 -> synthesisFrame st2 st3 -> synthesisFrame st1 st3.
Proof.
  unfold synthesisFrame. intros H1 H2.
  destruct H1 as (?&?&?&?&?&?&?&?&?&?&?).
  destruct H2 as (?&?&?&?&?&?&?&?&?&?&?).
  repeat split; try congruence. auto.
Qed.

Lemma initAudioContext_frame st :
  is_Some (audioContextRef st) -> synthesisFrame st (initAudioContext st).
Proof.
  intros [ctx Hc]. unfold initAudioContext, resume. rewrite Hc.
  destruct (ctx_state ctx); [apply synthesisFrame_refl|].
  repeat split; simpl; eauto.
Qed.

Lemma synthesizeOne_frame synth spk voice seg st :
  synthesisFrame st (synthesizeOne synth spk voice (fun st => st) seg st).
Proof.
  unfold synthesizeOne. cbv zeta.
  destruct (synth _ _) as [[url buf]|]; [|repeat split; auto].
  simpl. destruct (audioContextRef st); repeat split; auto.
Qed.

Lemma ensureSynthesized_frame synth st :
  is_Some (audioContextRef st) ->
  synthesisFrame st (ensureSynthesized synth st).
Proof.
  intros Hc. unfold ensureSynthesized. cbv zeta.
  destruct (missingAudioIds st) as [|i missing] eqn:Hm;
    [apply synthesisFrame_refl|].
  generalize (i :: missing). clear Hm. intros todo.
  apply (synthesisFrame_trans _ (initAudioContext (setStatus SYNTHESIZING st))).
  { apply (synthesisFrame_trans _ (setStatus SYNTHESIZING st));
      [repeat split; auto | apply initAudioContext_frame; exact Hc]. }
  generalize (initAudioContext (setStatus SYNTHESIZING st)). clear Hc.
  generalize (segments st), (speakerMap st), (defaultVoice st).
  intros segs spk voice.
  induction todo as [|ident todo IH]; intros st0; simpl.
  - apply synthesisFrame_refl.
  - eapply synthesisFrame_trans; [|apply IH].
    destruct (findSegment ident segs);
      [apply synthesizeOne_frame | apply synthesisFrame_refl].
Qed.


(** [handleExport] up to the capture check. *)
Lemma handleExport_at_check synth st v ctx s rest :
  videoRef st = Some v -> audioContextRef st = Some ctx ->
  masterDestNodeRef st = true -> segments st = s :: rest ->
  let st3 := exportPrepared synth st in
  videoRef st3 = Some v
  /\ is_Some (audioContextRef st3)
  /\ masterDestNodeRef st3 = true
  /\ monitorGainNodeRef st3 = monitorGainNodeRef st
  /\ recorder st3 = recorder st /\ downloads st3 = downloads st
  /\ alerts st3 = alerts st
  /\ lastSegmentEndTimeRef st3 = lastSegmentEndTimeRef st
  /\ handleExport synth st
     = if captureStream v || mozCaptureStream v then
         let st5 :=
           scheduleAll
             (updateVideo (fun v => setMuted false (setVideoCurrentTime 0 v))
                (setMonitorGain 0 st3)) in
         updateVideo (setOnended (Some (lastSegmentEndTimeRef st5)))
           (videoPlay (setRecorder (Some Recording) st5))
       else
         setStatus COMPLETED
           (setAlerts (alerts st3 ++ ["Browser capture not supported."]) st3).
Proof.
  intros Hv Hc Hm Hs st3. subst st3. unfold exportPrepared, handleExport.
  rewrite Hv, Hc, Hs. cbv zeta.
  destruct (ensureSynthesized_frame synth st) as
    (Fv & Fc & Fm & Fg & Fn & Fa & Fl & Fr & Ft & Fd & Fal); [by eauto|].
  destruct Fc as [c1 Hc1]; [by eauto|].
  rewrite Hv in Fv. rewrite Hm in Fm. clear Hs Hc Hv Hm Fn Fa Ft.
  generalize dependent (ensureSynthesized synth st). intros E.
  destruct E as [? ? ? ? ? ? ? ? ? ? ? ? ? ? ? ? ? ? ?].
  destruct st as [? ? ? ? ? ? ? ? ? ? ? ? ? ? ? ? ? ? ?].
  simpl. intros -> -> -> -> -> -> -> ->.
  unfold initAudioContext, resume. simpl.
  destruct (ctx_state c1); simpl; repeat (split; [by eauto|]); reflexivity.
Qed.

(** The capture-unsupported branch: a message, no recorder, no file, and
    the status [COMPLETED]. *)
Lemma handleExport_capture_unsupported synth st v ctx s rest :
  videoRef st = Some v -> audioContextRef st = Some ctx ->
  masterDestNodeRef st = true -> segments st = s :: rest ->
  captureStream v = false -> mozCaptureStream v = false ->
  status (handleExport synth st) = COMPLETED
  /\ alerts (handleExport synth st)
     = alerts st ++ ["Browser capture not supported."]
  /\ recorder (handleExport synth st) = recorder st
  /\ downloads (handleExport synth st) = downloads st
  /\ lastSegmentEndTimeRef (handleExport synth st) = lastSegmentEndTimeRef st.
Proof.
  intros Hv Hc Hm Hs Hcap Hmoz.
  destruct (handleExport_at_check synth st v ctx s rest Hv Hc Hm Hs)
    as (_ & _ & _ & _ & Hr & Hd & Ha & Hl & ->).
  rewrite Hcap, Hmoz. cbn [orb]. revert Hr Hd Ha Hl.
  generalize (exportPrepared synth st). intros E.
  destruct E as [? ? ? ? ? ? ? ? ? ? ? ? ? ? ? ? ? ? ?].
  simpl. by intros -> -> -> ->.
Qed.

(** The recording branch installs the handler with the cursor the pass
    has left. *)
Lemma handleExport_recording synth st v ctx s rest :
  videoRef st = Some v -> audioContextRef st = Some ctx ->
  masterDestNodeRef st = true -> segments st = s :: rest ->
  captureStream v || mozCaptureStream v = true ->
  let st' := handleExport synth st in
  exists v',
    videoRef st' = Some v'
    /\ onended v' = Some (lastSegmentEndTimeRef st')
    /\ video_duration v' = video_duration v
    /\ recorder st' = Some Recording
    /\ downloads st' = downloads st
    /\ lastSegmentEndTimeRef st'
       = lastSegmentEndTimeRef
           (scheduleAll
              (updateVideo (fun v => setMuted false (setVideoCurrentTime 0 v))
                 (setMonitorGain 0 (exportPrepared synth st)))).
Proof.
  intros Hv Hc Hm Hs Hcap st'. subst st'.
  destruct (handleExport_at_check synth st v ctx s rest Hv Hc Hm Hs)
    as (Pv & _ & _ & _ & _ & Pd & _ & _ & ->).
  rewrite Hcap. cbv zeta.
  set (st4 := updateVideo _ (setMonitorGain 0 (exportPrepared synth st))).
  assert (Hv4 : videoRef st4
                = Some (setMuted false (setVideoCurrentTime 0 v))
                /\ downloads st4 = downloads st).
  { subst st4. revert Pv Pd. generalize (exportPrepared synth st).
    intros E. destruct E as [? ? ? ? ? ? ? ? ? g ? ? ? ? ? ? ? ? ?].
    unfold updateVideo, setMonitorGain. simpl. intros -> ->.
    destruct g; done. }
  destruct Hv4 as [Hv4 Hd4].
  destruct (scheduleAll_frame st4)
    as (_ & _ & _ & Fv & _ & _ & _ & _ & _ & _ & Fd & _).
  rewrite Hv4 in Fv. rewrite Hd4 in Fd. clear Hv4 Hd4.
  clearbody st4. revert Fv Fd. generalize (scheduleAll st4). intros S5.
  destruct S5 as [? ? ? ? ? ? ? ? ? ? ? ? ? ? ? ? ? ? ?].
  simpl. intros -> ->. unfold videoPlay, updateVideo. simpl.
  destruct (paused v); simpl; eexists; repeat split.
Qed.
End ExportLemmas.


Section ExportClaims.
Import Types DubbingStudio.
Local Open Scope Q_scope.

(** C6.  An export that reaches the recording stage installs an [onended]
    handler holding the cursor left by its scheduling pass (the end of the
    assembled timeline).  When the video then ends while the recorder is
    recording: if that end exceeds the video duration, the recorder keeps
    recording and is stopped by a timeout of
    (end - duration) + 0.2 seconds (1.0 s for a duration of 10.0 s and an
    end of 10.8 s); otherwise it is stopped at once. *)
Theorem export_waits_for_tail :
  (forall synth st v ctx s rest,
     videoRef st = Some v -> audioContextRef st = Some ctx ->
     masterDestNodeRef st = true -> segments st = s :: rest ->
     captureStream v || mozCaptureStream v = true ->
     let st' := handleExport synth st in
     exists v',
       videoRef st' = Some v'
       /\ onended v' = Some (lastSegmentEndTimeRef st')
       /\ video_duration v' = video_duration v
       /\ recorder st' = Some Recording
       /\ lastSegmentEndTimeRef st'
          = lastSegmentEndTimeRef
              (scheduleAll
                 (updateVideo
                    (fun v => setMuted false (setVideoCurrentTime 0 v))
                    (setMonitorGain 0 (exportPrepared synth st)))))
  /\ (forall st v finalAudioEnd videoDuration,
        videoRef st = Some v -> onended v = Some finalAudioEnd ->
        video_duration v = Some videoDuration ->
        recorder st = Some Recording ->
        (videoDuration < finalAudioEnd ->
         recorder (videoEnded st) = Some Recording
         /\ downloads (videoEnded st) = downloads st
         /\ (exists delay,
               timers (videoEnded st)
               = timers st ++ [(delay, StopRecorderTimeout)]
               /\ delay == ((finalAudioEnd - videoDuration) + 0.2) * 1000
               /\ (videoDuration == 10.0 -> finalAudioEnd == 10.8 ->
                   delay == 1.0 * 1000))
         /\ recorder (stopRecorderTimeout (videoEnded st)) = Some Inactive
         /\ downloads (stopRecorderTimeout (videoEnded st))
            = S (downloads st))
        /\ (finalAudioEnd <= videoDuration ->
            recorder (videoEnded st) = Some Inactive
            /\ downloads (videoEnded st) = S (downloads st)
            /\ timers (videoEnded st) = timers st)).
Proof.
  split.
  - intros synth st v ctx s rest Hv Hc Hm Hs Hcap st'.
    destruct (handleExport_recording synth st v ctx s rest Hv Hc Hm Hs Hcap)
      as (v' & E1 & E2 & E3 & E4 & _ & E6).
    exists v'. auto.
  - intros st v fin d Hv Hon Hd Hr.
    destruct (videoPause_frame st) as (Pr & Pd & Pt & Pv).
    destruct (Pv v Hv) as (v' & Hv' & Hon' & Hd').
    rewrite Hon in Hon'. rewrite Hd in Hd'. rewrite <- Pr in Hr.
    unfold videoEnded. cbv zeta. rewrite Hv', Hon'.
    unfold onendedHandler. cbv zeta. rewrite Hv', Hd'.
    rewrite <- Pd, <- Pt. clear Pr Pd Pt Pv Hv Hon Hd.
    revert Hr Hv'. generalize (videoPause st). clear st. intros st.
    destruct st as [? ? ? ? ? ? ? vr ? g ? ? ? ? ? r ? ? ?].
    simpl. intros -> ->. split.
    + intros Hlt. rewrite Qgtb_true by lra.
      unfold addTimer, stopRecorderTimeout, stopRecorderNow, recorderStop,
        setMonitorGain. simpl.
      repeat split.
      * eexists. split; [reflexivity|]. split; [ring|].
        intros H1 H2. rewrite H1, H2. reflexivity.
      * by destruct g.
      * by destruct g.
    + intros Hle. rewrite Qgtb_false by lra.
      unfold stopRecorderNow, recorderStop, setMonitorGain. simpl.
      destruct g; repeat split.
Qed.

Lemma export_waits_for_tail_witness :
  (exists v',
     videoRef (handleExport scenarioSynthesize tailStudio) = Some v'
     /\ onended v'
        = Some (lastSegmentEndTimeRef
                  (handleExport scenarioSynthesize tailStudio))
     /\ recorder (handleExport scenarioSynthesize tailStudio)
        = Some Recording)
  /\ recorder (videoEnded exportedTailStudio) = Some Recording
  /\ (exists delay,
        timers (videoEnded exportedTailStudio)
        = [(delay, StopRecorderTimeout)]
        /\ delay == 1.0 * 1000)
  /\ downloads (stopRecorderTimeout (videoEnded exportedTailStudio)) = 1%nat.
Proof.
  split.
  - destruct (proj1 export_waits_for_tail scenarioSynthesize tailStudio
                loadedVideo {| ctx_state := Running; currentTime := 0 |}
                (analysedSegment "seg-0" 9.6 10.0 "one") [])
      as (v' & E1 & E2 & _ & E4 & _); try reflexivity.
    exists v'. auto.
  - destruct (proj2 export_waits_for_tail exportedTailStudio
                {| video_currentTime := 0; muted := false; paused := false;
                   video_duration := Some 10; captureStream := true;
                   mozCaptureStream := false;
                   onended := Some (108000 # 10000) |}
                (108000 # 10000) 10)
      as [Hlong _]; try reflexivity.
    destruct Hlong as (Hr & _ & (delay & Ht & _ & Hd) & _ & Hdl);
      [reflexivity|].
    split; [exact Hr|]. split; [|exact Hdl].
    exists delay. split; [exact Ht|]. apply Hd; reflexivity.
Defined.

(** C2 (the code departs from it).  With neither [captureStream] nor
    [mozCaptureStream] the export shows its message, creates no recorder
    and no file and leaves segments, buffers and cursor as they were, but
    the status it sets is [COMPLETED], not [ERROR]. *)
Theorem export_without_capture_sets_completed :
  let st := handleExport scenarioSynthesize noCaptureStudio in
  status st = COMPLETED
  /\ status st <> ERROR
  /\ alerts st = ["Browser capture not supported."]
  /\ recorder st = None
  /\ downloads st = 0%nat
  /\ segments st = segments noCaptureStudio
  /\ audioBuffersRef st = audioBuffersRef noCaptureStudio
  /\ lastSegmentEndTimeRef st = lastSegmentEndTimeRef noCaptureStudio.
Proof. evaluate. Qed.
End ExportClaims.


(* ===================================================================== *)
(** * Properties of editing and of the playback controller                *)
(* ===================================================================== *)

Section PlaybackClaims.
Import Types DubbingStudio.
Local Open Scope Q_scope.

Lemma missingAudioIds_edit ident value st :
  missingAudioIds (editTranslatedText ident value st) = missingAudioIds st.
Proof.
  unfold missingAudioIds, editTranslatedText.
  change (audioBuffersRef (setSegments _ st)) with (audioBuffersRef st).
  change (segments (setSegments ?l st)) with l.
  generalize (audioBuffersRef st). intros bufs.
  induction (segments st) as [|s l IH]; [done|].
  rewrite fmap_cons, !filter_cons.
  assert (Hid : id (if bool_decide (id s = ident)
                    then withAudioUrl None (withTranslatedText value s)
                    else s) = id s) by (by case_bool_decide).
  rewrite Hid.
  destruct (decide (bufs !! id s = None));
    rewrite ?fmap_cons, ?Hid, IH; done.
Qed.

(** [stopAllAudio] stops every node that has a handle in the active set. *)
Lemma stopAllAudio_stops st h i n :
  activeSourceNodesRef st !! h = Some i ->
  sourceNodes st !! i = Some n ->
  exists n', sourceNodes (stopAllAudio st) !! i = Some n'
             /\ source_stopped n' = true.
Proof.
  intros Hh Hn.
  assert (Hi : i ∈ (map_to_list (activeSourceNodesRef st)).*2).
  { apply list_elem_of_fmap. exists (h, i). split; [done|].
    by apply elem_of_map_to_list. }
  unfold stopAllAudio. cbv zeta.
  change (sourceNodes (setActiveSourceNodesRef _ (setSourceNodes ?l st)))
    with l.
  revert Hi. generalize ((map_to_list (activeSourceNodesRef st)).*2).
  intros handles. induction handles as [|h' handles IH]; intros Hi.
  - by apply elem_of_nil in Hi.
  - simpl. destruct (decide (h' = i)) as [-> | Hne].
    + clear IH Hi.
      assert (Hany : exists n0,
        foldr (fun h nodes => alter stopSource h nodes) (sourceNodes st)
              handles !! i = Some n0).
      { clear h Hh. induction handles as [|k handles IH]; simpl; [eauto|].
        destruct IH as [n0 Hn0]. destruct (decide (k = i)) as [-> | Hk].
        - rewrite list_lookup_alter_eq, Hn0. simpl. eauto.
        - rewrite list_lookup_alter_ne by done. eauto. }
      destruct Hany as [n0 Hn0].
      rewrite list_lookup_alter_eq, Hn0. simpl. eauto.
    + rewrite list_lookup_alter_ne by done. apply IH.
      apply elem_of_cons in Hi as [-> | Hi]; [done | exact Hi].
Qed.

(** Scheduling only ever appends to the list of source nodes. *)
Lemma pass_appends l : forall st,
  exists news,
    sourceNodes (foldl (fun st seg => scheduleSegment seg 0 st) st l)
    = sourceNodes st ++ news.
Proof.
  induction l as [|seg l IH]; intros st; simpl.
  - exists []. by rewrite app_nil_r.
  - destruct (IH (scheduleSegment seg 0 st)) as [news ->].
    unfold scheduleSegment.
    destruct (audioBuffersRef st !! id seg); [|by eauto].
    destruct (audioContextRef st); [|by eauto].
    destruct (masterDestNodeRef st); [|by eauto].
    destruct (monitorGainNodeRef st); [|by eauto].
    simpl. rewrite <- app_assoc. eauto.
Qed.

(** Starting the full preview stops nothing: whatever nodes exist are
    still there, unchanged, after the new pass has been scheduled. *)
Lemma playFullPreview_start_appends st :
  isPlaying st = false ->
  exists news, sourceNodes (playFullPreview st) = sourceNodes st ++ news.
Proof.
  intros Hp. unfold playFullPreview.
  destruct (videoRef st) as [v|] eqn:Hv;
    [|exists []; by rewrite app_nil_r].
  destruct (audioContextRef st) as [ctx|] eqn:Hc;
    [|exists []; by rewrite app_nil_r].
  assert (Hi : isPlaying (initAudioContext st) = false
               /\ sourceNodes (initAudioContext st) = sourceNodes st).
  { revert Hp Hc. clear. destruct st as [? ? ? ? ? ? ? ? ac ? ? ? ? ? ? ? ? ? ?].
    unfold initAudioContext, resume. simpl. intros -> ->.
    by destruct (ctx_state ctx). }
  destruct Hi as [-> <-]. cbv zeta.
  set (X := updateVideo _ (setMonitorGain 1 (resume (initAudioContext st)))).
  assert (HX : sourceNodes X = sourceNodes (initAudioContext st)).
  { subst X. generalize (initAudioContext st). clear. intros E.
    destruct E as [? ? ? ? ? ? ? ? ac g ? ? ? ? ? ? ? ? ?].
    unfold updateVideo, setMonitorGain, resume. simpl.
    destruct ac, g; reflexivity. }
  rewrite <- HX. clearbody X. unfold scheduleAll. cbv zeta.
  destruct (pass_appends (sortByStartTime (segments X))
              (setLastSegmentEndTimeRef 0 X)) as [news Hn].
  exists news. revert Hn.
  change (sourceNodes (setLastSegmentEndTimeRef 0 X)) with (sourceNodes X).
  generalize (foldl (fun st seg => scheduleSegment seg 0 st)
                (setLastSegmentEndTimeRef 0 X)
                (sortByStartTime (segments X))).
  intros S. destruct S as [? ? ? ? ? ? ? vr ? ? ? ? ? ? ? ? ? ? ?].
  unfold videoPlay. simpl. intros ->.
  destruct vr as [v0|]; [destruct (paused v0)|]; reflexivity.
Qed.

(** C4 (the code departs from it).  Editing a segment's translated text
    clears its [audioUrl] but leaves its entry in the buffer store, which
    is what the scheduler and the export consult: the export finds
    nothing to synthesize, and both preview and export play the buffer
    made from the old text. *)
Theorem edit_keeps_stale_buffer :
  (forall ident value st,
     audioBuffersRef (editTranslatedText ident value st) = audioBuffersRef st
     /\ missingAudioIds (editTranslatedText ident value st)
        = missingAudioIds st)
  /\ (translatedText <$> segments editedStudio = ["one"; "changed"; "three"]
      /\ audioUrl <$> segments editedStudio
         = [Some "blob:one"; None; Some "blob:three"]
      /\ audioBuffersRef editedStudio !! "seg-1" = Some (toneBuffer 300)
      /\ missingAudioIds editedStudio = []
      /\ source_buffer <$> sourceNodes (playFullPreview editedStudio)
         = [toneBuffer 1200; toneBuffer 300; toneBuffer 500]
      /\ source_buffer <$> sourceNodes (handleExport freshSynthesize editedStudio)
         = [toneBuffer 1200; toneBuffer 300; toneBuffer 500]).
Proof.
  split.
  - intros ident value st. split; [reflexivity | apply missingAudioIds_edit].
  - evaluate.
Qed.

(** C5 (the code departs from it).  [playFullPreview] started while
    [isPlaying] is false schedules a pass without calling [stopAllAudio].
    After a preview has been started and a frame captured, the three
    clips of the first pass are still active; starting the preview again
    adds three more and stops none, and since the handles of the active
    set now point to the new clips, a later [stopAllAudio] cannot stop the
    old ones.  The other transitions (single preview, export, toggle-off)
    do cancel the active clips first. *)
Theorem restart_keeps_previous_clips :
  isPlaying pausedByCaptureStudio = false
  /\ source_stopped <$> sourceNodes pausedByCaptureStudio
     = [false; false; false]
  /\ (activeSourceNodesRef pausedByCaptureStudio !!.) <$> ["seg-0"; "seg-1"; "seg-2"]
     = [Some 0; Some 1; Some 2]%nat
  /\ (let st := playFullPreview pausedByCaptureStudio in
      isPlaying st = true
      /\ source_stopped <$> sourceNodes st
         = [false; false; false; false; false; false]
      /\ (activeSourceNodesRef st !!.) <$> ["seg-0"; "seg-1"; "seg-2"]
         = [Some 3; Some 4; Some 5]%nat
      /\ source_stopped <$> sourceNodes (stopAllAudio st)
         = [false; false; false; true; true; true])
  /\ source_stopped
       <$> sourceNodes (playPreviewSegment "seg-0" pausedByCaptureStudio)
     = [true; true; true; false]
  /\ source_stopped
       <$> sourceNodes (handleExport scenarioSynthesize pausedByCaptureStudio)
     = [true; true; true; false; false; false]
  /\ source_stopped
       <$> sourceNodes (playFullPreview (playFullPreview scenarioStudio))
     = [true; true; true].
Proof. evaluate. Qed.
End PlaybackClaims.


(* ===================================================================== *)
(** * Properties of the voice assignment                                  *)
(* ===================================================================== *)

Section Voices.
Import Types DubbingStudio.

Lemma distinctFrom_spec labels : forall seen,
  NoDup (distinctFrom seen labels)
  /\ (forall x, x ∈ distinctFrom seen labels <-> x ∈ labels /\ x ∉ seen)
  /\ sublist (distinctFrom seen labels) labels.
Proof.
  induction labels as [|x rest IH]; intros seen; simpl.
  - split; [constructor|]. split; [|constructor].
    intros y. rewrite !elem_of_nil. tauto.
  - case_bool_decide as Hx.
    + destruct (IH seen) as (Hnd & Hin & Hsub).
      split; [done|]. split; [|by apply sublist_cons].
      intros y. rewrite Hin, elem_of_cons. split; [tauto|].
      intros [[-> | Hy] Hns]; [done | tauto].
    + destruct (IH (x :: seen)) as (Hnd & Hin & Hsub).
      split; [|split; [|by apply sublist_skip]].
      * constructor; [|done]. rewrite Hin, elem_of_cons. tauto.
      * intros y. rewrite !elem_of_cons, Hin, elem_of_cons.
        destruct (decide (y = x)) as [-> | Hne]; tauto.
Qed.

(** The table index of the selected voice, or -1. *)
Lemma findIndex_cases voice :
  (voice = "Kore" \/ voice = "Puck" \/ voice = "Fenrir" \/ voice = "Charon"
   \/ voice = "Zephyr")%string
  \/ (findIndex VOICES voice = -1
      /\ voice <> "Kore" /\ voice <> "Puck" /\ voice <> "Fenrir"
      /\ voice <> "Charon" /\ voice <> "Zephyr")%string.
Proof.
  unfold findIndex, VOICES. simpl.
  repeat case_bool_decide; subst; auto 10.
Qed.

Lemma rotatedVoice_is_Some voice k : is_Some (rotatedVoice voice k).
Proof.
  destruct k as [|k]; simpl; [by eauto|].
  apply fmap_is_Some. unfold voiceAt.
  assert (Hd : -1 <= findIndex VOICES voice < 5).
  { destruct (findIndex_cases voice) as [H | [-> _]]; [|lia].
    destruct H as [-> | [-> | [-> | [-> | ->]]]]; vm_compute; split; congruence. }
  set (d := findIndex VOICES voice) in *.
  assert (Hr : 0 <= Z.rem (d + Z.of_nat (S k)) 5 < 5)
    by (apply Z.rem_bound_pos; lia).
  change (Z.of_nat (length VOICES)) with 5.
  rewrite decide_True by lia. apply lookup_lt_is_Some.
  change (length VOICES) with 5%nat. lia.
Qed.

Lemma rotatedVoice_inj voice i j :
  (i < 5)%nat -> (j < 5)%nat ->
  rotatedVoice voice i = rotatedVoice voice j -> i = j.
Proof.
  intros Hi Hj.
  destruct (findIndex_cases voice) as [H | (Hd & H0 & H1 & H2 & H3 & H4)].
  - destruct H as [-> | [-> | [-> | [-> | ->]]]];
      destruct i as [|[|[|[|[|i]]]]]; try lia;
      destruct j as [|[|[|[|[|j]]]]]; try lia;
      vm_compute; congruence.
  - unfold rotatedVoice. rewrite Hd.
    destruct i as [|[|[|[|[|i]]]]]; try lia;
      destruct j as [|[|[|[|[|j]]]]]; try lia;
      vm_compute; congruence.
Qed.

(** Assignment to a map that has no own [__proto__] property. *)
Lemma setProperty_plain key value (m : SpeakerMap) :
  m !! "__proto__" = None ->
  setProperty key value m
  = if bool_decide (key = "__proto__") then m else <[key := value]> m.
Proof.
  intros Hm. unfold setProperty. destruct (m !! key) eqn:E; [|done].
  case_bool_decide; [congruence | done].
Qed.

(** The loop over the speakers, from position [idx] on, on a map without
    an own [__proto__] property: every other speaker gets the voice of
    its position, the label [__proto__] gets no entry. *)
Lemma assignVoices_spec voice speakers : forall idx m,
  NoDup speakers -> m !! "__proto__" = None ->
  exists m',
    assignVoices voice idx speakers m = Some m'
    /\ (forall k spk, speakers !! k = Some spk -> spk <> "__proto__" ->
          m' !! spk = rotatedVoice voice (idx + k))
    /\ (forall x, x ∉ speakers -> m' !! x = m !! x)
    /\ m' !! "__proto__" = None.
Proof.
  induction speakers as [|spk rest IH]; intros idx m Hnd Hm.
  - exists m. split; [done|]. split; [|done].
    intros k x Hk. by rewrite lookup_nil in Hk.
  - apply NoDup_cons in Hnd as [Hnotin Hnd].
    assert (Hcont : forall vc,
      rotatedVoice voice idx = Some vc ->
      exists m',
        assignVoices voice (S idx) rest (setProperty spk vc m) = Some m'
        /\ (forall k x, (spk :: rest) !! k = Some x -> x <> "__proto__" ->
              m' !! x = rotatedVoice voice (idx + k))
        /\ (forall x, x ∉ spk :: rest -> m' !! x = m !! x)
        /\ m' !! "__proto__" = None).
    { intros vc Hvc. rewrite (setProperty_plain _ _ _ Hm).
      set (m1 := if bool_decide (spk = "__proto__") then m
                 else <[spk := vc]> m).
      assert (Hm1 : m1 !! "__proto__" = None).
      { subst m1. case_bool_decide; [done|]. by rewrite lookup_insert_ne. }
      destruct (IH (S idx) m1 Hnd Hm1) as (m' & E & Hk & Hout & Hp).
      exists m'. split; [exact E|]. split; [|split; [|exact Hp]].
      - intros [|k] x Hx Hne; simpl in Hx.
        + injection Hx as <-. rewrite Nat.add_0_r, Hvc.
          rewrite (Hout spk Hnotin). subst m1.
          rewrite bool_decide_eq_false_2 by done. apply lookup_insert_eq.
        + replace (idx + S k)%nat with (S idx + k)%nat by lia.
          by apply Hk.
      - intros x Hx. apply not_elem_of_cons in Hx as [Hne Hx].
        rewrite (Hout x Hx). subst m1.
        case_bool_decide; [done|]. by apply lookup_insert_ne. }
    destruct idx as [|idx]; cbn [assignVoices].
    + by apply Hcont.
    + destruct (rotatedVoice_is_Some voice (S idx)) as [vc Hvc].
      specialize (Hcont vc Hvc). cbn [rotatedVoice] in Hvc.
      destruct (voiceAt _) as [v|]; [|discriminate].
      simpl in Hvc. injection Hvc as <-. exact Hcont.
Qed.

(** First appearance decides the order of the detected speakers: of two
    of them, the earlier one occurs in the labels before every
    occurrence of the later one. *)
Lemma distinctFrom_order labels : forall seen i j a b,
  (i < j)%nat ->
  distinctFrom seen labels !! i = Some a ->
  distinctFrom seen labels !! j = Some b ->
  exists p, labels !! p = Some a
            /\ forall q, labels !! q = Some b -> (p < q)%nat.
Proof.
  induction labels as [|x rest IH]; intros seen i j a b Hij Ha Hb;
    simpl in Ha, Hb; [by rewrite lookup_nil in Ha|].
  case_bool_decide as Hx.
  - destruct (IH seen i j a b Hij Ha Hb) as (p & Hp & Hq).
    exists (S p). split; [exact Hp|]. intros [|q] Hbq; simpl in Hbq.
    + injection Hbq as ->.
      apply list_elem_of_lookup_2 in Hb.
      apply (distinctFrom_spec rest seen) in Hb. tauto.
    + apply Hq in Hbq. lia.
  - assert (Hbx : b <> x).
    { destruct j as [|j]; [lia|]. simpl in Hb.
      apply list_elem_of_lookup_2 in Hb.
      apply (distinctFrom_spec rest (x :: seen)) in Hb as [_ Hb].
      intros ->. apply Hb. left. }
    destruct i as [|i]; simpl in Ha.
    + injection Ha as <-. exists 0%nat. split; [done|].
      intros [|q] Hbq; simpl in Hbq; [congruence | lia].
    + destruct j as [|j]; [lia|]. simpl in Hb.
      destruct (IH (x :: seen) i j a b ltac:(lia) Ha Hb) as (p & Hp & Hq).
      exists (S p). split; [exact Hp|]. intros [|q] Hbq; simpl in Hbq.
      * congruence.
      * apply Hq in Hbq. lia.
Qed.

(** What a successful analysis leaves in the state. *)
Lemma startAnalysis_success results st m :
  file st = true ->
  assignVoices (defaultVoice st) 0
    (distinctLabels (speakerLabel <$> results)) ∅ = Some m ->
  let st' := startAnalysis (Some results) st in
  status st' = READY_TO_DUB /\ segments st' = results
  /\ detectedSpeakers st' = distinctLabels (speakerLabel <$> results)
  /\ speakerMap st' = m /\ defaultVoice st' = defaultVoice st.
Proof.
  intros Hfile E. cbv zeta. unfold startAnalysis. rewrite Hfile. cbv zeta.
  revert E. generalize (distinctLabels (speakerLabel <$> results)).
  intros sp E.
  destruct st as [? ? ? f dv ? ? ? ac ? ? ? ? ? ? ? ? ? ?].
  simpl in E. unfold initAudioContext, resume. simpl.
  destruct ac as [c|]; [destruct (ctx_state c)|]; simpl; rewrite E; done.
Qed.

(** C10 (the code departs from it).  After a successful analysis the
    detected speakers are the distinct speaker labels in order of first
    appearance, and the loop assigns the speaker at position [k] the
    selected default voice for [k = 0] and
    [VOICES[(indexOf(defaultVoice) + k) mod 5]] for [k >= 1]
    ([rotatedVoice]).  The assignment [newMap[spk] = ...] on a plain
    object stores that voice for every label but one: under the label
    [__proto__] nothing is stored, so that speaker has no voice in the
    map and a read under its label yields [Object.prototype] instead of
    a voice name.  The voice selector, which builds the map with a
    computed key, does store a voice under the same label.  For the other
    labels, with at most five speakers, different speakers get different
    voices. *)
Theorem rotation_skips_inherited_label :
  (forall (results : list DubSegment) (st : Studio),
     file st = true ->
     let labels := speakerLabel <$> results in
     let speakers := distinctLabels labels in
     let st' := startAnalysis (Some results) st in
     status st' = READY_TO_DUB
     /\ segments st' = results
     /\ detectedSpeakers st' = speakers
     /\ NoDup speakers
     /\ (forall x, x ∈ speakers <-> x ∈ labels)
     /\ sublist speakers labels
     /\ (forall i j a b,
           (i < j)%nat -> speakers !! i = Some a -> speakers !! j = Some b ->
           exists p, labels !! p = Some a
                     /\ forall q, labels !! q = Some b -> (p < q)%nat)
     /\ (forall k spk,
           speakers !! k = Some spk -> spk <> "__proto__" ->
           speakerMap st' !! spk = rotatedVoice (defaultVoice st) k
           /\ is_Some (speakerMap st' !! spk))
     /\ ((length speakers <= 5)%nat ->
         forall i j a b,
           speakers !! i = Some a -> speakers !! j = Some b -> i <> j ->
           a <> "__proto__" -> b <> "__proto__" ->
           speakerMap st' !! a <> speakerMap st' !! b)
     /\ speakerMap st' !! "__proto__" = None
     /\ voiceFor (speakerMap st') (defaultVoice st') "__proto__"
        = PrototypeMember "__proto__")
  /\ (let st' := startAnalysis (Some inheritedLabelSegments) loadedStudio in
      status st' = READY_TO_DUB
      /\ detectedSpeakers st' = ["Speaker 1"; "__proto__"]
      /\ speakerMap st' !! "Speaker 1" = Some "Kore"
      /\ rotatedVoice (defaultVoice loadedStudio) 1 = Some "Puck"
      /\ speakerMap st' !! "__proto__" = None
      /\ voiceFor (speakerMap st') (defaultVoice st') "__proto__"
         = PrototypeMember "__proto__"
      /\ speakerMap (changeSpeakerVoice "__proto__" "Puck" st') !! "__proto__"
         = Some "Puck").
Proof.
  split; [|evaluate].
  intros results st Hfile labels speakers st'.
  destruct (distinctFrom_spec labels []) as (Hnd & Hin & Hsub).
  fold (distinctLabels labels) in Hnd, Hin, Hsub.
  fold speakers in Hnd, Hin, Hsub.
  destruct (assignVoices_spec (defaultVoice st) speakers 0 ∅ Hnd)
    as (m' & E & Hk & _ & Hp); [apply lookup_empty|].
  destruct (startAnalysis_success results st m' Hfile E)
    as (H1 & H2 & H3 & H4 & H5).
  fold st' in H1, H2, H3, H4, H5.
  split; [done|]. split; [done|]. split; [done|]. split; [done|].
  split; [intros x; rewrite Hin, elem_of_nil; tauto|]. split; [done|].
  split; [intros i j a b; apply distinctFrom_order|].
  rewrite H4. split; [|split; [|split; [exact Hp|]]].
  - intros k spk Hspk Hne. rewrite (Hk k spk Hspk Hne). simpl.
    split; [done | apply rotatedVoice_is_Some].
  - intros Hlen i j a b Ha Hb Hij Hna Hnb Heq.
    rewrite (Hk i a Ha Hna), (Hk j b Hb Hnb) in Heq. simpl in Heq.
    apply lookup_lt_Some in Ha, Hb.
    apply rotatedVoice_inj in Heq; [done | lia | lia].
  - unfold voiceFor, getProperty. rewrite Hp. reflexivity.
Qed.

Lemma rotation_skips_inherited_label_witness :
  let st' := startAnalysis (Some inheritedLabelSegments) loadedStudio in
  speakerMap st' !! "Speaker 1" = rotatedVoice (defaultVoice loadedStudio) 0
  /\ speakerMap st' !! "__proto__" = None.
Proof.
  intros st'.
  destruct (proj1 rotation_skips_inherited_label
              inheritedLabelSegments loadedStudio eq_refl)
    as (_ & _ & _ & _ & _ & _ & _ & Hk & _ & Hp & _).
  fold st' in Hk, Hp. split; [|exact Hp].
  apply (Hk 0%nat "Speaker 1"); [reflexivity | discriminate].
Defined.
End Voices.

(* ===================================================================== *)
(** * Further properties of the buffer trimmer                            *)
(* ===================================================================== *)

Section TrimmerMore.
Import DubbingStudio.
Local Open Scope nat_scope.

Lemma copyRange_take_drop s n d :
  s + n <= length d -> copyRange s n d = take n (drop s d).
Proof.
  intros Hfit. apply (nth_ext _ _ 0%Q 0%Q).
  - rewrite length_copyRange, length_take, length_drop. lia.
  - intros k Hk. rewrite length_copyRange in Hk.
    rewrite nth_copyRange by done.
    rewrite !nth_lookup, lookup_take_lt, lookup_drop by done. done.
Qed.

Lemma scanForward_quiet_before i d j :
  scanForward i d = Some j -> Forall quiet (take (j - i) d).
Proof.
  revert i. induction d as [|x d IH]; intros i; simpl; [discriminate|].
  destruct (exceeds x) eqn:Ex.
  - intros [= <-]. rewrite Nat.sub_diag. constructor.
  - intros H. pose proof (scanForward_Some _ _ _ H) as (Hle & _).
    replace (j - i) with (S (j - S i)) by lia. simpl.
    constructor; [exact Ex | by apply IH].
Qed.

Lemma scanBackward_quiet_after d i e :
  scanBackward d i = Some e ->
  forall k, e <= k < i -> exceeds (nth k d 0%Q) = false.
Proof.
  induction i as [|i IH]; simpl; [discriminate|].
  destruct (exceeds (nth i d 0%Q)) eqn:Ex.
  - intros [= <-] k Hk. lia.
  - intros H k Hk. destruct (decide (k = i)) as [-> | Hne]; [done|].
    apply IH; [done | lia].
Qed.

Lemma trimEnd_le d : trimEnd d <= length d.
Proof.
  unfold trimEnd. destruct (scanBackward d (length d)) as [e|] eqn:E; simpl.
  - apply scanBackward_Some in E. lia.
  - done.
Qed.

Lemma quiet_before_start d : Forall quiet (take (trimStart d) d).
Proof.
  unfold trimStart. destruct (scanForward 0 d) as [s|] eqn:E; simpl.
  - apply scanForward_quiet_before in E. by rewrite Nat.sub_0_r in E.
  - constructor.
Qed.

Lemma quiet_after_end d : Forall quiet (drop (trimEnd d) d).
Proof.
  unfold trimEnd. destruct (scanBackward d (length d)) as [e|] eqn:E; simpl.
  - apply Forall_lookup_2. intros k x Hx. rewrite lookup_drop in Hx.
    pose proof (lookup_lt_Some _ _ _ Hx) as Hlt.
    pose proof (scanBackward_quiet_after d (length d) e E (e + k)) as Hq.
    rewrite nth_lookup, Hx in Hq. simpl in Hq. apply Hq. lia.
  - rewrite drop_all. constructor.
Qed.

(** X1.  Trimming cuts every channel at the same two positions, and what
    it cuts away at the front and at the back of channel 0 is quiet: no
    sample over the threshold is ever lost. *)
Theorem trim_cuts_quiet_margins (b : AudioBuffer) :
  wellFormed b ->
  exists start len,
    channel0 (trimAudioBuffer b) = take len (drop start (channel0 b))
    /\ otherChannels (trimAudioBuffer b)
       = (fun ch => take len (drop start ch)) <$> otherChannels b
    /\ Forall quiet (take start (channel0 b))
    /\ Forall quiet (drop (start + len) (channel0 b)).
Proof.
  intros Hwf. unfold trimAudioBuffer. cbv zeta.
  pose proof (trimEnd_le (channel0 b)) as Hend.
  case_decide as Hd.
  - exists 0, (bufferLength b). unfold bufferLength. simpl.
    rewrite drop_0, take_ge, drop_all by lia.
    split; [done|]. split; [|split; constructor].
    unfold wellFormed, bufferLength in Hwf.
    induction Hwf as [|c cs Hc _ IH]; simpl; [done|].
    rewrite drop_0, take_ge by lia. f_equal. exact IH.
  - exists (trimStart (channel0 b)),
           (trimEnd (channel0 b) - trimStart (channel0 b)).
    simpl. split; [apply copyRange_take_drop; lia|]. split; [|split].
    + unfold wellFormed, bufferLength in Hwf.
      induction Hwf as [|c cs Hc _ IH]; simpl; [done|].
      rewrite copyRange_take_drop by lia. f_equal. exact IH.
    + apply quiet_before_start.
    + replace (trimStart (channel0 b)
               + (trimEnd (channel0 b) - trimStart (channel0 b)))
        with (trimEnd (channel0 b)) by lia.
      apply quiet_after_end.
Qed.

Lemma trim_cuts_quiet_margins_witness :
  let b := {| sampleRate := 24000;
              channel0 := [0.01; 0.5; -0.3; 0.02; 0]%Q;
              otherChannels := [[0; 0.1; 0.2; 0.3; 0.4]%Q] |} in
  exists start len,
    channel0 (trimAudioBuffer b) = take len (drop start (channel0 b))
    /\ otherChannels (trimAudioBuffer b)
       = (fun ch => take len (drop start ch)) <$> otherChannels b
    /\ Forall quiet (take start (channel0 b))
    /\ Forall quiet (drop (start + len) (channel0 b)).
Proof.
  intros b. apply (trim_cuts_quiet_margins b). repeat constructor.
Defined.

(** X2.  Trimming never lengthens a buffer or its duration, keeps the
    sample rate and the number of channels, and keeps the channels of
    equal length. *)
Theorem trim_shortens_keeps_format (b : AudioBuffer) :
  bufferLength (trimAudioBuffer b) <= bufferLength b
  /\ (duration (trimAudioBuffer b) <= duration b)%Q
  /\ sampleRate (trimAudioBuffer b) = sampleRate b
  /\ numberOfChannels (trimAudioBuffer b) = numberOfChannels b
  /\ (wellFormed b -> wellFormed (trimAudioBuffer b)).
Proof.
  assert (Hlen : bufferLength (trimAudioBuffer b) <= bufferLength b).
  { unfold trimAudioBuffer, bufferLength. cbv zeta.
    pose proof (trimEnd_le (channel0 b)).
    case_decide; simpl; [done|]. rewrite length_copyRange. lia. }
  destruct (trimAudioBuffer_format b) as [Hrate Hch].
  split; [exact Hlen|]. split; [|split; [exact Hrate|split; [exact Hch|]]].
  - unfold duration, Qle. simpl. rewrite Hrate. nia.
  - intros Hwf. unfold trimAudioBuffer. cbv zeta.
    case_decide; [done|].
    unfold wellFormed, bufferLength. simpl. rewrite length_copyRange.
    apply Forall_fmap, Forall_true. intros c. apply length_copyRange.
Qed.

Lemma trim_shortens_keeps_format_witness :
  let b := {| sampleRate := 24000;
              channel0 := [0.01; 0.5; -0.3; 0.02; 0]%Q;
              otherChannels := [[0; 0.1; 0.2; 0.3; 0.4]%Q] |} in
  wellFormed (trimAudioBuffer b) /\ bufferLength (trimAudioBuffer b) = 2.
Proof.
  intros b. split.
  - apply (proj2 (proj2 (proj2 (proj2 (trim_shortens_keeps_format b))))).
    repeat constructor.
  - reflexivity.
Defined.
End TrimmerMore.

(* ===================================================================== *)
(** * Further properties of the service module                           *)
(* ===================================================================== *)

Section ServiceMore.
Import GeminiService.

Lemma length_charCodes s : length (charCodes s) = String.length s.
Proof. induction s as [|c s IH]; simpl; [done | by rewrite IH]. Qed.

Lemma writeCodes_fits codes : forall off (view : list byte),
  (off + length codes <= length view)%nat ->
  writeCodes off codes view
  = Some (take off view ++ (toUint8 <$> codes)
          ++ drop (off + length codes) view).
Proof.
  induction codes as [|c codes IH]; intros off view Hfit; simpl in *.
  - by rewrite Nat.add_0_r, take_drop.
  - unfold setUint8. rewrite decide_True by lia. simpl.
    rewrite IH by (rewrite length_insert; lia).
    f_equal.
    rewrite (take_S_r _ _ (toUint8 c))
      by (apply list_lookup_insert_eq; lia).
    rewrite take_insert_ge by lia.
    rewrite drop_insert_lt by lia.
    rewrite <- app_assoc. simpl.
    by replace (off + S (length codes))%nat with (S (off + length codes)) by lia.
Qed.

Lemma writeCodes_overflow codes : forall off (view : list byte),
  codes <> [] -> (length view < off + length codes)%nat ->
  writeCodes off codes view = None.
Proof.
  induction codes as [|c codes IH]; intros off view Hne Hover; [done|].
  simpl in *. unfold setUint8.
  case_decide as Hd; [|done]. simpl.
  destruct codes as [|c' codes]; [simpl in *; lia|].
  apply IH; [done|]. rewrite length_insert. simpl in *. lia.
Qed.

(** X3.  [writeString] replaces exactly the bytes at
    [offset .. offset + length - 1] by the character codes and leaves the
    rest of the buffer as it is; a non-empty string that does not fit
    raises the range error. *)
Theorem writeString_replaces_range (offset : nat) (s : string)
    (view : list byte) :
  ((offset + String.length s <= length view)%nat ->
   writeString offset s view
   = Some (take offset view ++ tag s
           ++ drop (offset + String.length s) view))
  /\ (s <> EmptyString ->
      (length view < offset + String.length s)%nat ->
      writeString offset s view = None).
Proof.
  unfold writeString, tag. split.
  - intros Hfit. rewrite writeCodes_fits; rewrite length_charCodes; done.
  - intros Hne Hover. apply writeCodes_overflow.
    + by destruct s.
    + by rewrite length_charCodes.
Qed.

Lemma writeString_replaces_range_witness :
  writeString 1 "ab" [Byte.x00; Byte.x01; Byte.x02; Byte.x03]
  = Some [Byte.x00; Byte.x61; Byte.x62; Byte.x03]
  /\ writeString 3 "ab" [Byte.x00; Byte.x01; Byte.x02; Byte.x03] = None.
Proof.
  split.
  - apply (proj1 (writeString_replaces_range 1 "ab"
                    [Byte.x00; Byte.x01; Byte.x02; Byte.x03])).
    simpl. lia.
  - apply (proj2 (writeString_replaces_range 3 "ab"
                    [Byte.x00; Byte.x01; Byte.x02; Byte.x03])).
    + discriminate.
    + simpl. lia.
Defined.

(** X4.  For every sample rate below 2^31 and every payload that fits the
    32-bit size fields, the container written by [pcmToWav] has 44 bytes
    more than the payload and reads back as mono, 16 bits, the given
    rate, a byte rate of twice the rate, a block align of 2, and the
    payload itself. *)
Theorem pcmToWav_reads_back (pcm : list byte) (sampleRate : Z) :
  0 <= sampleRate -> sampleRate < 2 ^ 31 ->
  36 + Z.of_nat (length pcm) < 2 ^ 32 ->
  exists blob,
    pcmToWav pcm sampleRate = Some blob
    /\ length (blob_bytes blob) = (44 + length pcm)%nat
    /\ decodeWav (blob_bytes blob)
       = Some ({| wav_channels := 1; wav_sampleRate := sampleRate;
                  wav_byteRate := 2 * sampleRate; wav_blockAlign := 2;
                  wav_bitsPerSample := 16 |}, pcm).
Proof.
  intros H0 H1 H2. eexists. split; [apply pcmToWav_bytes|].
  cbn [blob_bytes]. split.
  - by rewrite length_app, wavHeader_length.
  - apply decodeWav_header; lia.
Qed.

Lemma pcmToWav_reads_back_witness :
  exists blob,
    pcmToWav [Byte.x10; Byte.x20] 48000 = Some blob
    /\ length (blob_bytes blob) = 46%nat
    /\ decodeWav (blob_bytes blob)
       = Some ({| wav_channels := 1; wav_sampleRate := 48000;
                  wav_byteRate := 2 * 48000; wav_blockAlign := 2;
                  wav_bitsPerSample := 16 |}, [Byte.x10; Byte.x20]).
Proof.
  apply (pcmToWav_reads_back [Byte.x10; Byte.x20] 48000); simpl; lia.
Defined.

Lemma without_pretty_N_go x : forall s,
  without "-" s -> without "-" (pretty_N_go x s).
Proof.
  induction (N.lt_wf_0 x) as [x _ IH]; intros s Hs.
  assert (x = 0 \/ 0 < x)%N as [-> | Hpos] by lia.
  - by rewrite pretty_N_go_0.
  - rewrite pretty_N_go_step by done. apply IH.
    { by apply N.div_lt. }
    simpl. split; [|done].
    unfold pretty_N_char. by repeat case_match.
Qed.

Lemma without_pretty_nat (n : nat) : without "-" (pretty n).
Proof.
  unfold pretty, pretty_nat, pretty, pretty_N.
  case_decide; [by repeat split|].
  by apply without_pretty_N_go.
Qed.

Lemma append_sep_inj sep a : forall c b d,
  without sep a -> without sep c ->
  a +:+ String sep b = c +:+ String sep d -> a = c.
Proof.
  induction a as [|x a IH]; intros [|y c] b d Ha Hc Heq; simpl in *.
  - done.
  - injection Heq as <- _. by destruct Hc.
  - injection Heq as -> _. by destruct Ha.
  - injection Heq as -> Heq. f_equal.
    eapply IH; [tauto | | exact Heq]. tauto.
Qed.

Lemma segmentId_inj i j a b :
  segmentId i a = segmentId j b -> i = j.
Proof.
  unfold segmentId. simpl. intros [= Heq].
  apply append_sep_inj in Heq; auto using without_pretty_nat.
  by apply (inj pretty).
Qed.

(** X5.  The segments that [analyzeVideo] returns carry pairwise
    different ids, whatever the clock readings, and are the parsed
    segments in their order with every field kept. *)
Theorem analysis_ids_distinct (now : nat -> N) (parsed : list ParsedSegment) :
  NoDup (Types.id <$> withIds now parsed)
  /\ length (withIds now parsed) = length parsed
  /\ Types.startTime <$> withIds now parsed = parsed_startTime <$> parsed
  /\ Types.endTime <$> withIds now parsed = parsed_endTime <$> parsed
  /\ Types.originalText <$> withIds now parsed
     = parsed_originalText <$> parsed
  /\ Types.translatedText <$> withIds now parsed
     = parsed_translatedText <$> parsed
  /\ Types.speakerLabel <$> withIds now parsed
     = parsed_speakerLabel <$> parsed.
Proof.
  unfold withIds. split.
  - apply NoDup_alt. intros i j x Hi Hj.
    rewrite list_lookup_fmap, list_lookup_imap in Hi, Hj.
    destruct (parsed !! i); [|discriminate].
    destruct (parsed !! j); [|discriminate].
    simpl in Hi, Hj.
    assert (Heq : segmentId i (now i) = segmentId j (now j)) by congruence.
    by apply segmentId_inj in Heq.
  - split; [apply length_imap|].
    repeat split; apply list_eq; intros i;
      rewrite !list_lookup_fmap, list_lookup_imap;
      by destruct (parsed !! i).
Qed.

Lemma split_without sep s : without sep s -> split sep s = [s].
Proof.
  induction s as [|c s IH]; simpl; [done|]. intros [Hc Hs].
  rewrite decide_False by done. by rewrite IH.
Qed.

Lemma split_at_first sep prefix rest :
  without sep prefix ->
  split sep (prefix +:+ String sep rest) = prefix :: split sep rest.
Proof.
  induction prefix as [|c prefix IH]; simpl.
  - intros _. by rewrite decide_True.
  - intros [Hc Hp]. rewrite decide_False by done. by rewrite IH.
Qed.

(** X6.  Taking the payload of a data URL: for a header without a comma
    the result is the text between the first comma and the next one (all
    of the rest when it has no comma, as base64 has none); a string with
    no comma at all yields [undefined]. *)
Theorem dataUrlPayload_after_comma (header rest : string) :
  (without "," header ->
   dataUrlPayload (header +:+ String "," rest) = head (split "," rest))
  /\ (without "," header -> without "," rest ->
      dataUrlPayload (header +:+ String "," rest) = Some rest)
  /\ (without "," header -> dataUrlPayload header = None).
Proof.
  unfold dataUrlPayload. split; [|split].
  - intros Hh. rewrite split_at_first by done. by destruct (split "," rest).
  - intros Hh Hr. rewrite split_at_first, split_without by done. done.
  - intros Hh. by rewrite split_without.
Qed.

Lemma dataUrlPayload_after_comma_witness :
  dataUrlPayload "data:video/mp4;base64,AAAAIGZ0eXA=" = Some "AAAAIGZ0eXA="
  /\ dataUrlPayload "not a data url" = None.
Proof.
  split.
  - apply (proj1 (proj2 (dataUrlPayload_after_comma
                           "data:video/mp4;base64" "AAAAIGZ0eXA=")));
      vm_compute; intuition discriminate.
  - apply (proj2 (proj2 (dataUrlPayload_after_comma
                           "not a data url" "")));
      vm_compute; intuition discriminate.
Defined.
End ServiceMore.

(* ===================================================================== *)
(** * Further properties of the scheduler                                 *)
(* ===================================================================== *)

Section SchedulerMore.
Import Types DubbingStudio.
Local Open Scope Q_scope.

(** X7.  A clip is never started in the past, whatever the anchor: it is
    handed to the engine at the current engine time plus the time left
    from the anchor to its safe play time, and at the current engine time
    itself when the anchor has already passed the safe play time.  The
    cursor moves to the end of the clip and the segment's handle points
    to the new node. *)
Theorem clip_never_starts_in_the_past (seg : DubSegment) (anchor : Q)
    (st : Studio) (ctx : AudioContext) (g : Q) (b : AudioBuffer) :
  audioContextRef st = Some ctx -> masterDestNodeRef st = true ->
  monitorGainNodeRef st = Some g ->
  audioBuffersRef st !! id seg = Some b ->
  let safe := Qmax (startTime seg) (lastSegmentEndTimeRef st + 0.1) in
  let st' := scheduleSegment seg anchor st in
  exists n,
    sourceNodes st' = sourceNodes st ++ [n]
    /\ source_buffer n = b /\ source_stopped n = false
    /\ currentTime ctx <= source_when n
    /\ (anchor <= safe -> source_when n == currentTime ctx + (safe - anchor))
    /\ (safe <= anchor -> source_when n == currentTime ctx)
    /\ activeSourceNodesRef st' !! id seg = Some (length (sourceNodes st))
    /\ lastSegmentEndTimeRef st' = safe + duration b.
Proof.
  intros Hc Hm Hg Hb safe st'. subst st'.
  rewrite (scheduleSegment_ready seg anchor st ctx g b) by done.
  cbv zeta. fold safe. eexists. split; [reflexivity|]. simpl.
  split; [done|]. split; [done|].
  pose proof (Q.le_max_l 0 (safe - anchor)) as Hmax.
  split; [lra|]. split; [|split].
  - intros Hle. rewrite Q.max_r by lra. reflexivity.
  - intros Hle. rewrite Q.max_l by lra. lra.
  - split; [apply lookup_insert_eq | reflexivity].
Qed.

Lemma clip_never_starts_in_the_past_witness :
  let seg := analysedSegment "seg-1" 1.0 1.04 "two" in
  exists n,
    sourceNodes (scheduleSegment seg 5 scenarioStudio) = [n]
    /\ source_when n == 0
    /\ lastSegmentEndTimeRef (scheduleSegment seg 5 scenarioStudio) == 1.3.
Proof.
  intros seg.
  destruct (clip_never_starts_in_the_past seg 5 scenarioStudio
              {| ctx_state := Running; currentTime := 0 |} 1 (toneBuffer 300))
    as (n & E1 & _ & _ & _ & _ & Hlate & _ & Hcur);
    [reflexivity | reflexivity | reflexivity | vm_compute; reflexivity |].
  exists n. split; [exact E1|]. split.
  - rewrite Hlate; [reflexivity | vm_compute; discriminate].
  - rewrite Hcur. vm_compute. reflexivity.
Defined.

Lemma finalCursor_covers now : forall clips cursor
    (nodes : list AudioBufferSourceNode),
  0 <= cursor ->
  (fun n => (source_when n, duration (source_buffer n))) <$> nodes
  = (fun '(safe, (_, dur)) => (now + Qmax 0 (safe - 0), dur))
      <$> zip (safeTimes cursor clips) clips ->
  cursor <= finalCursor cursor clips
  /\ Forall (fun n => source_when n + duration (source_buffer n)
                      <= now + finalCursor cursor clips) nodes
  /\ (forall n, last nodes = Some n ->
        source_when n + duration (source_buffer n)
        == now + finalCursor cursor clips)
  /\ (nodes = [] -> finalCursor cursor clips = cursor).
Proof.
  induction clips as [|[start dur] clips IH]; intros cursor nodes Hc Hn.
  - destruct nodes; [|discriminate]. simpl.
    split; [lra|]. split; [constructor|]. split; [discriminate | done].
  - destruct nodes as [|n nodes]; [discriminate|].
    simpl in Hn. injection Hn as Hw Hd Hrest. simpl.
    set (safe := Qmax start (cursor + 0.1)) in *.
    assert (Hsafe : cursor + 0.1 <= safe) by apply Q.le_max_r.
    assert (Hmax : Qmax 0 (safe - 0) == safe) by (rewrite Q.max_r; lra).
    pose proof (duration_nonneg (source_buffer n)) as Hdur.
    rewrite Hd in Hdur.
    destruct (IH (safe + dur) nodes) as (Hmono & Hall & Hlast & Hnil);
      [lra | exact Hrest |].
    split; [lra|]. split; [|split; [|discriminate]].
    + constructor; [|exact Hall]. rewrite Hw, Hd, Hmax. lra.
    + destruct nodes as [|m nodes].
      * intros x [= <-]. rewrite Hw, Hd, Hmax, (Hnil eq_refl). lra.
      * intros x Hx. apply Hlast. exact Hx.
Qed.

(** X8.  The cursor a pass leaves is the end of the assembled timeline:
    every clip of the pass has ended by then, the last clip ends exactly
    then, and an empty pass leaves it at 0. *)
Theorem timeline_end_covers_every_clip (st : Studio) (ctx : AudioContext)
    (g : Q) :
  audioContextRef st = Some ctx -> masterDestNodeRef st = true ->
  monitorGainNodeRef st = Some g ->
  let finish := lastSegmentEndTimeRef (scheduleAll st) in
  exists news,
    sourceNodes (scheduleAll st) = sourceNodes st ++ news
    /\ Forall (fun n => source_when n + duration (source_buffer n)
                        <= currentTime ctx + finish) news
    /\ (forall n, last news = Some n ->
          source_when n + duration (source_buffer n)
          == currentTime ctx + finish)
    /\ (news = [] -> finish = 0)
    /\ 0 <= finish.
Proof.
  intros Hc Hm Hg finish. subst finish. unfold scheduleAll. cbv zeta.
  destruct (pass_spec (sortByStartTime (segments st))
              (setLastSegmentEndTimeRef 0 st) ctx g)
    as (news & E1 & _ & _ & _ & E5 & E6); [done | done | done |].
  rewrite E5.
  destruct (finalCursor_covers (currentTime ctx) _ 0 news ltac:(lra) E6)
    as (Hmono & Hall & Hlast & Hnil).
  exists news. repeat split; done.
Qed.

Lemma timeline_end_covers_every_clip_witness :
  exists news,
    sourceNodes (scheduleAll scenarioStudio) = news
    /\ Forall (fun n => source_when n + duration (source_buffer n) <= 2.3)
              news.
Proof.
  destruct (timeline_end_covers_every_clip scenarioStudio
              {| ctx_state := Running; currentTime := 0 |} 1
              eq_refl eq_refl eq_refl)
    as (news & E1 & Hall & _).
  exists news. split; [exact E1|].
  eapply Forall_impl; [exact Hall|]. intros n Hn. simpl in Hn.
  assert (Hf : lastSegmentEndTimeRef (scheduleAll scenarioStudio) == 2.3)
    by (vm_compute; reflexivity).
  rewrite Hf in Hn. lra.
Defined.

Lemma safeTimes_not_early : forall clips cursor,
  Forall2 (fun safe clip => fst clip <= safe) (safeTimes cursor clips) clips.
Proof.
  induction clips as [|[start dur] clips IH]; intros cursor; simpl.
  - constructor.
  - constructor; [apply Q.le_max_l | apply IH].
Qed.

(** X9.  No clip of a pass is started before the start time of its own
    segment: the clips follow the segments that have a buffer, in
    ascending start time, one clip each. *)
Theorem clip_not_before_its_line (st : Studio) (ctx : AudioContext) (g : Q) :
  audioContextRef st = Some ctx -> masterDestNodeRef st = true ->
  monitorGainNodeRef st = Some g ->
  exists news,
    sourceNodes (scheduleAll st) = sourceNodes st ++ news
    /\ Forall2 (fun n clip => currentTime ctx + fst clip <= source_when n)
               news
               (clipsOf (audioBuffersRef st) (sortByStartTime (segments st))).
Proof.
  intros Hc Hm Hg.
  destruct (scheduleAll_spec st ctx g Hc Hm Hg)
    as (news & E1 & _ & E3 & _).
  exists news. split; [exact E1|].
  pose proof (safeTimes_not_early
                (clipsOf (audioBuffersRef st) (sortByStartTime (segments st)))
                0) as Hsafe.
  revert E3 Hsafe.
  generalize (safeTimes 0
                (clipsOf (audioBuffersRef st)
                   (sortByStartTime (segments st)))).
  generalize (clipsOf (audioBuffersRef st) (sortByStartTime (segments st))).
  clear. intros clips safes E3 Hsafe. revert news E3.
  induction Hsafe as [|safe clip safes clips Hle _ IH]; intros news E3.
  - destruct news; [constructor | discriminate].
  - destruct news as [|n news]; [discriminate|].
    simpl in E3. injection E3 as Hw E3.
    constructor; [|by apply IH].
    rewrite Hw. pose proof (Q.le_max_r 0 (safe - 0)). lra.
Qed.

Lemma clip_not_before_its_line_witness :
  exists news,
    sourceNodes (scheduleAll scenarioStudio) = news
    /\ Forall2 (fun n clip => 0 + fst clip <= source_when n) news
               [(0.0, 1.2); (1.0, 0.3); (1.05, 0.5)].
Proof.
  destruct (clip_not_before_its_line scenarioStudio
              {| ctx_state := Running; currentTime := 0 |} 1
              eq_refl eq_refl eq_refl)
    as (news & E1 & Hall).
  exists news. split; [exact E1|].
  assert (Hclips :
    clipsOf (audioBuffersRef scenarioStudio)
      (sortByStartTime (segments scenarioStudio))
    = [(0.0, 1200 # 1000); (1.0, 300 # 1000); (1.05, 500 # 1000)])
    by (vm_compute; reflexivity).
  rewrite Hclips in Hall. clear Hclips E1.
  repeat (match goal with
          | H : Forall2 _ _ (_ :: _) |- _ =>
              apply Forall2_cons_inv_r in H as (? & ? & ? & H & ->)
          | H : Forall2 _ _ [] |- _ => apply Forall2_nil_inv_r in H as ->
          end).
  repeat constructor; assumption.
Defined.
End SchedulerMore.

(* ===================================================================== *)
(** * Further properties of a scheduling pass                            *)
(* ===================================================================== *)

Section SchedulerPasses.
Import Types DubbingStudio.
Local Open Scope Q_scope.

Lemma scheduleSegment_unready seg anchor st :
  audioContextRef st = None \/ masterDestNodeRef st = false
  \/ monitorGainNodeRef st = None ->
  scheduleSegment seg anchor st = st.
Proof.
  intros H. unfold scheduleSegment.
  destruct (audioBuffersRef st !! id seg); [|done].
  destruct (audioContextRef st); [|done].
  destruct (masterDestNodeRef st); [|done].
  destruct (monitorGainNodeRef st); [|done].
  destruct H as [H | [H | H]]; discriminate.
Qed.

(** X10.  With nothing to schedule a pass only resets the cursor: when
    the engine lacks its context or an output node, or when no segment
    has a buffer, no node is created and no handle is touched. *)
Theorem pass_with_nothing_to_schedule (st : Studio) :
  (audioContextRef st = None \/ masterDestNodeRef st = false
   \/ monitorGainNodeRef st = None)
  \/ (forall s, s ∈ segments st -> audioBuffersRef st !! id s = None) ->
  scheduleAll st = setLastSegmentEndTimeRef 0 st.
Proof.
  intros H. unfold scheduleAll. cbv zeta.
  assert (Hstep : forall s, s ∈ sortByStartTime (segments st) ->
            scheduleSegment s 0 (setLastSegmentEndTimeRef 0 st)
            = setLastSegmentEndTimeRef 0 st).
  { intros s Hs. destruct H as [H | H].
    - by apply scheduleSegment_unready.
    - apply scheduleSegment_skip. apply H.
      by rewrite <- (sortByStartTime_perm (segments st)). }
  revert Hstep. generalize (sortByStartTime (segments st)).
  generalize (setLastSegmentEndTimeRef 0 st). clear. intros st0 l.
  induction l as [|s l IH]; intros Hstep; simpl; [done|].
  rewrite Hstep by (by left). apply IH.
  intros s' Hs'. apply Hstep. by right.
Qed.

Lemma pass_with_nothing_to_schedule_witness :
  scheduleAll loadedStudio = setLastSegmentEndTimeRef 0 loadedStudio
  /\ sourceNodes (scheduleAll tailStudio) = [].
Proof.
  split.
  - apply (pass_with_nothing_to_schedule loadedStudio). left. by left.
  - rewrite (pass_with_nothing_to_schedule tailStudio); [reflexivity|].
    right. intros s Hs. reflexivity.
Defined.


End SchedulerPasses.

(* ===================================================================== *)
(** * Further properties of the playback controller                       *)
(* ===================================================================== *)

Section PlaybackMore.
Import Types DubbingStudio.
Local Open Scope Q_scope.

Lemma stopSource_idemp n : stopSource (stopSource n) = stopSource n.
Proof. reflexivity. Qed.

Lemma stop_handles_lookup (handles : list nat)
    (nodes : list AudioBufferSourceNode) i :
  foldr (fun h ns => alter stopSource h ns) nodes handles !! i
  = (if bool_decide (i ∈ handles) then stopSource else fun n => n)
      <$> nodes !! i.
Proof.
  induction handles as [|h handles IH]; cbn [foldr].
  - case_bool_decide as Hin; [by apply elem_of_nil in Hin|].
    by destruct (nodes !! i).
  - destruct (decide (h = i)) as [-> | Hne].
    + rewrite list_lookup_alter_eq, IH.
      rewrite (bool_decide_eq_true_2 (i ∈ i :: handles)) by (by left).
      destruct (nodes !! i); cbn [fmap option_fmap option_map]; [|done].
      by case_bool_decide.
    + rewrite list_lookup_alter_ne, IH by done.
      destruct (nodes !! i); cbn [fmap option_fmap option_map]; [|done].
      case_bool_decide as H1; case_bool_decide as H2; try done.
      * exfalso. apply H2. by right.
      * exfalso. apply elem_of_cons in H2 as [-> | H2]; done.
Qed.

Lemma length_stop_handles (handles : list nat)
    (nodes : list AudioBufferSourceNode) :
  length (foldr (fun h ns => alter stopSource h ns) nodes handles)
  = length nodes.
Proof.
  induction handles as [|h handles IH]; simpl; [done|].
  by rewrite length_alter.
Qed.

Lemma active_handle_listed (m : gmap string nat) i :
  i ∈ (map_to_list m).*2 <-> exists h, m !! h = Some i.
Proof.
  rewrite list_elem_of_fmap. split.
  - intros ([h j] & -> & Hin). exists h. by apply elem_of_map_to_list.
  - intros [h Hh]. exists (h, i). split; [done|].
    by apply elem_of_map_to_list.
Qed.

(** X12.  [stopAllAudio] stops every node that has a handle in the active
    set and no other, keeps every node's buffer and start time, empties
    the set, and is idempotent. *)
Theorem stopAllAudio_cancels_the_active_set (st : Studio) :
  activeSourceNodesRef (stopAllAudio st) = ∅
  /\ length (sourceNodes (stopAllAudio st)) = length (sourceNodes st)
  /\ (forall i n,
        sourceNodes st !! i = Some n ->
        (exists h, activeSourceNodesRef st !! h = Some i) ->
        sourceNodes (stopAllAudio st) !! i = Some (stopSource n))
  /\ (forall i n,
        sourceNodes st !! i = Some n ->
        ~ (exists h, activeSourceNodesRef st !! h = Some i) ->
        sourceNodes (stopAllAudio st) !! i = Some n)
  /\ stopAllAudio (stopAllAudio st) = stopAllAudio st.
Proof.
  destruct st as [? ? ? ? ? ? ? ? ? ? ? nodes active ? ? ? ? ? ?].
  unfold stopAllAudio. simpl. split; [done|].
  split; [apply length_stop_handles|]. split; [|split].
  - intros i n Hn Hact. rewrite stop_handles_lookup, Hn. simpl.
    rewrite bool_decide_eq_true_2; [done|].
    by apply active_handle_listed.
  - intros i n Hn Hact. rewrite stop_handles_lookup, Hn. simpl.
    rewrite bool_decide_eq_false_2; [done|].
    by rewrite active_handle_listed.
  - rewrite map_to_list_empty. reflexivity.
Qed.

Lemma stopAllAudio_cancels_the_active_set_witness :
  exists n,
    sourceNodes pausedByCaptureStudio !! 1%nat = Some n
    /\ sourceNodes (stopAllAudio pausedByCaptureStudio) !! 1%nat
       = Some (stopSource n).
Proof.
  destruct (stopAllAudio_cancels_the_active_set pausedByCaptureStudio)
    as (_ & _ & Hact & _).
  eexists. split; [vm_compute; reflexivity|].
  apply Hact; [vm_compute; reflexivity|].
  exists "seg-1". vm_compute. reflexivity.
Defined.

(** X13.  Toggling a running full preview off pauses the video, stops the
    active clips, empties the active set and clears [isPlaying]; it
    schedules nothing and leaves cursor and timers alone. *)
Theorem preview_toggle_off (st : Studio) (v : Video) (ctx : AudioContext) :
  videoRef st = Some v -> audioContextRef st = Some ctx ->
  isPlaying st = true ->
  let st' := playFullPreview st in
  isPlaying st' = false
  /\ activeSourceNodesRef st' = ∅
  /\ sourceNodes st' = sourceNodes (stopAllAudio st)
  /\ (exists v', videoRef st' = Some v' /\ paused v' = true
                 /\ video_currentTime v' = video_currentTime v)
  /\ lastSegmentEndTimeRef st' = lastSegmentEndTimeRef st
  /\ timers st' = timers st.
Proof.
  destruct st as [? ? p ? ? ? ? vr ac ? ? nodes active ? ? ? ? ? ?].
  simpl. intros -> -> ->.
  unfold playFullPreview, initAudioContext, resume, videoPause,
    stopAllAudio. simpl.
  destruct (ctx_state ctx); simpl; destruct (paused v) eqn:Hp; simpl;
    repeat split; eauto.
Qed.

Lemma preview_toggle_off_witness :
  let playing := playFullPreview scenarioStudio in
  isPlaying (playFullPreview playing) = false
  /\ activeSourceNodesRef (playFullPreview playing) = ∅.
Proof.
  intros playing.
  destruct (preview_toggle_off playing
              {| video_currentTime := 0; muted := false; paused := false;
                 video_duration := Some 10; captureStream := true;
                 mozCaptureStream := false; onended := None |}
              {| ctx_state := Running; currentTime := 0 |})
    as (H1 & H2 & _); [vm_compute; reflexivity..|].
  split; [exact H1 | exact H2].
Defined.
End PlaybackMore.

(* ===================================================================== *)
(** * The single-segment preview                                         *)
(* ===================================================================== *)

Section PreviewMore.
Import Types DubbingStudio.
Local Open Scope Q_scope.

(** X14.  Previewing one segment: an unknown id changes nothing.
    Otherwise the active clips are cancelled first, at most one new clip
    is started, with the segment's stored buffer, under the reserved
    handle, so that afterwards the active set holds no other handle;
    and when a video element is mounted it is moved to the segment's start
    time, unmuted and played, with a timeout of the segment's length plus
    1.5 s. *)
Theorem single_preview_cancels_first (ident : string) (st : Studio) :
  (findSegment ident (segments st) = None ->
   playPreviewSegment ident st = st)
  /\ forall seg,
       findSegment ident (segments st) = Some seg ->
       let st' := playPreviewSegment ident st in
       (exists news,
          sourceNodes st' = sourceNodes (stopAllAudio st) ++ news
          /\ (length news <= 1)%nat
          /\ Forall (fun n => source_stopped n = false
                              /\ audioBuffersRef st !! ident
                                 = Some (source_buffer n)) news)
       /\ (forall h, h <> "preview-tts" ->
             activeSourceNodesRef st' !! h = None)
       /\ (forall v, videoRef st = Some v ->
             exists v',
               videoRef st' = Some v'
               /\ video_currentTime v' = startTime seg
               /\ muted v' = false /\ paused v' = false
               /\ timers st'
                  = timers st
                    ++ [((endTime seg - startTime seg + 1.5) * 1000,
                         PreviewTimeout)])
       /\ (videoRef st = None -> timers st' = timers st).
Proof.
  split.
  - intros Hf. unfold playPreviewSegment. by rewrite Hf.
  - intros seg Hf st'. subst st'. unfold playPreviewSegment. rewrite Hf.
    clear Hf.
    destruct st as [? ? ? ? ? ? ? vr ac g ? nodes active bufs ? ? ? ? ?].
    unfold initAudioContext, resume, stopAllAudio, videoPlay, updateVideo,
      addTimer, startSource.
    cbn -[Qmult Qplus Qminus map_to_list].
    destruct ac as [[[] ct]|]; destruct vr as [[? ? [] ?]|];
      destruct (bufs !! ident) as [b|] eqn:Hb; try destruct g;
      cbn -[Qmult Qplus Qminus map_to_list]; rewrite ?Hb;
      cbn -[Qmult Qplus Qminus map_to_list].
    all: split; [first [ exists []; rewrite app_nil_r; split; [reflexivity | split; [simpl; lia | constructor]]
                       | eexists [_]; split; [reflexivity | split; [simpl; lia | repeat constructor]]]|].
    all: split; [intros h Hh; rewrite ?lookup_insert_ne by done; apply lookup_empty|].
    all: split; [|intros; first [discriminate | reflexivity]].
    all: intros v' Hv'; first [discriminate | eexists; evaluate].
Qed.

Lemma single_preview_cancels_first_witness :
  exists seg,
    findSegment "seg-1" (segments pausedByCaptureStudio) = Some seg
    /\ forall h, h <> "preview-tts" ->
         activeSourceNodesRef
           (playPreviewSegment "seg-1" pausedByCaptureStudio) !! h = None.
Proof.
  destruct (findSegment "seg-1" (segments pausedByCaptureStudio))
    as [seg|] eqn:Hf; [|vm_compute in Hf; discriminate].
  exists seg. split; [reflexivity|].
  exact (proj1 (proj2 (proj2 (single_preview_cancels_first
                                "seg-1" pausedByCaptureStudio) seg Hf))).
Defined.
End PreviewMore.

(* ===================================================================== *)
(** * The synthesis loop of the export                                   *)
(* ===================================================================== *)

Section SynthesisLoop.
Import Types DubbingStudio.
Variable synthesize : string -> VoiceId -> option (string * AudioBuffer).

Lemma findSegment_id ident l seg :
  findSegment ident l = Some seg -> id seg = ident /\ seg ∈ l.
Proof.
  unfold findSegment. induction l as [|s l IH]; simpl; [discriminate|].
  case_bool_decide as Hs.
  - intros [= <-]. split; [exact Hs | left].
  - intros Hf. destruct (IH Hf) as [H1 H2]. split; [exact H1 | by right].
Qed.

Lemma findSegment_is_Some ident l :
  ident ∈ id <$> l -> is_Some (findSegment ident l).
Proof.
  unfold findSegment. induction l as [|s l IH]; simpl.
  - intros H. by apply elem_of_nil in H.
  - intros H. case_bool_decide as Hs; [eauto|].
    apply elem_of_cons in H as [H|H]; [congruence | by apply IH].
Qed.

Lemma scriptOf_markSynthesizing ident l :
  scriptOf <$> markSynthesizing ident l = scriptOf <$> l.
Proof.
  unfold markSynthesizing. rewrite <- list_fmap_compose.
  apply list_fmap_ext. intros i s _. simpl. by case_bool_decide.
Qed.

Lemma scriptOf_markSynthesized ident url l :
  scriptOf <$> markSynthesized ident url l = scriptOf <$> l.
Proof.
  unfold markSynthesized. rewrite <- list_fmap_compose.
  apply list_fmap_ext. intros i s _. simpl. by case_bool_decide.
Qed.

(** One run of the shared [try] block, with the [catch] of the export
    loop. *)
Lemma synthesizeOne_store spk voice seg st :
  let st' := synthesizeOne synthesize spk voice (fun st => st) seg st in
  downloads st' = downloads st
  /\ scriptOf <$> segments st' = scriptOf <$> segments st
  /\ (forall k, k <> id seg ->
        audioBuffersRef st' !! k = audioBuffersRef st !! k)
  /\ (forall k, is_Some (audioBuffersRef st !! k) ->
        is_Some (audioBuffersRef st' !! k))
  /\ (is_Some (synthesize (translatedText seg)
                 (voiceFor spk voice (speakerLabel seg))) ->
      is_Some (audioContextRef st) ->
      is_Some (audioBuffersRef st' !! id seg)).
Proof.
  destruct st as [? segs ? ? ? ? ? ? ac ? ? ? ? bufs ? ? ? ? ?].
  unfold synthesizeOne. cbn -[markSynthesizing markSynthesized].
  destruct (synthesize _ _) as [[url buf]|]; [destruct ac|];
    cbn -[markSynthesizing markSynthesized];
    rewrite ?scriptOf_markSynthesized, ?scriptOf_markSynthesizing.
  - split; [done|].
    split; [done|]. split; [intros k Hk; by rewrite lookup_insert_ne|].
    split.
    + intros k Hk. destruct (decide (k = id seg)) as [->|Hne].
      * rewrite lookup_insert_eq. eauto.
      * by rewrite lookup_insert_ne.
    + intros _ _. rewrite lookup_insert_eq. eauto.
  - split; [done|]. split; [done|]. split; [done|]. split; [done|].
    intros _ [? [=]].
  - split; [done|]. split; [done|]. split; [done|]. split; [done|].
    intros [? [=]].
Qed.

Lemma synthesisLoop_store segs spk voice todo st0 :
  let st' :=
    foldl (fun st ident =>
             match findSegment ident segs with
             | Some seg =>
                 synthesizeOne synthesize spk voice (fun st => st) seg st
             | None => st
             end) st0 todo in
  downloads st' = downloads st0
  /\ scriptOf <$> segments st' = scriptOf <$> segments st0
  /\ (forall k, k ∉ todo ->
        audioBuffersRef st' !! k = audioBuffersRef st0 !! k)
  /\ (forall k, is_Some (audioBuffersRef st0 !! k) ->
        is_Some (audioBuffersRef st' !! k))
  /\ ((forall text v, is_Some (synthesize text v)) ->
      is_Some (audioContextRef st0) ->
      forall k, k ∈ todo -> k ∈ id <$> segs ->
        is_Some (audioBuffersRef st' !! k)).
Proof.
  revert st0. induction todo as [|ident todo IH]; intros st0; simpl.
  - repeat split; auto. intros _ _ k Hk. by apply elem_of_nil in Hk.
  - set (st1 := match findSegment ident segs with
                | Some seg => synthesizeOne synthesize spk voice
                                (fun st => st) seg st0
                | None => st0
                end).
    destruct (IH st1) as (I0 & I1 & I2 & I3 & I4).
    assert (H1 : downloads st1 = downloads st0
                 /\ scriptOf <$> segments st1 = scriptOf <$> segments st0
                 /\ (forall k, k <> ident ->
                       audioBuffersRef st1 !! k = audioBuffersRef st0 !! k)
                 /\ (forall k, is_Some (audioBuffersRef st0 !! k) ->
                       is_Some (audioBuffersRef st1 !! k))
                 /\ ((forall text v, is_Some (synthesize text v)) ->
                     is_Some (audioContextRef st0) ->
                     ident ∈ id <$> segs ->
                     is_Some (audioBuffersRef st1 !! ident))
                 /\ (is_Some (audioContextRef st0) ->
                     is_Some (audioContextRef st1))).
    { subst st1. destruct (findSegment ident segs) as [seg|] eqn:Hf.
      - destruct (findSegment_id _ _ _ Hf) as [Hid _].
        destruct (synthesizeOne_store spk voice seg st0)
          as (S0 & S1 & S2 & S3 & S4).
        rewrite Hid in S2, S4.
        split; [exact S0|]. split; [exact S1|]. split; [exact S2|]. split; [exact S3|].
        split; [intros Ht Hc _; apply S4; [apply Ht | exact Hc]|].
        apply (synthesizeOne_frame synthesize spk voice seg st0).
      - split; [done|]. split; [done|]. split; [done|]. split; [done|].
        split; [|done]. intros _ _ Hin.
        apply findSegment_is_Some in Hin. rewrite Hf in Hin.
        by destruct Hin. }
    destruct H1 as (S0 & S1 & S2 & S3 & S4 & S5).
    split; [by rewrite I0|].
    split; [by rewrite I1|]. split; [|split].
    + intros k Hk. apply not_elem_of_cons in Hk as [Hk1 Hk2].
      rewrite I2 by done. by apply S2.
    + intros k Hk. by apply I3, S3.
    + intros Ht Hc k Hk Hin. apply elem_of_cons in Hk as [->|Hk].
      * apply I3, S4; done.
      * apply I4; auto.
Qed.

Lemma missingAudioIds_spec st k :
  k ∈ missingAudioIds st
  <-> k ∈ id <$> segments st /\ audioBuffersRef st !! k = None.
Proof.
  unfold missingAudioIds. rewrite !list_elem_of_fmap. split.
  - intros (s & -> & Hs). apply list_elem_of_filter in Hs as [H1 H2].
    split; [eauto | exact H1].
  - intros [(s & -> & Hs) Hk]. exists s. split; [done|].
    by apply list_elem_of_filter.
Qed.

End SynthesisLoop.

Section SynthesisMore.
Import Types DubbingStudio.

(** X15.  The synthesis loop of the export, when the synthesis service
    answers every request: afterwards no segment is left without a
    buffer.  The loop starts from the ids that had none. *)
Theorem export_synthesis_fills_store
    (synthesize : string -> VoiceId -> option (string * AudioBuffer))
    (st : Studio) :
  (forall text voice, is_Some (synthesize text voice)) ->
  missingAudioIds (ensureSynthesized synthesize st) = [].
Proof.
  intros Ht. unfold ensureSynthesized. cbv zeta.
  destruct (missingAudioIds st) as [|i missing] eqn:Hm; [exact Hm|].
  rewrite <- Hm. clear i missing Hm.
  set (st0 := initAudioContext (setStatus SYNTHESIZING st)).
  destruct (synthesisLoop_store synthesize (segments st) (speakerMap st)
              (defaultVoice st) (missingAudioIds st) st0)
    as (_ & I1 & _ & I3 & I4).
  set (st' := foldl _ st0 (missingAudioIds st)) in *.
  assert (Hc : is_Some (audioContextRef st0)).
  { subst st0. unfold initAudioContext, resume.
    destruct st as [? ? ? ? ? ? ? ? ac ? ? ? ? ? ? ? ? ? ?]. simpl.
    destruct ac as [[[] ?]|]; simpl; eauto. }
  assert (Hs0 : segments st0 = segments st
                /\ audioBuffersRef st0 = audioBuffersRef st).
  { subst st0. unfold initAudioContext, resume.
    destruct st as [? ? ? ? ? ? ? ? ac ? ? ? ? ? ? ? ? ? ?]. simpl.
    destruct ac as [[[] ?]|]; simpl; eauto. }
  destruct Hs0 as [Hs0 Hb0].
  assert (Hids : id <$> segments st' = id <$> segments st).
  { rewrite <- Hs0.
    apply (f_equal (fmap (fun p => p.1.1.1.1.1))) in I1.
    rewrite <- !list_fmap_compose in I1. exact I1. }
  apply elem_of_nil_inv. intros k Hk.
  apply missingAudioIds_spec in Hk as [Hin Hnone].
  rewrite Hids in Hin.
  destruct (audioBuffersRef st !! k) as [b|] eqn:Hb.
  - destruct (I3 k) as [b' Hb']; [rewrite Hb0, Hb; eauto|]. congruence.
  - destruct (I4 Ht Hc k) as [b' Hb']; [|exact Hin|congruence].
    apply missingAudioIds_spec. by split.
Qed.

Lemma export_synthesis_fills_store_witness :
  (forall text voice, is_Some (freshSynthesize text voice))
  /\ missingAudioIds (setAudioBuffersRef ∅ scenarioStudio)
     = ["seg-0"; "seg-1"; "seg-2"]
  /\ missingAudioIds
       (ensureSynthesized freshSynthesize
          (setAudioBuffersRef ∅ scenarioStudio)) = [].
Proof.
  assert (Ht : forall text voice, is_Some (freshSynthesize text voice)).
  { intros text voice. unfold freshSynthesize. eauto. }
  split; [exact Ht|]. split; [vm_compute; reflexivity|].
  apply (export_synthesis_fills_store freshSynthesize
           (setAudioBuffersRef ∅ scenarioStudio) Ht).
Defined.
End SynthesisMore.

(* ===================================================================== *)
(** * What export and synthesis do to the store                          *)
(* ===================================================================== *)

Section ExportStore.
Import Types DubbingStudio.

(** Case analysis on the id test of a [map] over the segments. *)
Ltac seg_cases :=
  unfold compose; simpl;
  repeat (case_bool_decide; simpl in *);
  intros; simplify_eq; simpl in *; first [done | congruence].

Lemma storeFrame_refl st : storeFrame st st.
Proof. by repeat split. Qed.

Lemma storeFrame_trans st1 st2 st3 :
  storeFrame st1 st2 -> storeFrame st2 st3 -> storeFrame st1 st3.
Proof.
  intros (A1 & A2 & A3) (B1 & B2 & B3).
  repeat split; congruence.
Qed.

Lemma storeFrame_stopAllAudio st : storeFrame st (stopAllAudio st).
Proof. by repeat split. Qed.

Lemma storeFrame_resume st : storeFrame st (resume st).
Proof. unfold resume. by destruct (audioContextRef st). Qed.

Lemma storeFrame_initAudioContext st : storeFrame st (initAudioContext st).
Proof.
  unfold initAudioContext. destruct (audioContextRef st) as [ctx|] eqn:Hc;
    [|by repeat split].
  destruct (ctx_state ctx); [apply storeFrame_refl | apply storeFrame_resume].
Qed.

Lemma storeFrame_setMonitorGain g st : storeFrame st (setMonitorGain g st).
Proof. unfold setMonitorGain. by destruct (monitorGainNodeRef st). Qed.

Lemma storeFrame_updateVideo f st : storeFrame st (updateVideo f st).
Proof. by repeat split. Qed.

Lemma storeFrame_videoPlay st : storeFrame st (videoPlay st).
Proof.
  unfold videoPlay. destruct (videoRef st) as [v|]; [|apply storeFrame_refl].
  by destruct (paused v).
Qed.

Lemma storeFrame_scheduleAll st : storeFrame st (scheduleAll st).
Proof.
  destruct (scheduleAll_frame st) as (_ & Hs & _ & _ & _ & _ & _ & Hb & _ & _ & Hd & _).
  by repeat split.
Qed.

(** [handleExport] is the synthesis loop followed by steps that keep the
    store. *)
Lemma handleExport_storeFrame synth st :
  handleExport synth st = st
  \/ storeFrame (ensureSynthesized synth st) (handleExport synth st).
Proof.
  unfold handleExport.
  destruct (videoRef st) as [v|]; [|by left].
  destruct (audioContextRef st) as [ctx|]; [|by left].
  destruct (segments st) as [|s rest]; [by left|]. right. cbv zeta.
  set (st0 := ensureSynthesized synth st).
  set (st1 := stopAllAudio (setIsPlaying false (setStatus EXPORTING st0))).
  assert (F1 : storeFrame st0 st1) by (by repeat split).
  set (st2 := initAudioContext st1).
  assert (F2 : storeFrame st0 st2).
  { eapply storeFrame_trans; [exact F1 | apply storeFrame_initAudioContext]. }
  clearbody st2. clear F1.
  destruct (audioContextRef st2); [|exact F2].
  destruct (masterDestNodeRef st2); [|exact F2].
  set (st3 := resume st2).
  assert (F3 : storeFrame st0 st3).
  { eapply storeFrame_trans; [exact F2 | apply storeFrame_resume]. }
  clearbody st3. clear F2.
  destruct (videoRef st3) as [vidEl|]; [|exact F3].
  destruct (captureStream vidEl || mozCaptureStream vidEl).
  - eapply storeFrame_trans; [exact F3|].
    eapply storeFrame_trans; [apply (storeFrame_setMonitorGain 0)|].
    eapply storeFrame_trans; [apply storeFrame_updateVideo|].
    eapply storeFrame_trans; [apply storeFrame_scheduleAll|].
    eapply storeFrame_trans; [|apply storeFrame_updateVideo].
    eapply storeFrame_trans; [|apply storeFrame_videoPlay].
    by repeat split.
  - eapply storeFrame_trans; [exact F3|]. by repeat split.
Qed.

Lemma ensureSynthesized_store synth st :
  let st' := ensureSynthesized synth st in
  scriptOf <$> segments st' = scriptOf <$> segments st
  /\ (forall k, k ∉ missingAudioIds st ->
        audioBuffersRef st' !! k = audioBuffersRef st !! k)
  /\ downloads st' = downloads st.
Proof.
  cbv zeta. split; [|split].
  2: { intros k Hk. revert Hk. unfold ensureSynthesized. cbv zeta.
       destruct (missingAudioIds st) as [|i missing] eqn:Hm; [done|].
       intros Hk.
       set (st0 := initAudioContext (setStatus SYNTHESIZING st)).
       destruct (synthesisLoop_store synth (segments st) (speakerMap st)
                   (defaultVoice st) (i :: missing) st0) as (_ & _ & I2 & _).
       rewrite (I2 k Hk). subst st0.
       destruct (storeFrame_initAudioContext (setStatus SYNTHESIZING st))
         as (_ & -> & _). reflexivity. }
  - unfold ensureSynthesized. cbv zeta.
    destruct (missingAudioIds st) as [|i missing]; [done|].
    set (st0 := initAudioContext (setStatus SYNTHESIZING st)).
    destruct (synthesisLoop_store synth (segments st) (speakerMap st)
                (defaultVoice st) (i :: missing) st0) as (_ & -> & _).
    subst st0.
    destruct (storeFrame_initAudioContext (setStatus SYNTHESIZING st))
      as (-> & _). reflexivity.
  - unfold ensureSynthesized. cbv zeta.
    destruct (missingAudioIds st) as [|i missing]; [done|].
    set (st0 := initAudioContext (setStatus SYNTHESIZING st)).
    destruct (synthesisLoop_store synth (segments st) (speakerMap st)
                (defaultVoice st) (i :: missing) st0) as (-> & _).
    subst st0.
    destruct (storeFrame_initAudioContext (setStatus SYNTHESIZING st))
      as (_ & _ & ->). reflexivity.
Qed.

(** X16.  An export rewrites no line: ids, times, texts and speaker labels
    of the segments stay as they are.  It never replaces or removes a
    buffer that is already in the store, touches no store entry outside the
    segments' ids, and downloads nothing by itself (the download happens
    when the recorder stops). *)
Theorem export_keeps_script_and_buffers
    (synthesize : string -> VoiceId -> option (string * AudioBuffer))
    (st : Studio) :
  let st' := handleExport synthesize st in
  scriptOf <$> segments st' = scriptOf <$> segments st
  /\ (forall k b, audioBuffersRef st !! k = Some b ->
        audioBuffersRef st' !! k = Some b)
  /\ (forall k, k ∉ id <$> segments st ->
        audioBuffersRef st' !! k = audioBuffersRef st !! k)
  /\ downloads st' = downloads st.
Proof.
  cbv zeta.
  assert (H : forall k, k ∉ missingAudioIds st ->
                audioBuffersRef (handleExport synthesize st) !! k
                = audioBuffersRef st !! k).
  { intros k Hk.
    destruct (handleExport_storeFrame synthesize st) as [-> | (_ & -> & _)];
      [done|].
    by apply ensureSynthesized_store. }
  split; [|split; [|split]].
  - destruct (handleExport_storeFrame synthesize st) as [-> | (-> & _)];
      [done|].
    apply ensureSynthesized_store.
  - intros k b Hb. rewrite H; [exact Hb|].
    rewrite missingAudioIds_spec. intros [_ Hn]. congruence.
  - intros k Hk. apply H. rewrite missingAudioIds_spec. tauto.
  - destruct (handleExport_storeFrame synthesize st) as [-> | (_ & _ & ->)];
      [done|].
    apply ensureSynthesized_store.
Qed.

Lemma export_keeps_script_and_buffers_witness :
  audioBuffersRef editedStudio !! "seg-1" = Some (toneBuffer 300)
  /\ audioBuffersRef (handleExport freshSynthesize editedStudio) !! "seg-1"
     = Some (toneBuffer 300).
Proof.
  assert (Hb : audioBuffersRef editedStudio !! "seg-1"
               = Some (toneBuffer 300)) by (vm_compute; reflexivity).
  split; [exact Hb|].
  exact (proj1 (proj2 (export_keeps_script_and_buffers
                         freshSynthesize editedStudio)) _ _ Hb).
Defined.

(** X17.  Synthesizing one segment by hand.  The voice asked for is what
    [speakerMap[label] || defaultVoice] evaluates to on a plain object: the
    speaker's own entry when it is not empty; without an own entry, the
    member of [Object.prototype] of that name when the label is one of
    its property names (not a voice name), and the default voice
    otherwise.  When the service answers, the trimmed buffer replaces whatever the store held
    under that id (with an audio context at hand), every segment with that
    id gets the new URL, and its busy flag is cleared; when the service
    fails, the store and the URLs are kept and the flag is cleared all the
    same.  No other store entry and no other segment changes, and no
    line's id, times, texts or speaker label. *)
Theorem manual_synthesis_replaces_buffer
    (synthesize : string -> VoiceId -> option (string * AudioBuffer))
    (ident : string) (st : Studio) (seg : DubSegment) :
  findSegment ident (segments st) = Some seg ->
  let st' := handleSynthesizeSegment synthesize ident st in
  let voice := voiceFor (speakerMap st) (defaultVoice st) (speakerLabel seg) in
  (forall v, speakerMap st !! speakerLabel seg = Some v ->
     voice = VoiceName (if bool_decide (v = "") then defaultVoice st else v))
  /\ (speakerMap st !! speakerLabel seg = None ->
      speakerLabel seg ∈ objectPrototypeKeys ->
      voice = PrototypeMember (speakerLabel seg))
  /\ (speakerMap st !! speakerLabel seg = None ->
      speakerLabel seg ∉ objectPrototypeKeys ->
      voice = VoiceName (defaultVoice st))
  /\ scriptOf <$> segments st' = scriptOf <$> segments st
  /\ (forall k, k <> ident ->
        audioBuffersRef st' !! k = audioBuffersRef st !! k)
  /\ (forall i s, segments st !! i = Some s -> id s <> ident ->
        segments st' !! i = Some s)
  /\ (forall i s, segments st' !! i = Some s -> id s = ident ->
        isSynthesizing s = Some false)
  /\ match synthesize (translatedText seg) voice with
     | Some (url, buf) =>
         (is_Some (audioContextRef st) ->
          audioBuffersRef st' !! ident = Some (trimAudioBuffer buf))
         /\ (forall i s, segments st' !! i = Some s -> id s = ident ->
               audioUrl s = Some url)
     | None =>
         audioBuffersRef st' = audioBuffersRef st
         /\ audioUrl <$> segments st' = audioUrl <$> segments st
     end.
Proof.
  intros Hf. destruct (findSegment_id _ _ _ Hf) as [Hid _].
  cbv zeta.
  split; [intros v Hv; unfold voiceFor, getProperty; rewrite Hv;
          by case_bool_decide|].
  split; [intros Hn Hin; unfold voiceFor, getProperty; rewrite Hn;
          by rewrite bool_decide_eq_true_2|].
  split; [intros Hn Hin; unfold voiceFor, getProperty; rewrite Hn;
          by rewrite bool_decide_eq_false_2|].
  unfold handleSynthesizeSegment. rewrite Hf. clear Hf.
  destruct st as [? segs ? ? dv spk ? ? ac ? ? ? ? bufs ? ? ? ? ?].
  unfold synthesizeOne, markSynthesizing, markSynthesized.
  rewrite Hid. cbn [speakerMap defaultVoice segments setSegments].
  destruct (synthesize _ _) as [[url buf]|]; [destruct ac|]; simpl;
    rewrite <- !list_fmap_compose.
  all: split; [apply list_fmap_ext; intros i s _; seg_cases|].
  all: split; [intros k Hk; by rewrite ?lookup_insert_ne|].
  all: split; [intros i s Hs Hne; rewrite list_lookup_fmap, Hs; seg_cases|].
  all: split; [intros i s Hs He; rewrite list_lookup_fmap in Hs;
               destruct (segs !! i) as [s0|]; [|discriminate];
               revert Hs He; seg_cases|].
  - split; [intros _; by rewrite lookup_insert_eq|].
    intros i s Hs He; rewrite list_lookup_fmap in Hs;
      destruct (segs !! i) as [s0|]; [|discriminate].
    revert Hs He. seg_cases.
  - split; [intros [? [=]]|].
    intros i s Hs He; rewrite list_lookup_fmap in Hs;
      destruct (segs !! i) as [s0|]; [|discriminate].
    revert Hs He. seg_cases.
  - split; [done|]. apply list_fmap_ext. intros i s _. seg_cases.
Qed.

Lemma manual_synthesis_replaces_buffer_witness :
  audioBuffersRef editedStudio !! "seg-1" = Some (toneBuffer 300)
  /\ audioBuffersRef (handleSynthesizeSegment freshSynthesize "seg-1"
                        editedStudio) !! "seg-1"
     = Some (trimAudioBuffer (toneBuffer 400)).
Proof.
  split; [vm_compute; reflexivity|].
  destruct (findSegment "seg-1" (segments editedStudio)) as [seg|] eqn:Hf;
    [|vm_compute in Hf; discriminate].
  destruct (manual_synthesis_replaces_buffer freshSynthesize "seg-1"
              editedStudio seg Hf) as (_ & _ & _ & _ & _ & _ & _ & Hb & _).
  apply Hb. vm_compute. eauto.
Defined.
End ExportStore.

(* ===================================================================== *)
(** * Recorder, voice selection, reset and audio graph                   *)
(* ===================================================================== *)

Section SessionMore.
Import Types DubbingStudio.
Local Open Scope Q_scope.

(** X18.  Stopping the recorder.  A recording recorder is stopped: one
    file is downloaded, the status becomes [COMPLETED], every active clip
    is cancelled, the monitor gain (when the node exists) goes back to 1,
    and the video is rewound and unmuted.  A recorder that is not
    recording gives no download.  In both cases the [onended] handler is
    removed, and stopping again changes nothing, so the end-of-video
    handler and its timeout together download at most one file. *)
Theorem recorder_stops_once (st : Studio) :
  let st' := stopRecorderNow st in
  (recorder st = Some Recording ->
     downloads st' = S (downloads st)
     /\ status st' = COMPLETED
     /\ recorder st' = Some Inactive
     /\ activeSourceNodesRef st' = ∅
     /\ sourceNodes st' = sourceNodes (stopAllAudio st)
     /\ (is_Some (monitorGainNodeRef st) -> monitorGainNodeRef st' = Some 1)
     /\ (forall v, videoRef st' = Some v ->
           video_currentTime v = 0 /\ muted v = false))
  /\ (recorder st <> Some Recording ->
        downloads st' = downloads st /\ status st' = status st
        /\ sourceNodes st' = sourceNodes st)
  /\ (forall v, videoRef st' = Some v -> onended v = None)
  /\ stopRecorderNow st' = st'.
Proof.
  destruct st as [? ? ? ? ? ? ? vr ? g ? nodes active ? ? r ? ? ?].
  unfold stopRecorderNow, recorderStop, setMonitorGain, updateVideo,
    stopAllAudio.
  cbn -[map_to_list].
  destruct r as [[]|]; destruct vr as [[]|]; destruct g; cbn -[map_to_list].
  all: split;
    [intros Hr; try discriminate;
     (do 5 (split; [reflexivity|]));
     (split; [first [intros _; reflexivity | by intros [? [=]]]|]);
     first [by intros ? [= <-] | done]|].
  all: split; [intros Hr; try done|].
  all: split; [first [by intros ? [= <-] | done]|reflexivity].
Qed.

Lemma recorder_stops_once_witness :
  recorder exportedTailStudio = Some Recording
  /\ downloads (stopRecorderNow exportedTailStudio)
     = S (downloads exportedTailStudio)
  /\ downloads (stopRecorderNow (stopRecorderNow exportedTailStudio))
     = S (downloads exportedTailStudio).
Proof.
  destruct (recorder_stops_once exportedTailStudio) as (H1 & _ & _ & H4).
  assert (Hr : recorder exportedTailStudio = Some Recording)
    by (vm_compute; reflexivity).
  destruct (H1 Hr) as (Hd & _).
  split; [exact Hr|]. split; [exact Hd|].
  rewrite H4. exact Hd.
Defined.

(** X19.  Choosing another voice for a speaker: the map gives the new voice
    for that speaker (so a non-empty choice is the voice the next synthesis
    of the speaker's lines asks for) and is unchanged for every other
    speaker; the speaker's lines lose their audio URL and nothing else, the
    other lines are untouched.  The buffers already decoded stay in the
    store, so no line is reported missing to the export. *)
Theorem voice_change_keeps_buffers (speaker value : string) (st : Studio) :
  let st' := changeSpeakerVoice speaker value st in
  speakerMap st' !! speaker = Some value
  /\ (value <> "" ->
      voiceFor (speakerMap st') (defaultVoice st') speaker
      = VoiceName value)
  /\ (forall other, other <> speaker ->
        voiceFor (speakerMap st') (defaultVoice st') other
        = voiceFor (speakerMap st) (defaultVoice st) other)
  /\ (forall i s, segments st !! i = Some s ->
        exists s', segments st' !! i = Some s'
          /\ scriptOf s' = scriptOf s
          /\ isSynthesizing s' = isSynthesizing s
          /\ audioUrl s'
             = if bool_decide (speakerLabel s = speaker) then None
               else audioUrl s)
  /\ length (segments st') = length (segments st)
  /\ audioBuffersRef st' = audioBuffersRef st
  /\ missingAudioIds st' = missingAudioIds st.
Proof.
  destruct st as [? segs ? ? dv spk ? ? ? ? ? ? ? bufs ? ? ? ? ?].
  unfold changeSpeakerVoice, missingAudioIds, voiceFor, getProperty. simpl.
  split; [by rewrite lookup_insert_eq|].
  split; [intros Hv; rewrite lookup_insert_eq; by rewrite bool_decide_eq_false_2|].
  split; [intros other Ho; by rewrite lookup_insert_ne|].
  split; [|split; [by rewrite length_fmap|split; [done|]]].
  - intros i s Hs. rewrite list_lookup_fmap, Hs. simpl. eexists.
    split; [reflexivity|]. by case_bool_decide.
  - induction segs as [|s segs IH]; [done|].
    rewrite fmap_cons, !filter_cons.
    assert (Hid : id (if bool_decide (speakerLabel s = speaker)
                      then withAudioUrl None s else s) = id s)
      by (by case_bool_decide).
    destruct (decide (bufs !! id s = None)) as [Hn|Hn];
      (destruct (decide (bufs !! id (if bool_decide (speakerLabel s = speaker)
                                     then withAudioUrl None s else s) = None))
         as [Hn'|Hn']; [|]);
      rewrite ?Hid in Hn'; try contradiction;
      rewrite ?fmap_cons, ?Hid, IH; reflexivity.
Qed.

Lemma voice_change_keeps_buffers_witness :
  let st' := changeSpeakerVoice "Speaker 1" "Puck" scenarioStudio in
  voiceFor (speakerMap st') (defaultVoice st') "Speaker 1"
  = VoiceName "Puck".
Proof.
  intros st'.
  apply (proj1 (proj2 (voice_change_keeps_buffers
                         "Speaker 1" "Puck" scenarioStudio))).
  discriminate.
Defined.

(** X20.  Reset: the active clips are cancelled, the segments, the speaker
    map, the buffer store and the active set are emptied, the cursor is 0
    and the status [IDLE]; no clip is removed from the audio graph's
    history, the audio context is kept and pending timeouts are not
    cancelled.  With no file and no video element, starting an analysis, a
    preview, a synthesis or an export afterwards does nothing. *)
Theorem reset_clears_the_session (st : Studio) :
  let st' := handleReset st in
  (status st' = IDLE /\ segments st' = [] /\ speakerMap st' = ∅
   /\ detectedSpeakers st' = [] /\ isPlaying st' = false
   /\ audioBuffersRef st' = ∅ /\ activeSourceNodesRef st' = ∅
   /\ lastSegmentEndTimeRef st' = 0)
  /\ sourceNodes st' = sourceNodes (stopAllAudio st)
  /\ audioContextRef st' = audioContextRef st
  /\ timers st' = timers st
  /\ (forall analysis, startAnalysis analysis st' = st')
  /\ playFullPreview st' = st'
  /\ (forall ident, playPreviewSegment ident st' = st')
  /\ (forall synth ident, handleSynthesizeSegment synth ident st' = st')
  /\ (forall synth, handleExport synth st' = st')
  /\ handleReset st' = st'.
Proof.
  destruct st as [? ? ? ? dv ? ? ? ac g md nodes active ? ? r t d al].
  assert (E : handleReset
                {| status := status0; segments := segments0;
                   isPlaying := isPlaying0; file := file0;
                   defaultVoice := dv; speakerMap := speakerMap0;
                   detectedSpeakers := detectedSpeakers0;
                   videoRef := videoRef0; audioContextRef := ac;
                   monitorGainNodeRef := g; masterDestNodeRef := md;
                   sourceNodes := nodes; activeSourceNodesRef := active;
                   audioBuffersRef := audioBuffersRef0;
                   lastSegmentEndTimeRef := lastSegmentEndTimeRef0;
                   recorder := r; timers := t; downloads := d;
                   alerts := al |}
              = {| status := IDLE; segments := []; isPlaying := false;
                   file := false; defaultVoice := dv; speakerMap := ∅;
                   detectedSpeakers := []; videoRef := None;
                   audioContextRef := ac; monitorGainNodeRef := g;
                   masterDestNodeRef := md;
                   sourceNodes :=
                     foldr (fun h nodes => alter stopSource h nodes) nodes
                           (map_to_list active).*2;
                   activeSourceNodesRef := ∅; audioBuffersRef := ∅;
                   lastSegmentEndTimeRef := 0; recorder := r; timers := t;
                   downloads := d; alerts := al |})
    by reflexivity.
  cbv zeta. rewrite E. clear E.
  split; [by repeat split|]. do 3 (split; [reflexivity|]).
  generalize (foldr (fun h nodes => alter stopSource h nodes) nodes
                    (map_to_list active).*2).
  intros nodes'.
  do 5 (split; [reflexivity|]).
  unfold handleReset, stopAllAudio. cbn -[map_to_list].
  rewrite map_to_list_empty. reflexivity.
Qed.

(** X21.  [initAudioContext] builds the audio graph once.  Afterwards a
    running context exists.  A context that is already there is kept, with
    its clock, its output nodes and the monitor gain as they are; only
    without one are the nodes created, the monitor gain at 1.  Segments,
    buffers, clips, the active set and the cursor are never touched, and a
    second call changes nothing. *)
Theorem audio_graph_is_built_once (st : Studio) :
  let st' := initAudioContext st in
  (exists ctx, audioContextRef st' = Some ctx /\ ctx_state ctx = Running)
  /\ (forall ctx, audioContextRef st = Some ctx ->
        (exists ctx', audioContextRef st' = Some ctx'
                      /\ currentTime ctx' = currentTime ctx)
        /\ monitorGainNodeRef st' = monitorGainNodeRef st
        /\ masterDestNodeRef st' = masterDestNodeRef st)
  /\ (audioContextRef st = None ->
        monitorGainNodeRef st' = Some 1 /\ masterDestNodeRef st' = true)
  /\ (segments st' = segments st /\ audioBuffersRef st' = audioBuffersRef st
      /\ sourceNodes st' = sourceNodes st
      /\ activeSourceNodesRef st' = activeSourceNodesRef st
      /\ lastSegmentEndTimeRef st' = lastSegmentEndTimeRef st
      /\ videoRef st' = videoRef st)
  /\ initAudioContext st' = st'.
Proof.
  destruct st as [? ? ? ? ? ? ? ? ac ? ? ? ? ? ? ? ? ? ?].
  unfold initAudioContext, resume. simpl.
  destruct ac as [[[] ct]|]; simpl.
  all: split; [eauto|].
  all: split; [intros ctx [= <-]; simpl; eauto|].
  all: split; [intros [=]; eauto|].
  all: split; [by repeat split | reflexivity].
Qed.

Lemma audio_graph_is_built_once_witness :
  exists ctx', audioContextRef (initAudioContext scenarioStudio) = Some ctx'
               /\ currentTime ctx' = 0.
Proof.
  destruct (audio_graph_is_built_once scenarioStudio) as (_ & H & _).
  destruct (H {| ctx_state := Running; currentTime := 0 |})
    as ((ctx' & H1 & H2) & _); [vm_compute; reflexivity|].
  exists ctx'. split; [exact H1 | exact H2].
Defined.
End SessionMore.

(* ===================================================================== *)
(** * Voices used after an analysis                                      *)
(* ===================================================================== *)

Section AnalysisMore.
Import Types DubbingStudio.

Lemma voiceAt_named i v : voiceAt i = Some v -> voice_id v <> "".
Proof.
  unfold voiceAt. destruct (decide (0 <= i)%Z); [|discriminate].
  unfold VOICES.
  destruct (Z.to_nat i) as [|[|[|[|[|n]]]]]; simpl; intros [= <-]; done.
Qed.

(** X22.  After a successful analysis, the voice a synthesis asks for a
    line ([speakerMap[label] || defaultVoice]) is the rotation's voice for
    the position of the line's speaker among the detected speakers: every
    line of the first speaker is spoken with the selected default voice,
    every line of the speaker at position [k >= 1] with
    [VOICES[(indexOf(defaultVoice) + k) mod 5]].  The one exception is a
    speaker labelled [__proto__], for which the map holds no voice: the
    synthesis of its lines is asked for [Object.prototype]. *)
Theorem analysed_lines_use_rotated_voices
    (results : list DubSegment) (st : Studio) :
  file st = true ->
  let st' := startAnalysis (Some results) st in
  forall s, s ∈ segments st' ->
    exists k,
      detectedSpeakers st' !! k = Some (speakerLabel s)
      /\ (speakerLabel s <> "__proto__" ->
          VoiceName <$> rotatedVoice (defaultVoice st) k
          = Some (voiceFor (speakerMap st') (defaultVoice st')
                    (speakerLabel s)))
      /\ (speakerLabel s = "__proto__" ->
          voiceFor (speakerMap st') (defaultVoice st') (speakerLabel s)
          = PrototypeMember "__proto__").
Proof.
  intros Hfile st' s Hs.
  destruct (distinctFrom_spec (speakerLabel <$> results) [])
    as (Hnd & Hin & _).
  fold (distinctLabels (speakerLabel <$> results)) in Hnd, Hin.
  destruct (assignVoices_spec (defaultVoice st)
              (distinctLabels (speakerLabel <$> results)) 0 ∅ Hnd)
    as (m' & E & Hk & _ & Hp); [apply lookup_empty|].
  destruct (startAnalysis_success results st m' Hfile E)
    as (_ & H1 & Hd & H2 & H3).
  fold st' in H1, Hd, H2, H3. rewrite Hd, H2, H3.
  rewrite H1 in Hs.
  assert (Hl : speakerLabel s ∈ distinctLabels (speakerLabel <$> results)).
  { apply Hin. split; [|apply not_elem_of_nil].
    apply list_elem_of_fmap. eauto. }
  apply list_elem_of_lookup in Hl as [k Hk'].
  exists k. split; [exact Hk'|]. split.
  - intros Hne. specialize (Hk k _ Hk' Hne). simpl in Hk.
    unfold voiceFor, getProperty. rewrite Hk.
    destruct (rotatedVoice_is_Some (defaultVoice st) k) as [vc Hvc].
    rewrite Hvc. simpl. f_equal.
    destruct k as [|k]; simpl in Hvc.
    + injection Hvc as <-. by case_bool_decide as Hv; [rewrite Hv|].
    + destruct (voiceAt _) as [v|] eqn:Hv; simpl in Hvc; [|discriminate].
      injection Hvc as <-.
      apply voiceAt_named in Hv. by rewrite bool_decide_eq_false_2.
  - intros ->. unfold voiceFor, getProperty. rewrite Hp. reflexivity.
Qed.

Lemma analysed_lines_use_rotated_voices_witness :
  let st' := startAnalysis (Some inheritedLabelSegments) loadedStudio in
  (exists k,
     detectedSpeakers st' !! k = Some "Speaker 1"
     /\ VoiceName <$> rotatedVoice (defaultVoice loadedStudio) k
        = Some (voiceFor (speakerMap st') (defaultVoice st') "Speaker 1"))
  /\ voiceFor (speakerMap st') (defaultVoice st') "__proto__"
     = PrototypeMember "__proto__".
Proof.
  intros st'. split.
  - destruct (analysed_lines_use_rotated_voices inheritedLabelSegments
                loadedStudio eq_refl
                (analysedSegment "seg-0" 0.0 1.0 "one")%Q)
      as (k & Hk & Hv & _); [vm_compute; left|].
    exists k. split; [exact Hk|]. apply Hv. discriminate.
  - destruct (analysed_lines_use_rotated_voices inheritedLabelSegments
                loadedStudio eq_refl
                {| id := "seg-1"; startTime := 1.0; endTime := 2.0;
                   originalText := "original"; translatedText := "two";
                   isSynthesizing := None; audioUrl := None;
                   speakerLabel := "__proto__" |}%Q)
      as (k & _ & _ & Hv); [vm_compute; right; left|].
    apply Hv. reflexivity.
Defined.
End AnalysisMore.
